(** * Weather acquisition pipeline and admin status guards of wwtrail-backend

    A shallow embedding of [src/services/competition-admin.service.ts]
    (classes [CompetitionAdminService] and [WeatherService]) together with
    the properties its specification states about them.

    Conventions of the embedding.
    - A JavaScript [number] is a binary64 value: a rational ([Fin]),
      [Infinity], [-Infinity] or [NaN].  The sums, products and quotients of
      the weather summary are rounded to the nearest binary64 value, ties to
      even, with subnormal numbers and overflow to an infinity; the two
      zeros are not told apart (no operation of the service divides by a
      computed zero).  A coordinate read by [parseFloat] is kept as the
      decimal number that was read: it is only passed on to the archive.
    - [null] is [None].
    - A string is the sequence of the bytes of its UTF-8 encoding.
    - [await]ed calls to the database, the cache and the weather archive are
      steps on an explicit world; the answer of the archive is an oracle. *)

From Stdlib Require Import ZArith QArith Qround Qminmax Qpower Lia Lqa List Ascii String Bool.
From stdpp Require Import gmap strings.

Local Open Scope Z_scope.

(** ** Part I. Definitions *)

(** *** JavaScript numbers and built-ins *)

Module Js.

Inductive number : Type :=
| Fin (q : Q)
| PosInf
| NegInf
| NaN.

(** [a > b]: false as soon as one side is [NaN]. *)
Definition gt (a b : number) : bool :=
  match a, b with
  | NaN, _ | _, NaN => false
  | Fin x, Fin y => negb (Qle_bool x y)
  | PosInf, (Fin _ | NegInf) => true
  | Fin _, NegInf => true
  | _, _ => false
  end.

(** [a <= b] as a proposition (never holds of [NaN]). *)
Definition le (a b : number) : Prop :=
  match a, b with
  | NaN, _ | _, NaN => False
  | Fin x, Fin y => (x <= y)%Q
  | NegInf, _ => True
  | _, PosInf => True
  | _, _ => False
  end.

(** [a <= b] as the test that [Math.min] and [Math.max] make. *)
Definition leb (a b : number) : bool :=
  match a, b with
  | NaN, _ | _, NaN => false
  | Fin x, Fin y => Qle_bool x y
  | NegInf, _ => true
  | _, PosInf => true
  | _, _ => false
  end.

(** Two numbers of the same value: [Fin] carries a fraction, and two
    fractions can stand for one rational. *)
Definition sameValue (a b : number) : Prop :=
  match a, b with
  | Fin x, Fin y => (x == y)%Q
  | PosInf, PosInf | NegInf, NegInf | NaN, NaN => True
  | _, _ => False
  end.

(** **** Rounding to binary64

    Every arithmetic operation of JavaScript gives the binary64 value
    nearest to the exact result, ties to the even significand: 53 bits of
    significand, the least exponent of a unit in the last place is -1074
    (subnormal numbers included), and a result that rounds to [2 ^ 1024] or
    more is infinite. *)

Definition pow2 (e : Z) : Q := (2 ^ e)%Q.

(** The integer [k] with [2 ^ k <= q < 2 ^ (k + 1)], for [0 < q]. *)
Definition ilog2 (q : Q) : Z :=
  let k := Z.log2 (Qnum q) - Z.log2 (Z.pos (Qden q)) in
  if Qle_bool (pow2 k) q then k else k - 1.

(** The nearest integer, a half towards the even neighbour. *)
Definition rne (x : Q) : Z :=
  let f := Qfloor x in
  match (x - inject_Z f ?= 1 # 2)%Q with
  | Lt => f
  | Gt => f + 1
  | Eq => if Z.even f then f else f + 1
  end.

(** Exponent of the unit in the last place of [q], and [q] rounded to a
    multiple of that unit, for [0 < q]. *)
Definition expPos (q : Q) : Z := Z.max (ilog2 q - 52) (-1074).

Definition valPos (q : Q) : Q :=
  (inject_Z (rne (q / pow2 (expPos q))) * pow2 (expPos q))%Q.

Definition roundPos (q : Q) : number :=
  let v := Qred (valPos q) in
  if Qle_bool (pow2 1024) v then PosInf else Fin v.

Definition neg (x : number) : number :=
  match x with
  | Fin q => Fin (- q)
  | PosInf => NegInf
  | NegInf => PosInf
  | NaN => NaN
  end.

Definition round64 (q : Q) : number :=
  match (Qred q ?= 0)%Q with
  | Eq => Fin 0
  | Gt => roundPos (Qred q)
  | Lt => neg (roundPos (- Qred q))
  end.

(** The number that a decimal literal, in a program or in a JSON text,
    denotes. *)
Definition ofDecimal (q : Q) : number := round64 q.

(** The values a [number] can take: the infinities, [NaN], and the
    rationals that rounding leaves as they are. *)
Definition binary64 (x : number) : Prop :=
  match x with
  | Fin q => sameValue (round64 q) (Fin q)
  | _ => True
  end.

(** [a + b] *)
Definition add (a b : number) : number :=
  match a, b with
  | NaN, _ | _, NaN => NaN
  | PosInf, NegInf | NegInf, PosInf => NaN
  | PosInf, _ | _, PosInf => PosInf
  | NegInf, _ | _, NegInf => NegInf
  | Fin x, Fin y => round64 (x + y)
  end.

(** [a * b] *)
Definition mul (a b : number) : number :=
  match a, b with
  | NaN, _ | _, NaN => NaN
  | Fin x, Fin y => round64 (x * y)
  | Fin x, other | other, Fin x =>
      match (x ?= 0)%Q with
      | Eq => NaN
      | Gt => other
      | Lt => neg other
      end
  | PosInf, PosInf | NegInf, NegInf => PosInf
  | _, _ => NegInf
  end.

(** [a / b]; a divisor [0] is the positive zero. *)
Definition div (a b : number) : number :=
  match a, b with
  | NaN, _ | _, NaN => NaN
  | Fin x, Fin y =>
      if Qeq_bool y 0 then
        match (x ?= 0)%Q with
        | Eq => NaN
        | Gt => PosInf
        | Lt => NegInf
        end
      else round64 (x / y)
  | Fin _, _ => Fin 0
  | other, Fin y => if Qle_bool 0 y then other else neg other
  | _, _ => NaN
  end.

(** The nearest integer, halves towards [+Infinity]. *)
Definition roundHalfUp (x : Q) : Z := Qfloor (x + (1 # 2))%Q.

(** [Math.round]: no rounding error, the nearest integer of a binary64
    value is a binary64 value. *)
Definition Math_round (x : number) : number :=
  match x with
  | Fin q => Fin (inject_Z (roundHalfUp q))
  | other => other
  end.

(** [Math.round(x * 10) / 10]. *)
Definition round1 (x : number) : number :=
  div (Math_round (mul x (Fin 10))) (Fin 10).

(** [Math.min(...xs)] and [Math.max(...xs)]: [NaN] as soon as an argument
    is [NaN]; of no argument they are [Infinity] and [-Infinity]. *)
Definition min2 (a b : number) : number :=
  match a, b with
  | NaN, _ | _, NaN => NaN
  | _, _ => if leb a b then a else b
  end.

Definition max2 (a b : number) : number :=
  match a, b with
  | NaN, _ | _, NaN => NaN
  | _, _ => if leb a b then b else a
  end.

Definition Math_min (xs : list number) : number := fold_left min2 xs PosInf.

Definition Math_max (xs : list number) : number := fold_left max2 xs NegInf.

(** The integer part of a rational. *)
Definition truncate (q : Q) : Z := if Qle_bool 0 q then Qfloor q else Qceiling q.

(** [a % b]: the remainder has the sign of the dividend, and is exact. *)
Definition rem (a b : number) : number :=
  match a, b with
  | Fin x, Fin y =>
      if Qeq_bool y 0 then NaN
      else Fin (x - y * inject_Z (truncate (x / y)))
  | Fin x, (PosInf | NegInf) => Fin x
  | _, _ => NaN
  end.

(** [arr[i]]: [undefined] ([None]) unless [i] is an integer that is an
    index of the array; so at a negative [i], at [NaN], at an infinity. *)
Definition index {A} (arr : list A) (i : number) : option A :=
  match i with
  | Fin q =>
      if Qeq_bool q (inject_Z (Qfloor q)) && (0 <=? Qfloor q)
      then nth_error arr (Z.to_nat (Qfloor q))
      else None
  | _ => None
  end.

End Js.

(** *** Texts: the pattern of a stored point and [parseFloat] *)

Module Text.
Import Js.

Definition isDigit (c : ascii) : bool :=
  let n := nat_of_ascii c in ((48 <=? n) && (n <=? 57))%nat.

(** The class [[0-9.-]]. *)
Definition isCoordChar (c : ascii) : bool :=
  isDigit c || Ascii.eqb c "." || Ascii.eqb c "-".

Definition bytes (l : list nat) : string :=
  string_of_list_ascii (map ascii_of_nat l).

(** The characters of the class [\s] (white space and line terminators of
    ECMAScript), each as the bytes of its UTF-8 encoding: U+0009 to U+000D,
    U+0020, U+00A0, U+1680, U+2000 to U+200A, U+2028, U+2029, U+202F,
    U+205F, U+3000 and U+FEFF. *)
Definition spaceChars : list string :=
  map bytes
    [ [9]; [10]; [11]; [12]; [13]; [32]; [194; 160]; [225; 154; 128];
      [226; 128; 128]; [226; 128; 129]; [226; 128; 130]; [226; 128; 131];
      [226; 128; 132]; [226; 128; 133]; [226; 128; 134]; [226; 128; 135];
      [226; 128; 136]; [226; 128; 137]; [226; 128; 138];
      [226; 128; 168]; [226; 128; 169]; [226; 128; 175]; [226; 129; 159];
      [227; 128; 128]; [239; 187; 191] ]%nat.

(** [s] without its prefix [p], when it starts with [p]. *)
Fixpoint stripPrefix (p s : string) : option string :=
  match p, s with
  | EmptyString, _ => Some s
  | String a p', String b s' => if Ascii.eqb a b then stripPrefix p' s' else None
  | String _ _, EmptyString => None
  end.

Definition startsWith (p s : string) : bool :=
  match stripPrefix p s with Some _ => true | None => false end.

(** Number of bytes of the [\s] character at the head of [s]; [0] when [s]
    does not start with one. *)
Definition spaceLen (s : string) : nat :=
  match find (fun sp => startsWith sp s) spaceChars with
  | Some sp => String.length sp
  | None => 0%nat
  end.

(** The longest prefix of [s] made of characters of the class [p], and what
    follows it: a greedy [[...]*]. *)
Fixpoint span (p : ascii -> bool) (s : string) : string * string :=
  match s with
  | EmptyString => (EmptyString, EmptyString)
  | String c r =>
      if p c then let (run, rest) := span p r in (String c run, rest)
      else (EmptyString, s)
  end.

(** What a text starts with once a run has been taken from it. *)
Definition stopsAt (p : ascii -> bool) (rest : string) : Prop :=
  match rest with
  | EmptyString => True
  | String c _ => p c = false
  end.

(** What follows the longest run of [\s] characters at the head of [s]: a
    greedy [\s*].  [pending] counts the bytes left of a character whose
    first byte has been passed. *)
Fixpoint skipSpaces (s : string) (pending : nat) : string :=
  match s with
  | EmptyString => EmptyString
  | String _ r =>
      match pending with
      | S k => skipSpaces r k
      | O => match spaceLen s with
             | O => s
             | S k => skipSpaces r k
             end
      end
  end.

(** A match of [/POINT\(([0-9.-]+)\s+([0-9.-]+)\)/] that starts at the head
    of [s], as its two groups.  The three classes and the closing bracket
    are pairwise disjoint, so that the greedy run is the only way for each
    [+] to be followed by what the pattern asks next. *)
Definition matchAt (s : string) : option (string * string) :=
  match stripPrefix "POINT(" s with
  | None => None
  | Some r0 =>
      let (g1, r1) := span isCoordChar r0 in
      match g1, spaceLen r1 with
      | EmptyString, _ | _, O => None
      | _, _ =>
          let (g2, r3) := span isCoordChar (skipSpaces r1 0) in
          match g2, r3 with
          | String _ _, String ")" _ => Some (g1, g2)
          | _, _ => None
          end
      end
  end.

(** [locationStr.match(/POINT\(([0-9.-]+)\s+([0-9.-]+)\)/)]: the leftmost
    match, [None] for [null]. *)
Fixpoint matchPoint (locationStr : string) : option (string * string) :=
  match matchAt locationStr with
  | Some groups => Some groups
  | None =>
      match locationStr with
      | EmptyString => None
      | String _ rest => matchPoint rest
      end
  end.

(** The number written by a run of decimal digits, most significant first. *)
Fixpoint digitsValue (acc : Z) (s : string) : Z :=
  match s with
  | EmptyString => acc
  | String c r => digitsValue (10 * acc + (Z.of_nat (nat_of_ascii c) - 48)) r
  end.

(** The sign of a literal and what follows it. *)
Definition stripMinus (s : string) : bool * string :=
  match s with
  | String "-" r => (true, r)
  | _ => (false, s)
  end.

(** [parseFloat] on a text over [[0-9.-]] (a group of the pattern): the
    longest prefix that is a decimal literal, which is an optional [-],
    digits, and a [.] with digits, with at least one digit in all; [NaN]
    when there is no such prefix.  White space, [+], exponents and
    [Infinity] cannot occur in such a text. *)
Definition parseFloat (s : string) : number :=
  let (negative, body) := stripMinus s in
  let (ip, r1) := span isDigit body in
  let fp := match r1 with
            | String "." r2 => fst (span isDigit r2)
            | _ => EmptyString
            end in
  if (String.length ip + String.length fp =? 0)%nat then NaN
  else
    let v := (inject_Z (digitsValue 0 ip)
              + (digitsValue 0 fp # Z.to_pos (10 ^ Z.of_nat (String.length fp))))%Q in
    Fin (if negative then (- v)%Q else v).

(** [if (x)] on a nullable string: [null] and the empty string are falsy. *)
Definition truthy (x : option string) : bool :=
  match x with
  | Some (String _ _) => true
  | _ => false
  end.

(** [s.split(sep)[0]]: the text before the first [sep]. *)
Fixpoint beforeFirst (sep : ascii) (s : string) : string :=
  match s with
  | EmptyString => EmptyString
  | String c r => if Ascii.eqb c sep then EmptyString else String c (beforeFirst sep r)
  end.

End Text.

(** *** WeatherService *)

Module WeatherService.
Import Js Text.

Record Temperature := { avg : number; min : number; max : number }.

Record Wind := { speed : number; direction : number; directionText : option string }.

Record EditionWeather := {
  date : string;
  temperature : Temperature;
  condition : string;
  conditionText : string;
  precipitation : number;
  wind : Wind;
  humidity : number;
  pressure : number;
  cloudCover : number;
  fetchedAt : string
}.

(** The [hourly] object of the archive's answer: one series per metric,
    entries are numbers or [null].  [hourly_precipitation] is its member
    [precipitation]. *)
Record Hourly := {
  time : list string;
  temperature_2m : list (option number);
  relative_humidity_2m : list (option number);
  hourly_precipitation : list (option number);
  surface_pressure : list (option number);
  cloud_cover : list (option number);
  wind_speed_10m : list (option number);
  wind_direction_10m : list (option number)
}.

(** [values.filter(v => v !== null) as number[]] *)
Definition notNull (v : option number) : bool :=
  match v with Some _ => true | None => false end.

Definition asNumbers (vs : list (option number)) : list number :=
  map (fun v => match v with Some x => x | None => Fin 0 end) vs.

Definition validValues (values : list (option number)) : list number :=
  asNumbers (filter notNull values).

(** The length of an array is below [2 ^ 32], and so is a number as it
    stands. *)
Definition calculateAverage (values : list (option number)) : number :=
  let validValues := validValues values in
  if (length validValues =? 0)%nat then Fin 0
  else div (fold_left (fun sum val => add sum val) validValues (Fin 0))
           (Fin (inject_Z (Z.of_nat (length validValues)))).

Record Condition := { code : string; text : string }.

Definition determineCondition (precipitation cloudCover : number) : Condition :=
  if gt precipitation (Fin 10) then {| code := "rainy"; text := "Lluvioso" |}
  else if gt precipitation (Fin 0) then {| code := "light_rain"; text := "Lluvia ligera" |}
  else if gt cloudCover (Fin 75) then {| code := "cloudy"; text := "Nublado" |}
  else if gt cloudCover (Fin 30) then
    {| code := "partly_cloudy"; text := "Parcialmente nublado" |}
  else {| code := "sunny"; text := "Soleado" |}.

Definition directions : list string :=
  ["N"; "NE"; "E"; "SE"; "S"; "SW"; "W"; "NW"]%string.

Definition getWindDirection (degrees : number) : option string :=
  let index := rem (Math_round (div degrees (Fin 45))) (Fin 8) in
  Js.index directions index.

(** [val || 0] inside [reduce]: [null], [0] and [NaN] all count for [0]. *)
Definition orZero (val : option number) : number :=
  match val with
  | None | Some NaN => Fin 0
  | Some x => x
  end.

(** The part of [getHistoricalWeather] after the answer of the archive has
    been received and found to carry [hourly] data. *)
Definition summarize (date now : string) (hourly : Hourly) : EditionWeather :=
  let avgTemp := calculateAverage (temperature_2m hourly) in
  let minTemp := Math_min (validValues (temperature_2m hourly)) in
  let maxTemp := Math_max (validValues (temperature_2m hourly)) in
  let avgHumidity := calculateAverage (relative_humidity_2m hourly) in
  let totalPrecip :=
    fold_left (fun sum val => add sum (orZero val)) (hourly_precipitation hourly) (Fin 0) in
  let avgPressure := calculateAverage (surface_pressure hourly) in
  let avgCloudCover := calculateAverage (cloud_cover hourly) in
  let avgWindSpeed := calculateAverage (wind_speed_10m hourly) in
  let avgWindDirection := calculateAverage (wind_direction_10m hourly) in
  let condition := determineCondition totalPrecip avgCloudCover in
  {| date := date;
     temperature := {| avg := round1 avgTemp;
                       min := round1 minTemp;
                       max := round1 maxTemp |};
     condition := code condition;
     conditionText := text condition;
     precipitation := round1 totalPrecip;
     wind := {| speed := round1 avgWindSpeed;
                direction := Math_round avgWindDirection;
                directionText := getWindDirection avgWindDirection |};
     humidity := Math_round avgHumidity;
     pressure := Math_round avgPressure;
     cloudCover := Math_round avgCloudCover;
     fetchedAt := now |}.


(** [AppError(message, statusCode)], the only error the service throws. *)
Record AppError := { message : string; statusCode : Z }.

Inductive outcome (A : Type) : Type :=
| Return (a : A)
| Throw (e : AppError).
Arguments Return {A} a.
Arguments Throw {A} e.

(** The failures of the pipeline, under the names the specification gives
    them. *)
Definition NotFoundError : AppError :=
  {| message := "Edition not found"; statusCode := 404 |}.
Definition AlreadyFetchedError : AppError :=
  {| message := "Weather data already fetched. Use force=true to refetch.";
     statusCode := 400 |}.
Definition FutureDateError : AppError :=
  {| message := "Cannot fetch weather for future editions"; statusCode := 400 |}.
Definition NoLocationError : AppError :=
  {| message := "No location data available for this edition"; statusCode := 400 |}.
Definition LocationFormatError (owner : string) : AppError :=
  {| message := "Invalid " +:+ owner +:+ " location format"; statusCode := 500 |}.
Definition WeatherUnavailableError (msg : string) : AppError :=
  {| message := msg; statusCode := 404 |}.
Definition WeatherFetchError (cause : string) : AppError :=
  {| message := "Error fetching weather data: " +:+ cause; statusCode := 500 |}.

(** The rows the pipeline reads, with the relations that
    [include: { competition: { include: { event: true } } }] joins. *)
Record Event := {
  event_id : string;
  event_name : string;
  event_slug : string;
  event_location : option string
}.

Record Competition := {
  competition_id : string;
  competition_name : string;
  competition_slug : string;
  event : Event
}.

Record Edition := {
  id : string;
  year : Z;
  slug : string;
  startDate : Z;                      (* a [Date], in milliseconds *)
  location : option string;
  weather : option EditionWeather;
  weatherFetched : bool;
  competition : Competition
}.

(** The query of one [axios.get] on the archive. *)
Record ArchiveParams := {
  latitude : number;
  longitude : number;
  start_date : string;
  end_date : string;
  hourly : string;
  timezone : string
}.

(** What the [await] of that request gives: [response.data], with or
    without its [hourly] member, or a rejection with [error.response?.status]
    and [error.message]. *)
Inductive ArchiveAnswer : Type :=
| Data (hourly : option Hourly)
| Rejected (status : option Z) (message : string).

(** The world of one call: the table of editions, the clock, and the
    requests sent to the archive so far (latest last). *)
Record World := {
  editions : gmap string Edition;
  now : Z;
  requests : list ArchiveParams
}.

Definition Coordinates : Type := number * number.   (* longitude, latitude *)

(** The body of both branches of the coordinate resolution:
    [match] the text of the location, [parseFloat] the two groups, or throw
    for [owner] ("edition" or "event"). *)
Definition parseLocation (owner locationStr : string) : outcome Coordinates :=
  match matchPoint locationStr with
  | Some (g1, g2) => Return (parseFloat g1, parseFloat g2)
  | None => Throw (LocationFormatError owner)
  end.

(** Lines 503 to 530 of the service: the coordinates of an edition. *)
Definition resolveCoordinates (edition : Edition) : outcome Coordinates :=
  if truthy (location edition) then
    parseLocation "edition" (default EmptyString (location edition))
  else if truthy (event_location (event (competition edition))) then
    parseLocation "event"
      (default EmptyString (event_location (event (competition edition))))
  else Throw NoLocationError.

(** The query for one day at one place. *)
Definition paramsOf (lat lon : number) (date : string) : ArchiveParams :=
  {| latitude := lat; longitude := lon; start_date := date; end_date := date;
     hourly :=
       "temperature_2m,relative_humidity_2m,precipitation,surface_pressure,cloud_cover,wind_speed_10m,wind_direction_10m";
     timezone := "auto" |}.

(** An edition with a summary written to it and its flag set. *)
Definition stored (edition : Edition) (summary : EditionWeather) : Edition :=
  {| id := id edition; year := year edition; slug := slug edition;
     startDate := startDate edition; location := location edition;
     weather := Some summary; weatherFetched := true;
     competition := competition edition |}.

Section Service.

(** The archive at [archive-api.open-meteo.com] and [Date.prototype.toISOString]
    are outside the repository. *)
Variable archive : ArchiveParams -> ArchiveAnswer.
Variable toISOString : Z -> string.

Definition hourlyMetrics : string :=
  "temperature_2m,relative_humidity_2m,precipitation,surface_pressure,cloud_cover,wind_speed_10m,wind_direction_10m".

Definition getHistoricalWeather (w : World) (lat lon : number) (date : string)
  : outcome EditionWeather * World :=
  let params := {| latitude := lat; longitude := lon;
                   start_date := date; end_date := date;
                   hourly := hourlyMetrics; timezone := "auto" |} in
  let w' := {| editions := editions w; now := now w;
               requests := requests w ++ [params] |} in
  match archive params with
  | Data None =>
      (Throw (WeatherUnavailableError "No weather data available for this date"), w')
  | Data (Some hourly) =>
      (Return (summarize date (toISOString (now w)) hourly), w')
  | Rejected status msg =>
      if bool_decide (status = Some 404) then
        (Throw (WeatherUnavailableError
                  "Weather data not available for this location/date"), w')
      else (Throw (WeatherFetchError msg), w')
  end.

(** Lines 532 to 576 of the service: ask the archive for the day of the
    edition at the resolved coordinates, store the summary, return it. *)
Definition fetchAndStore (w : World) (editionId : string) (edition : Edition)
    (lat lon : number) : outcome (Edition * EditionWeather) * World :=
  let dateStr := beforeFirst "T" (toISOString (startDate edition)) in
  match getHistoricalWeather w lat lon dateStr with
  | (Throw e, w') => (Throw e, w')
  | (Return weather, w') =>
      let updatedEdition :=
        {| id := id edition; year := year edition; slug := slug edition;
           startDate := startDate edition; location := location edition;
           weather := Some weather; weatherFetched := true;
           competition := competition edition |} in
      (Return (updatedEdition, weather),
       {| editions := <[editionId := updatedEdition]> (editions w');
          now := now w'; requests := requests w' |})
  end.

Definition fetchWeatherForEdition (w : World) (editionId : string) (force : bool)
  : outcome (Edition * EditionWeather) * World :=
  match editions w !! editionId with
  | None => (Throw NotFoundError, w)
  | Some edition =>
      if weatherFetched edition && negb force then (Throw AlreadyFetchedError, w)
      else if now w <? startDate edition then (Throw FutureDateError, w)
      else
        match resolveCoordinates edition with
        | Throw e => (Throw e, w)
        | Return (lon, lat) => fetchAndStore w editionId edition lat lon
        end
  end.

(** [editionDate.toISOString().split('T')[0]] *)
Definition dayOf (edition : Edition) : string :=
  beforeFirst "T" (toISOString (startDate edition)).

End Service.

(** What [getEditionWeather] answers: the selected columns of the edition
    with its competition, the stored weather and the flag. *)
Record EditionSummary := {
  summary_id : string;
  summary_year : Z;
  summary_slug : string;
  summary_startDate : Z;
  summary_competition : Competition
}.

Record EditionWeatherView := {
  view_edition : EditionSummary;
  view_weather : option EditionWeather;
  view_weatherFetched : bool
}.

Definition getEditionWeather (w : World) (editionId : string)
  : outcome EditionWeatherView :=
  match editions w !! editionId with
  | None => Throw NotFoundError
  | Some edition =>
      Return {| view_edition :=
                  {| summary_id := id edition; summary_year := year edition;
                     summary_slug := slug edition;
                     summary_startDate := startDate edition;
                     summary_competition := competition edition |};
                view_weather := weather edition;
                view_weatherFetched := weatherFetched edition |}
  end.

End WeatherService.

(** *** CompetitionAdminService *)

Module CompetitionAdminService.
Import Text.

(** [CompetitionStatus] is declared in the Prisma schema, which is not part
    of these sources.  The service names three of its members; any other
    member is kept by its name. *)
Inductive CompetitionStatus : Type :=
| DRAFT
| PUBLISHED
| CANCELLED
| OtherStatus (name : string).

#[export] Instance CompetitionStatus_eq_dec : EqDecision CompetitionStatus.
Proof. solve_decision. Defined.

Definition statusName (s : CompetitionStatus) : string :=
  match s with
  | DRAFT => "DRAFT"
  | PUBLISHED => "PUBLISHED"
  | CANCELLED => "CANCELLED"
  | OtherStatus name => name
  end.

Record Organizer := {
  organizer_id : string;
  username : string;
  email : string
}.

(** A row of the table of competitions: the columns the service reads or
    writes, the joined organizer, and the remaining columns by name. *)
Record Competition := {
  id : string;
  status : CompetitionStatus;
  description : string;
  organizer : Organizer;
  columns : gmap string string
}.

Record ApproveCompetitionData := { adminNotes : option string }.
Record RejectCompetitionData := { rejectionReason : string }.

Inductive outcome (A : Type) : Type :=
| Return (a : A)
| Throw (message : string).          (* [throw new Error(message)] *)
Arguments Return {A} a.
Arguments Throw {A} message.

Inductive LogLevel := info | warn.

(** The world of one call: the table, the keys handed to [invalidateCache]
    and the lines given to the logger (latest last). *)
Record World := {
  competitions : gmap string Competition;
  invalidated : list string;
  logged : list (LogLevel * string)
}.

Definition LF : string := bytes [10%nat].

Definition adminNotesMark : string := LF +:+ LF +:+ "---" +:+ LF +:+ "Notas admin: ".
Definition rejectedMark : string := LF +:+ LF +:+ "---" +:+ LF +:+ "⚠️ RECHAZADA: ".

(** [prisma.competition.update({ where: { id }, data })] for the two
    columns the service writes: a column absent from [data] keeps its
    value. *)
Definition update (c : Competition)
    (newStatus : option CompetitionStatus) (newDescription : option string)
  : Competition :=
  {| id := id c;
     status := default (status c) newStatus;
     description := default (description c) newDescription;
     organizer := organizer c;
     columns := columns c |}.

Definition approveCompetition (w : World) (competitionId adminId : string)
    (data : option ApproveCompetitionData) : outcome Competition * World :=
  match competitions w !! competitionId with
  | None => (Throw "Competition not found", w)
  | Some competition =>
      if bool_decide (status competition ≠ DRAFT) then
        (Throw "Only DRAFT competitions can be approved", w)
      else
        let notes := data ≫= adminNotes in
        let updated :=
          update competition (Some PUBLISHED)
            (if truthy notes
             then Some (description competition +:+ adminNotesMark
                        +:+ default EmptyString notes)
             else None) in
        (Return updated,
         {| competitions := <[competitionId := updated]> (competitions w);
            invalidated := invalidated w
                           ++ ["competition:" +:+ competitionId; "competitions:list"];
            logged := logged w
                      ++ [(info, "Competition " +:+ competitionId
                                 +:+ " approved by admin " +:+ adminId
                                 +:+ ". Organizer: "
                                 +:+ email (organizer competition))] |})
  end.

Definition rejectCompetition (w : World) (competitionId adminId : string)
    (data : RejectCompetitionData) : outcome Competition * World :=
  match competitions w !! competitionId with
  | None => (Throw "Competition not found", w)
  | Some competition =>
      if bool_decide (status competition ≠ DRAFT) then
        (Throw "Only DRAFT competitions can be rejected", w)
      else
        let updated :=
          update competition None
            (Some (description competition +:+ rejectedMark
                   +:+ rejectionReason data)) in
        (Return updated,
         {| competitions := <[competitionId := updated]> (competitions w);
            invalidated := invalidated w;
            logged := logged w
                      ++ [(warn, "Competition " +:+ competitionId
                                 +:+ " rejected by admin " +:+ adminId
                                 +:+ ". Reason: " +:+ rejectionReason data
                                 +:+ ". Organizer: "
                                 +:+ email (organizer competition))] |})
  end.

Definition updateCompetitionStatus (w : World) (competitionId : string)
    (newStatus : CompetitionStatus) (adminId : string)
  : outcome Competition * World :=
  match competitions w !! competitionId with
  | None => (Throw "Competition not found", w)
  | Some competition =>
      let updated := update competition (Some newStatus) None in
      (Return updated,
       {| competitions := <[competitionId := updated]> (competitions w);
          invalidated := invalidated w
                         ++ ["competition:" +:+ competitionId; "competitions:list"];
          logged := logged w
                    ++ [(info, "Competition " +:+ competitionId
                               +:+ " status changed from "
                               +:+ statusName (status competition)
                               +:+ " to " +:+ statusName newStatus
                               +:+ " by admin " +:+ adminId)] |})
  end.

(** The rows of the table, in no particular order. *)
Definition rows (w : World) : list Competition := (map_to_list (competitions w)).*2.

(** [prisma.competition.count({ where })]. *)
Definition count (w : World) (P : Competition -> Prop) `{!forall c, Decision (P c)}
  : nat :=
  length (filter P (rows w)).

Section Listing.

(** [orderBy: { createdAt: 'desc' }] is the work of the database: latest
    first, rows of one instant in an order of its choosing. *)
Variable byCreatedAtDesc : list Competition -> list Competition.

(** [prisma.competition.findMany({ where, orderBy, skip, take })] for a
    [skip] and a [take] that are not negative: the matching rows in order,
    without the first [skip] of them, [take] of them at most. *)
Definition findMany (w : World) (P : Competition -> Prop)
    `{!forall c, Decision (P c)} (skip take : Z) : list Competition :=
  firstn (Z.to_nat take)
    (skipn (Z.to_nat skip) (byCreatedAtDesc (filter P (rows w)))).

Record Pagination := {
  page : Z;
  limit : Z;
  total : nat;
  pages : Js.number
}.

Record Listing := { data : list Competition; pagination : Pagination }.

(** [Math.ceil(total / limit)] on a count and an integer; the quotient by
    0 is [Infinity], or [NaN] when the count is 0 too. *)
Definition pageCount (total : nat) (limit : Z) : Js.number :=
  if limit =? 0 then (if (total =? 0)%nat then Js.NaN else Js.PosInf)
  else Js.Fin (inject_Z (Qceiling (inject_Z (Z.of_nat total) / inject_Z limit))).

Definition paginate (page limit : Z) (total : nat) : Pagination :=
  {| page := page; limit := limit; total := total;
     pages := pageCount total limit |}.

(** The rows come as the table has them; the [_count] of their relations,
    which [include] adds to each, is not part of the model. *)
Definition getPendingCompetitions (w : World) (page limit : Z) : Listing :=
  let skip := (page - 1) * limit in
  {| data := findMany w (fun c => status c = DRAFT) skip limit;
     pagination := paginate page limit (count w (fun c => status c = DRAFT)) |}.

(** The column [organizerId] of a row is the key of its joined organizer. *)
Definition getOrganizerCompetitions (w : World) (organizerId : string)
    (page limit : Z) : Listing :=
  let skip := (page - 1) * limit in
  {| data := findMany w (fun c => organizer_id (organizer c) = organizerId)
               skip limit;
     pagination :=
       paginate page limit
         (count w (fun c => organizer_id (organizer c) = organizerId)) |}.

End Listing.

(** The table of users, as far as the dashboard reads it. *)
Record User := { user_id : string; role : string }.

Record CompetitionStats := {
  stats_total : nat;
  stats_published : nat;
  stats_draft : nat;
  stats_cancelled : nat
}.

Record UserStats := { users_total : nat; users_organizers : nat }.

Record AdminStats := {
  stats_competitions : CompetitionStats;
  stats_users : UserStats
}.

Definition getAdminStats (w : World) (users : list User) : AdminStats :=
  {| stats_competitions :=
       {| stats_total := count w (fun _ => True);
          stats_published := count w (fun c => status c = PUBLISHED);
          stats_draft := count w (fun c => status c = DRAFT);
          stats_cancelled := count w (fun c => status c = CANCELLED) |};
     stats_users :=
       {| users_total := length users;
          users_organizers := length (filter (fun u => role u = "ORGANIZER") users) |} |}.

End CompetitionAdminService.

(** *** The words of the specification *)

Module Spec.
Import Js Text WeatherService.

(** The five results of the classification. *)
Definition rainy : Condition := {| code := "rainy"; text := "Lluvioso" |}.
Definition light_rain : Condition := {| code := "light_rain"; text := "Lluvia ligera" |}.
Definition cloudy : Condition := {| code := "cloudy"; text := "Nublado" |}.
Definition partly_cloudy : Condition :=
  {| code := "partly_cloudy"; text := "Parcialmente nublado" |}.
Definition sunny : Condition := {| code := "sunny"; text := "Soleado" |}.

(** [exceeds x t]: the test [x > t] of the classification holds. *)
Definition exceeds (x : number) (t : Q) : Prop := gt x (Fin t) = true.

(** The table of section 4.3, each row with the failure of the rows above
    it: first match wins. *)
Inductive Fires (precipitation cloudCover : number) : Condition -> Prop :=
| fires_rainy :
    exceeds precipitation 10 -> Fires precipitation cloudCover rainy
| fires_light_rain :
    ~ exceeds precipitation 10 -> exceeds precipitation 0 ->
    Fires precipitation cloudCover light_rain
| fires_cloudy :
    ~ exceeds precipitation 10 -> ~ exceeds precipitation 0 ->
    exceeds cloudCover 75 -> Fires precipitation cloudCover cloudy
| fires_partly_cloudy :
    ~ exceeds precipitation 10 -> ~ exceeds precipitation 0 ->
    ~ exceeds cloudCover 75 -> exceeds cloudCover 30 ->
    Fires precipitation cloudCover partly_cloudy
| fires_sunny :
    ~ exceeds precipitation 10 -> ~ exceeds precipitation 0 ->
    ~ exceeds cloudCover 75 -> ~ exceeds cloudCover 30 ->
    Fires precipitation cloudCover sunny.

(** "Drop null entries". *)
Fixpoint dropNull {A} (series : list (option A)) : list A :=
  match series with
  | [] => []
  | Some x :: rest => x :: dropNull rest
  | None :: rest => dropNull rest
  end.

Fixpoint sum (xs : list Q) : Q :=
  match xs with
  | [] => 0
  | x :: rest => x + sum rest
  end.

(** "Arithmetic mean of the remaining values". *)
Definition mean (xs : list Q) : Q := sum xs / inject_Z (Z.of_nat (length xs)).

(** The sum of a series needs no rounding: every partial sum, from the
    left, is a binary64 value. *)
Fixpoint exactSums (acc : Q) (xs : list Q) : Prop :=
  match xs with
  | [] => True
  | x :: rest => binary64 (Fin (acc + x)) /\ exactSums (acc + x) rest
  end.

(** "Divide by 45, round to nearest integer, take modulo 8, index into the
    ordered 8-point compass sequence". *)
Definition compassAt (quotient : Q) : option string :=
  nth_error directions (Z.to_nat (roundHalfUp quotient mod 8)).

Definition compass (degrees : Q) : option string := compassAt (degrees / 45).

(** A signed decimal number as section 4.1 has it for [<lon>] and [<lat>]:
    a sign for a negative number, digits, and a fraction of digits after a
    point when there is one. *)
Record Decimal := { negative : bool; whole : string; fraction : string }.

Fixpoint allIn (p : ascii -> bool) (s : string) : bool :=
  match s with
  | EmptyString => true
  | String c r => p c && allIn p r
  end.

Definition wellFormed (d : Decimal) : Prop :=
  whole d <> EmptyString
  /\ allIn isDigit (whole d) = true
  /\ allIn isDigit (fraction d) = true.

Definition decimalText (d : Decimal) : string :=
  (if negative d then "-" else "")
  +:+ whole d
  +:+ match fraction d with
      | EmptyString => ""
      | f => "." +:+ f
      end.

Definition digit (c : ascii) : Z := Z.of_nat (nat_of_ascii c) - 48.

(** Each digit at the weight of its place. *)
Fixpoint wholeValue (s : string) : Z :=
  match s with
  | EmptyString => 0
  | String c r => digit c * 10 ^ Z.of_nat (String.length r) + wholeValue r
  end.

Fixpoint fractionValue (s : string) : Q :=
  match s with
  | EmptyString => 0%Q
  | String c r => ((inject_Z (digit c) + fractionValue r) / 10)%Q
  end.

Definition decimalValue (d : Decimal) : Q :=
  let v := (inject_Z (wholeValue (whole d)) + fractionValue (fraction d))%Q in
  if negative d then (- v)%Q else v.

(** The text [POINT(<lon> <lat>)]. *)
Definition pointText (lon lat : Decimal) : string :=
  "POINT(" +:+ decimalText lon +:+ " " +:+ decimalText lat +:+ ")".

(** What follows a signed decimal number at the head of [s]. *)
Definition afterDecimal (s : string) : option string :=
  match span isDigit (snd (stripMinus s)) with
  | (EmptyString, _) => None
  | (_, String "." r) =>
      match span isDigit r with
      | (EmptyString, _) => None
      | (_, rest) => Some rest
      end
  | (_, rest) => Some rest
  end.

(** Whether [s] is, from its first to its last character, of the form
    [POINT(<lon> <lat>)] with two signed decimal numbers and one space. *)
Definition isPointText (s : string) : bool :=
  match stripPrefix "POINT(" s with
  | None => false
  | Some r =>
      match afterDecimal r with
      | Some (String " " r') =>
          match afterDecimal r' with
          | Some (String ")" EmptyString) => true
          | _ => false
          end
      | _ => false
      end
  end.

(** A text is a run of [\s] when it is made of characters of that class. *)
Inductive Spaces : string -> Prop :=
| spaces_nil : Spaces EmptyString
| spaces_cons (sp ws : string) :
    In sp spaceChars -> Spaces ws -> Spaces (sp +:+ ws).

(** What [/POINT\(([0-9.-]+)\s+([0-9.-]+)\)/] asks of a text: somewhere in
    it, [POINT(], a run of [[0-9.-]], a run of [\s], a run of [[0-9.-]]
    and [)], none of the runs empty. *)
Definition Occurs (s g1 g2 : string) : Prop :=
  exists before ws after : string,
    s = before +:+ "POINT(" +:+ g1 +:+ ws +:+ g2 +:+ ")" +:+ after
    /\ g1 <> EmptyString /\ allIn isCoordChar g1 = true
    /\ ws <> EmptyString /\ Spaces ws
    /\ g2 <> EmptyString /\ allIn isCoordChar g2 = true.

End Spec.

(** *** Sample data *)

Module Samples.
Import Js WeatherService.

Definition sampleDay : Hourly :=
  {| time := ["2024-05-01T00:00"; "2024-05-01T01:00"; "2024-05-01T02:00"];
     temperature_2m := [Some (Fin 12.5); None; Some (Fin 14.25)];
     relative_humidity_2m := [Some (Fin 60); Some (Fin 65); None];
     hourly_precipitation := [Some (Fin 7); None; Some (Fin 8)];
     surface_pressure := [Some (Fin 1013); Some (Fin 1012); Some (Fin 1011)];
     cloud_cover := [Some (Fin 50); Some (Fin 50); Some (Fin 50)];
     wind_speed_10m := [Some (Fin 10); Some (Fin 12); None];
     wind_direction_10m := [Some (Fin 80); Some (Fin 100); None] |}.

(** A day of three hours at 0.35 degrees. *)
Definition coldDay : Hourly :=
  {| time := ["2024-01-01T00:00"; "2024-01-01T01:00"; "2024-01-01T02:00"];
     temperature_2m := [Some (ofDecimal 0.35); Some (ofDecimal 0.35); Some (ofDecimal 0.35)];
     relative_humidity_2m := [];
     hourly_precipitation := [];
     surface_pressure := [];
     cloud_cover := [];
     wind_speed_10m := [];
     wind_direction_10m := [] |}.

Definition isoDay (t : Z) : string :=
  if t <? 1000 then "2024-05-01T09:00:00.000Z" else "2030-01-01T00:00:00.000Z".

Definition sampleArchive (params : ArchiveParams) : ArchiveAnswer :=
  Data (Some sampleDay).

Definition madrid : Event :=
  {| event_id := "ev1"; event_name := "Trail de Madrid"; event_slug := "trail-madrid";
     event_location := Some "POINT(-3.7038 40.4168)" |}.

Definition nowhere : Event :=
  {| event_id := "ev2"; event_name := "Trail"; event_slug := "trail";
     event_location := None |}.

Definition sampleEdition (start : Z) (loc : option string) (fetched : bool)
    (ev : Event) : Edition :=
  {| id := "ed1"; year := 2024; slug := "trail-madrid-2024";
     startDate := start; location := loc; weather := None;
     weatherFetched := fetched;
     competition := {| competition_id := "c1"; competition_name := "Trail 42k";
                       competition_slug := "trail-42k"; event := ev |} |}.

Definition sampleCompetition (st : CompetitionAdminService.CompetitionStatus)
  : CompetitionAdminService.Competition :=
  {| CompetitionAdminService.id := "c1";
     CompetitionAdminService.status := st;
     CompetitionAdminService.description := "42 km por la sierra";
     CompetitionAdminService.organizer :=
       {| CompetitionAdminService.organizer_id := "u7";
          CompetitionAdminService.username := "club";
          CompetitionAdminService.email := "club@example.org" |};
     CompetitionAdminService.columns := {[ "name" := "Trail 42k" ]} |}.

Definition sampleAdminWorld (st : CompetitionAdminService.CompetitionStatus)
  : CompetitionAdminService.World :=
  {| CompetitionAdminService.competitions := {[ "c1" := sampleCompetition st ]};
     CompetitionAdminService.invalidated := [];
     CompetitionAdminService.logged := [] |}.

(** A world whose clock reads 5000 and whose table holds one edition. *)
Definition sampleWorld (edition : Edition) : World :=
  {| editions := {[ "ed1" := edition ]}; now := 5000; requests := [] |}.

Definition lonMadrid : Spec.Decimal :=
  {| Spec.negative := true; Spec.whole := "3"; Spec.fraction := "7038" |}.

Definition latMadrid : Spec.Decimal :=
  {| Spec.negative := false; Spec.whole := "40"; Spec.fraction := "4168" |}.

(** An edition of the past, not fetched yet, with a location of its own. *)
Definition madridEdition : Edition :=
  sampleEdition 100 (Some "POINT(-3.7038 40.4168)") false nowhere.

(** An archive without data for any day. *)
Definition emptyArchive (params : ArchiveParams) : ArchiveAnswer := Data None.

End Samples.

(** ** Part II. Properties *)

Import Js Text WeatherService Samples.

(** *** Order on [Js.number] *)

Lemma gt_Fin (x y : Q) : gt (Fin x) (Fin y) = true <-> (y < x)%Q.
Proof.
  simpl. rewrite negb_true_iff, <- not_true_iff_false, Qle_bool_iff.
  split; [apply Qnot_le_lt | apply Qlt_not_le].
Qed.

Lemma gt_NaN_l (y : number) : gt NaN y = false.
Proof. reflexivity. Qed.

(** *** Classification of the day *)

(** C1. Whatever the precipitation total and the cloud-cover average, the
    classification returns the result of exactly one row of the table
    rainy / light_rain / cloudy / partly_cloudy / sunny, the first one that
    matches in that order; 15 mm of precipitation is rainy whatever the
    cloud cover, for instance at 50%. *)
Theorem determineCondition_first_match :
  forall precipitation cloudCover : number,
    Spec.Fires precipitation cloudCover (determineCondition precipitation cloudCover)
    /\ (forall r, Spec.Fires precipitation cloudCover r ->
                  r = determineCondition precipitation cloudCover)
    /\ In (determineCondition precipitation cloudCover)
          [Spec.rainy; Spec.light_rain; Spec.cloudy; Spec.partly_cloudy; Spec.sunny]
    /\ NoDup (map code [Spec.rainy; Spec.light_rain; Spec.cloudy;
                        Spec.partly_cloudy; Spec.sunny])
    /\ determineCondition (Fin 15) cloudCover = Spec.rainy
    /\ determineCondition (Fin 15) (Fin 50) = Spec.rainy.
Proof.
  intros p c.
  assert (Hfire : Spec.Fires p c (determineCondition p c)).
  { unfold determineCondition.
    destruct (gt p (Fin 10)) eqn:E10; [now constructor|].
    destruct (gt p (Fin 0)) eqn:E0; [constructor; unfold Spec.exceeds; congruence|].
    destruct (gt c (Fin 75)) eqn:E75; [constructor; unfold Spec.exceeds; congruence|].
    destruct (gt c (Fin 30)) eqn:E30; constructor; unfold Spec.exceeds; congruence. }
  split; [exact Hfire|]. split.
  - intros r Hr.
    destruct Hr; destruct Hfire; unfold Spec.exceeds in *; congruence.
  - split; [|split; [|split; reflexivity]].
    + destruct Hfire; simpl; tauto.
    + apply (bool_decide_unpack _). vm_compute. reflexivity.
Qed.

(** *** Rounding to binary64 *)

(** Powers of 2. *)
Lemma pow2_pos (e : Z) : (0 < pow2 e)%Q.
Proof. apply Qpower_0_lt. reflexivity. Qed.

Lemma pow2_plus (a b : Z) : (pow2 (a + b) == pow2 a * pow2 b)%Q.
Proof. apply Qpower_plus. discriminate. Qed.

Lemma pow2_le (a b : Z) : a <= b -> (pow2 a <= pow2 b)%Q.
Proof. intros H. apply Qpower_le_compat_l; [exact H|discriminate]. Qed.

Lemma pow2_lt_inv (a b : Z) : (pow2 a < pow2 b)%Q -> a < b.
Proof. intros H. eapply Qpower_lt_compat_l_inv; [exact H|reflexivity]. Qed.

Lemma pow2_Z (n : Z) : 0 <= n -> (pow2 n == inject_Z (2 ^ n))%Q.
Proof. intros H. symmetry. now apply Zpower_Qpower. Qed.

(** [ilog2 q] is the exponent of the binade of [q]. *)
Lemma ilog2_range (q : Q) :
  (0 < q)%Q -> (pow2 (ilog2 q) <= q /\ q < pow2 (ilog2 q + 1))%Q.
Proof.
  intros Hq. unfold ilog2.
  set (n := Qnum q). set (d := Z.pos (Qden q)).
  set (a := Z.log2 n). set (b := Z.log2 d).
  assert (Hn : 0 < n).
  { unfold Qlt in Hq. simpl in Hq. unfold n. lia. }
  assert (Hd : 0 < d) by (unfold d; lia).
  destruct (Z.log2_spec n Hn) as [Ha1 Ha2]. fold a in Ha1, Ha2.
  destruct (Z.log2_spec d Hd) as [Hb1 Hb2]. fold b in Hb1, Hb2.
  assert (Ha0 : 0 <= a) by apply Z.log2_nonneg.
  assert (Hb0 : 0 <= b) by apply Z.log2_nonneg.
  assert (Eq : (q * inject_Z d == inject_Z n)%Q).
  { unfold n, d. destruct q as [qn qd]. cbn [Qnum Qden].
    rewrite (Qmake_Qdiv qn qd). field. intros H. discriminate H. }
  assert (HD : (0 < inject_Z d)%Q)
    by (change 0%Q with (inject_Z 0); now rewrite <- Zlt_Qlt).
  assert (Hlo : (pow2 a <= inject_Z n)%Q)
    by (rewrite pow2_Z by lia; now rewrite <- Zle_Qle).
  assert (Hhi : (inject_Z n < pow2 (a + 1))%Q)
    by (rewrite pow2_Z by lia; now rewrite <- Zlt_Qlt).
  assert (Hdlo : (pow2 b <= inject_Z d)%Q)
    by (rewrite pow2_Z by lia; now rewrite <- Zle_Qle).
  assert (Hdhi : (inject_Z d < pow2 (b + 1))%Q)
    by (rewrite pow2_Z by lia; now rewrite <- Zlt_Qlt).
  pose proof (pow2_pos b) as Pb. pose proof (pow2_pos (b + 1)) as Pb1.
  assert (Hup : (q < pow2 (a - b + 1))%Q).
  { apply (Qmult_lt_r _ _ (pow2 b) Pb).
    rewrite <- pow2_plus. replace (a - b + 1 + b) with (a + 1) by lia.
    eapply Qle_lt_trans; [|exact Hhi]. rewrite <- Eq.
    apply Qmult_le_l; [exact Hq|exact Hdlo]. }
  assert (Hdown : (pow2 (a - b - 1) <= q)%Q).
  { apply (Qmult_le_r _ _ (pow2 (b + 1)) Pb1).
    rewrite <- pow2_plus. replace (a - b - 1 + (b + 1)) with a by lia.
    eapply Qle_trans; [exact Hlo|]. rewrite <- Eq.
    apply Qmult_le_l; [exact Hq|]. apply Qlt_le_weak, Hdhi. }
  destruct (Qle_bool (pow2 (a - b)) q) eqn:E.
  - apply Qle_bool_iff in E. split; assumption.
  - assert (Hlt : (q < pow2 (a - b))%Q).
    { apply Qnot_le_lt. intros H. apply Qle_bool_iff in H. congruence. }
    replace (a - b - 1 + 1) with (a - b) by lia. split; assumption.
Qed.

Lemma ilog2_unique (q : Q) (k : Z) :
  (pow2 k <= q)%Q -> (q < pow2 (k + 1))%Q -> ilog2 q = k.
Proof.
  intros Hlo Hhi.
  assert (Hq : (0 < q)%Q) by (eapply Qlt_le_trans; [apply pow2_pos|exact Hlo]).
  destruct (ilog2_range q Hq) as [Hlo' Hhi'].
  assert (ilog2 q < k + 1) by (apply pow2_lt_inv; eapply Qle_lt_trans; eassumption).
  assert (k < ilog2 q + 1) by (apply pow2_lt_inv; eapply Qle_lt_trans; eassumption).
  lia.
Qed.

Lemma ilog2_mono (x y : Q) : (0 < x)%Q -> (x <= y)%Q -> ilog2 x <= ilog2 y.
Proof.
  intros Hx Hxy.
  assert (Hy : (0 < y)%Q) by (eapply Qlt_le_trans; eassumption).
  destruct (ilog2_range x Hx) as [Hlo _]. destruct (ilog2_range y Hy) as [_ Hhi].
  assert (ilog2 x < ilog2 y + 1); [|lia].
  apply pow2_lt_inv. eapply Qle_lt_trans; [exact Hlo|].
  eapply Qle_lt_trans; eassumption.
Qed.

(** The nearest integer lies between the floor and its successor; [rne]
    leaves the integers, is monotone, and moves a number by a half at
    most. *)
Lemma rne_floor (x : Q) : Qfloor x <= rne x <= Qfloor x + 1.
Proof.
  unfold rne.
  destruct (x - inject_Z (Qfloor x) ?= 1 # 2)%Q; [destruct (Z.even _)| |]; lia.
Qed.

Lemma rne_Z (n : Z) : rne (inject_Z n) = n.
Proof.
  unfold rne. rewrite Qfloor_Z.
  assert (E : (inject_Z n - inject_Z n ?= 1 # 2)%Q = Lt).
  { rewrite <- Qlt_alt. lra. }
  now rewrite E.
Qed.

Lemma rne_mono (x y : Q) : (x <= y)%Q -> rne x <= rne y.
Proof.
  intros H.
  pose proof (Qfloor_resp_le _ _ H) as Hf.
  destruct (Z.eq_dec (Qfloor x) (Qfloor y)) as [E|NE].
  - unfold rne. rewrite E.
    destruct (x - inject_Z (Qfloor y) ?= 1 # 2)%Q eqn:Cx;
      destruct (y - inject_Z (Qfloor y) ?= 1 # 2)%Q eqn:Cy;
      try (destruct (Z.even (Qfloor y))); try lia;
      try (rewrite <- Qeq_alt in Cx); try (rewrite <- Qlt_alt in Cx);
      try (rewrite <- Qgt_alt in Cx);
      try (rewrite <- Qeq_alt in Cy); try (rewrite <- Qlt_alt in Cy);
      try (rewrite <- Qgt_alt in Cy); exfalso; lra.
  - pose proof (rne_floor x). pose proof (rne_floor y). lia.
Qed.

Lemma rne_le_Z (x : Q) (n : Z) : (x <= inject_Z n)%Q -> rne x <= n.
Proof. intros H. rewrite <- (rne_Z n). now apply rne_mono. Qed.

Lemma rne_ge_Z (x : Q) (n : Z) : (inject_Z n <= x)%Q -> n <= rne x.
Proof. intros H. rewrite <- (rne_Z n). now apply rne_mono. Qed.

Lemma rne_near (y : Q) :
  (inject_Z (rne y) <= y + (1 # 2))%Q /\ (y - (1 # 2) <= inject_Z (rne y))%Q.
Proof.
  pose proof (Qfloor_le y) as Hlo. pose proof (Qlt_floor y) as Hhi.
  rewrite inject_Z_plus in Hhi. change (inject_Z 1) with 1%Q in Hhi.
  unfold rne.
  destruct (y - inject_Z (Qfloor y) ?= 1 # 2)%Q eqn:C.
  - rewrite <- Qeq_alt in C. destruct (Z.even (Qfloor y)).
    + split; lra.
    + rewrite inject_Z_plus. change (inject_Z 1) with 1%Q. split; lra.
  - rewrite <- Qlt_alt in C. split; lra.
  - rewrite <- Qgt_alt in C. rewrite inject_Z_plus. change (inject_Z 1) with 1%Q.
    split; lra.
Qed.

Lemma roundPos_eq (q : Q) :
  roundPos q
  = if Qle_bool (pow2 1024) (Qred (valPos q)) then PosInf else Fin (Qred (valPos q)).
Proof. reflexivity. Qed.

Lemma scaled_lt (x : Q) (e k : Z) :
  (x < pow2 (e + k))%Q -> (x / pow2 e < pow2 k)%Q.
Proof.
  intros H. apply Qlt_shift_div_r; [apply pow2_pos|].
  rewrite <- pow2_plus. now replace (k + e) with (e + k) by lia.
Qed.

Lemma scaled_ge (x : Q) (e k : Z) :
  (pow2 (e + k) <= x)%Q -> (pow2 k <= x / pow2 e)%Q.
Proof.
  intros H. apply Qle_shift_div_l; [apply pow2_pos|].
  rewrite <- pow2_plus. now replace (k + e) with (e + k) by lia.
Qed.

Lemma valPos_upper (x : Q) : (0 < x)%Q -> (valPos x <= pow2 (expPos x + 53))%Q.
Proof.
  intros Hx. unfold valPos. set (e := expPos x).
  destruct (ilog2_range x Hx) as [_ Hhi].
  assert (Hm : rne (x / pow2 e) <= 2 ^ 53).
  { apply rne_le_Z. rewrite <- pow2_Z by lia. apply Qlt_le_weak, scaled_lt.
    eapply Qlt_le_trans; [exact Hhi|]. apply pow2_le. unfold e, expPos. lia. }
  rewrite Zle_Qle, <- pow2_Z in Hm by lia.
  rewrite (Z.add_comm e 53), pow2_plus.
  apply Qmult_le_compat_r; [exact Hm|]. apply Qlt_le_weak, pow2_pos.
Qed.

Lemma valPos_lower (x : Q) :
  (0 < x)%Q -> -1074 < expPos x -> (pow2 (expPos x + 52) <= valPos x)%Q.
Proof.
  intros Hx He. unfold valPos. set (e := expPos x) in *.
  destruct (ilog2_range x Hx) as [Hlo _].
  assert (Hm : 2 ^ 52 <= rne (x / pow2 e)).
  { apply rne_ge_Z. rewrite <- pow2_Z by lia. apply scaled_ge.
    eapply Qle_trans; [|exact Hlo]. apply pow2_le. unfold e, expPos in *. lia. }
  rewrite Zle_Qle, <- pow2_Z in Hm by lia.
  rewrite (Z.add_comm e 52), pow2_plus.
  apply Qmult_le_compat_r; [exact Hm|]. apply Qlt_le_weak, pow2_pos.
Qed.

Lemma valPos_nonneg (x : Q) : (0 < x)%Q -> (0 <= valPos x)%Q.
Proof.
  intros Hx. unfold valPos. apply Qmult_le_0_compat.
  - change 0%Q with (inject_Z 0). rewrite <- Zle_Qle. apply rne_ge_Z.
    change (inject_Z 0) with 0%Q.
    apply Qlt_le_weak, Qlt_shift_div_l; [apply pow2_pos|lra].
  - apply Qlt_le_weak, pow2_pos.
Qed.

(** The rounded value is monotone: within a binade as [rne] is, across
    binades because the values of the lower one stop at the power of 2
    where the values of the upper one start. *)
Lemma valPos_mono (x y : Q) :
  (0 < x)%Q -> (x <= y)%Q -> (valPos x <= valPos y)%Q.
Proof.
  intros Hx Hxy.
  assert (Hy : (0 < y)%Q) by (eapply Qlt_le_trans; eassumption).
  assert (He : expPos x <= expPos y).
  { unfold expPos. pose proof (ilog2_mono x y Hx Hxy). lia. }
  destruct (Z.eq_dec (expPos x) (expPos y)) as [E|NE].
  - unfold valPos. rewrite E.
    apply Qmult_le_compat_r; [|apply Qlt_le_weak, pow2_pos].
    rewrite <- Zle_Qle. apply rne_mono.
    apply Qmult_le_compat_r; [exact Hxy|].
    apply Qlt_le_weak, Qinv_lt_0_compat, pow2_pos.
  - eapply Qle_trans; [apply (valPos_upper x Hx)|].
    eapply Qle_trans; [|apply (valPos_lower y Hy)].
    + apply pow2_le. lia.
    + unfold expPos in *. lia.
Qed.

(** The unit in the last place of [q] is at most [q * 2 ^ -52], or the
    least one. *)
Lemma expPos_bound (q : Q) :
  (0 < q)%Q -> (pow2 (expPos q) <= q * pow2 (-52) + pow2 (-1074))%Q.
Proof.
  intros Hq. destruct (ilog2_range q Hq) as [Hlo _].
  pose proof (pow2_pos (-52)) as P52. pose proof (pow2_pos (-1074)) as Pmin.
  unfold expPos. destruct (Z.max_spec (ilog2 q - 52) (-1074)) as [[_ ->]|[_ ->]].
  - assert (0 <= q * pow2 (-52))%Q by (apply Qmult_le_0_compat; lra). lra.
  - replace (ilog2 q - 52) with (ilog2 q + -52) by lia. rewrite pow2_plus.
    assert (pow2 (ilog2 q) * pow2 (-52) <= q * pow2 (-52))%Q
      by (apply Qmult_le_compat_r; lra).
    lra.
Qed.

Lemma valPos_near (q : Q) :
  (0 < q)%Q ->
  (valPos q - q <= q * pow2 (-53) + pow2 (-1075))%Q
  /\ (q - valPos q <= q * pow2 (-53) + pow2 (-1075))%Q.
Proof.
  intros Hq. pose proof (expPos_bound q Hq) as Hb.
  unfold valPos. set (e := expPos q) in *.
  pose proof (pow2_pos e) as Pe.
  destruct (rne_near (q / pow2 e)) as [Hup Hdown].
  assert (Eq : (q / pow2 e * pow2 e == q)%Q) by (field; lra).
  assert (U : (inject_Z (rne (q / pow2 e)) * pow2 e
               <= (q / pow2 e + (1 # 2)) * pow2 e)%Q)
    by (apply Qmult_le_compat_r; lra).
  assert (D : ((q / pow2 e - (1 # 2)) * pow2 e
               <= inject_Z (rne (q / pow2 e)) * pow2 e)%Q)
    by (apply Qmult_le_compat_r; lra).
  assert (E53 : (pow2 (-53) == pow2 (-52) * (1 # 2))%Q) by reflexivity.
  assert (E1075 : (pow2 (-1075) == pow2 (-1074) * (1 # 2))%Q) by reflexivity.
  assert (Hh : (pow2 e * (1 # 2) <= q * pow2 (-53) + pow2 (-1075))%Q).
  { rewrite E53, E1075. lra. }
  split.
  - assert ((q / pow2 e + (1 # 2)) * pow2 e == q + pow2 e * (1 # 2))%Q
      by (rewrite <- Eq at 2; ring).
    lra.
  - assert ((q / pow2 e - (1 # 2)) * pow2 e == q - pow2 e * (1 # 2))%Q
      by (rewrite <- Eq at 2; ring).
    lra.
Qed.

Lemma le_trans (a b c : number) : le a b -> le b c -> le a c.
Proof.
  destruct a, b, c; simpl; try tauto. apply Qle_trans.
Qed.

Lemma roundPos_mono (x y : Q) :
  (0 < x)%Q -> (x <= y)%Q -> le (roundPos x) (roundPos y).
Proof.
  intros Hx Hxy. rewrite !roundPos_eq.
  pose proof (valPos_mono x y Hx Hxy) as Hv.
  rewrite <- (Qred_correct (valPos x)), <- (Qred_correct (valPos y)) in Hv.
  destruct (Qle_bool (pow2 1024) (Qred (valPos x))) eqn:Ex;
    destruct (Qle_bool (pow2 1024) (Qred (valPos y))) eqn:Ey; simpl;
    try exact I; try exact Hv.
  apply Qle_bool_iff in Ex.
  assert (H : Qle_bool (pow2 1024) (Qred (valPos y)) = true)
    by (apply Qle_bool_iff; eapply Qle_trans; eassumption).
  congruence.
Qed.

Lemma roundPos_nonneg (x : Q) : (0 < x)%Q -> le (Fin 0) (roundPos x).
Proof.
  intros Hx. rewrite roundPos_eq.
  destruct (Qle_bool _ _); simpl; [exact I|].
  rewrite Qred_correct. now apply valPos_nonneg.
Qed.

Lemma neg_le (a b : number) : le a b -> le (neg b) (neg a).
Proof.
  destruct a, b; simpl; try tauto. intros H. lra.
Qed.

Lemma round64_pos (q : Q) : (0 < q)%Q -> round64 q = roundPos (Qred q).
Proof.
  intros H. unfold round64.
  rewrite <- (Qred_correct q) in H. rewrite Qgt_alt in H. now rewrite H.
Qed.

Lemma round64_neg (q : Q) : (q < 0)%Q -> round64 q = neg (roundPos (- Qred q)).
Proof.
  intros H. unfold round64.
  rewrite <- (Qred_correct q) in H. rewrite Qlt_alt in H. now rewrite H.
Qed.

Lemma round64_zero (q : Q) : (q == 0)%Q -> round64 q = Fin 0.
Proof.
  intros H. unfold round64.
  rewrite <- (Qred_correct q) in H. rewrite Qeq_alt in H. now rewrite H.
Qed.

(** Rounding reads the value of a fraction, not its terms. *)
Lemma round64_comp (p q : Q) : (p == q)%Q -> round64 p = round64 q.
Proof. intros H. unfold round64. now rewrite (Qred_complete p q H). Qed.

Lemma round64_0 : round64 0 = Fin 0.
Proof. reflexivity. Qed.

(** Rounding is monotone. *)
Lemma round64_mono (x y : Q) : (x <= y)%Q -> le (round64 x) (round64 y).
Proof.
  intros H.
  destruct (Q_dec x 0) as [[Hx|Hx]|Hx]; destruct (Q_dec y 0) as [[Hy|Hy]|Hy];
    try (exfalso; lra).
  - rewrite (round64_neg x Hx), (round64_neg y Hy). apply neg_le.
    apply roundPos_mono; rewrite !Qred_correct; lra.
  - rewrite (round64_neg x Hx), (round64_pos y Hy).
    apply (le_trans _ (Fin 0)).
    + change (Fin 0) with (neg (Fin 0)). apply neg_le, roundPos_nonneg.
      rewrite Qred_correct. lra.
    + apply roundPos_nonneg. rewrite Qred_correct. lra.
  - rewrite (round64_neg x Hx), (round64_zero y Hy).
    change (Fin 0) with (neg (Fin 0)). apply neg_le, roundPos_nonneg.
    rewrite Qred_correct. lra.
  - rewrite (round64_pos x Hx), (round64_pos y Hy).
    apply roundPos_mono; rewrite !Qred_correct; lra.
  - rewrite (round64_zero x Hx), (round64_pos y Hy).
    apply roundPos_nonneg. rewrite Qred_correct. lra.
  - rewrite (round64_zero x Hx), (round64_zero y Hy). apply Qle_refl.
Qed.

Lemma round64_not_NaN (q : Q) : round64 q <> NaN.
Proof.
  unfold round64. destruct (Qred q ?= 0)%Q; [discriminate| |];
    rewrite roundPos_eq; destruct (Qle_bool _ _); discriminate.
Qed.

(** Rounding is odd. *)
Lemma round64_opp (q : Q) : round64 (- q) = neg (round64 q) \/ (q == 0)%Q.
Proof.
  destruct (Q_dec q 0) as [[H|H]|H]; [left|left|now right].
  - assert (H' : (0 < - q)%Q) by lra.
    rewrite (round64_pos _ H'), (round64_neg _ H), Qred_opp.
    destruct (roundPos (- Qred q)); simpl; try reflexivity.
    f_equal. destruct q0 as [n d]. unfold Qopp. cbn. now rewrite Z.opp_involutive.
  - assert (H' : (- q < 0)%Q) by lra.
    rewrite (round64_neg _ H'), (round64_pos _ H), !Qred_opp.
    f_equal. f_equal. destruct (Qred q) as [n d]. unfold Qopp. cbn.
    now rewrite Z.opp_involutive.
Qed.

(** Rounding moves a number of magnitude [B] at most by [B * 2 ^ -53],
    or by half the least subnormal number, and not to an infinity while
    [B] is below [2 ^ 1023]. *)
Lemma round64_near (q B : Q) :
  (- B <= q)%Q -> (q <= B)%Q -> (B <= pow2 1023)%Q ->
  exists v, round64 q = Fin v
    /\ (v - q <= B * pow2 (-53) + pow2 (-1075))%Q
    /\ (q - v <= B * pow2 (-53) + pow2 (-1075))%Q.
Proof.
  intros H1 H2 HB.
  pose proof (pow2_pos (-53)) as P53. pose proof (pow2_pos (-1075)) as Pmin.
  assert (Hpos : forall p, (0 < p)%Q -> (p <= B)%Q ->
            exists v, roundPos (Qred p) = Fin v
              /\ (v - p <= B * pow2 (-53) + pow2 (-1075))%Q
              /\ (p - v <= B * pow2 (-53) + pow2 (-1075))%Q).
  { intros p Hp HpB.
    assert (Hp' : (0 < Qred p)%Q) by now rewrite Qred_correct.
    destruct (valPos_near (Qred p) Hp') as [Hu Hd].
    pose proof (Qred_correct p) as Ep.
    assert (Ep' : (Qred p * pow2 (-53) == p * pow2 (-53))%Q) by now rewrite Ep.
    assert (Hm : (p * pow2 (-53) <= B * pow2 (-53))%Q)
      by (apply Qmult_le_compat_r; lra).
    rewrite roundPos_eq.
    assert (Hfin : Qle_bool (pow2 1024) (Qred (valPos (Qred p))) = false).
    { apply not_true_is_false. intros H. apply Qle_bool_iff in H.
      rewrite Qred_correct in H.
      assert (E : (pow2 1023 + pow2 1023 * pow2 (-53) + pow2 (-1075) < pow2 1024)%Q)
        by reflexivity.
      assert (Hm' : (B * pow2 (-53) <= pow2 1023 * pow2 (-53))%Q)
        by (apply Qmult_le_compat_r; lra).
      lra. }
    rewrite Hfin. eexists. split; [reflexivity|]. rewrite Qred_correct. lra. }
  destruct (Q_dec q 0) as [[Hq|Hq]|Hq].
  - rewrite (round64_neg q Hq), <- Qred_opp.
    destruct (Hpos (- q)%Q) as (v & -> & Hu & Hd); [lra|lra|].
    exists (- v)%Q. split; [reflexivity|]. split; lra.
  - rewrite (round64_pos q Hq).
    destruct (Hpos q Hq H2) as (v & -> & Hu & Hd). exists v. auto.
  - rewrite (round64_zero q Hq). exists 0%Q. split; [reflexivity|].
    assert (0 <= B)%Q by lra.
    assert (0 <= B * pow2 (-53))%Q by (apply Qmult_le_0_compat; lra).
    split; lra.
Qed.

(** The integers up to [2 ^ 53] are binary64 values. *)
Lemma round64_Z_pos (z : Z) :
  0 < z <= 2 ^ 53 -> exists v, round64 (inject_Z z) = Fin v /\ (v == inject_Z z)%Q.
Proof.
  intros [H0 H1].
  assert (Hq : (0 < inject_Z z)%Q)
    by (change 0%Q with (inject_Z 0); now rewrite <- Zlt_Qlt).
  rewrite (round64_pos _ Hq), roundPos_eq.
  set (q := Qred (inject_Z z)).
  assert (Eq : (q == inject_Z z)%Q) by apply Qred_correct.
  assert (Hq' : (0 < q)%Q) by now rewrite Eq.
  destruct (Z.log2_spec z H0) as [Hl1 Hl2].
  assert (Hl0 : 0 <= Z.log2 z) by apply Z.log2_nonneg.
  assert (Hk : ilog2 q = Z.log2 z).
  { apply ilog2_unique; rewrite Eq, pow2_Z by lia.
    - now rewrite <- Zle_Qle.
    - now rewrite <- Zlt_Qlt. }
  assert (Hl53 : Z.log2 z <= 53).
  { pose proof (Z.log2_le_mono z (2 ^ 53) H1) as H.
    now change (Z.log2 (2 ^ 53)) with 53 in H. }
  assert (He : expPos q = Z.log2 z - 52) by (unfold expPos; rewrite Hk; lia).
  assert (Hv : (valPos q == inject_Z z)%Q).
  { unfold valPos. rewrite He.
    destruct (Z.eq_dec (Z.log2 z) 53) as [E53|N53].
    - assert (z = 2 ^ 53).
      { rewrite E53 in Hl1. lia. }
      subst z. rewrite E53. change (53 - 52) with 1.
      assert (E : (q / pow2 1 == inject_Z (2 ^ 52))%Q).
      { rewrite Eq. vm_compute. reflexivity. }
      assert (R : rne (q / pow2 1) = 2 ^ 52).
      { unfold rne. rewrite (Qfloor_comp _ _ E), Qfloor_Z.
        assert (C : (q / pow2 1 - inject_Z (2 ^ 52) ?= 1 # 2)%Q = Lt).
        { rewrite <- Qlt_alt, E. lra. }
        now rewrite C. }
      rewrite R. vm_compute. reflexivity.
    - set (s := 52 - Z.log2 z). assert (Hs : 0 <= s) by (unfold s; lia).
      replace (Z.log2 z - 52) with (- s) by (unfold s; lia).
      assert (Ep : (pow2 (- s) == / inject_Z (2 ^ s))%Q).
      { unfold pow2. rewrite Qpower_opp. fold (pow2 s). now rewrite pow2_Z. }
      assert (Hs2 : (0 < inject_Z (2 ^ s))%Q).
      { change 0%Q with (inject_Z 0). rewrite <- Zlt_Qlt. apply Z.pow_pos_nonneg; lia. }
      assert (E : (q / pow2 (- s) == inject_Z (z * 2 ^ s))%Q).
      { rewrite Eq, Ep, inject_Z_mult. field. lra. }
      assert (R : rne (q / pow2 (- s)) = z * 2 ^ s).
      { unfold rne. rewrite (Qfloor_comp _ _ E), Qfloor_Z.
        assert (C : (q / pow2 (- s) - inject_Z (z * 2 ^ s) ?= 1 # 2)%Q = Lt).
        { rewrite <- Qlt_alt, E. lra. }
        now rewrite C. }
      rewrite R, Ep, inject_Z_mult. field. lra. }
  assert (Hfin : Qle_bool (pow2 1024) (Qred (valPos q)) = false).
  { apply not_true_is_false. intros H. apply Qle_bool_iff in H.
    rewrite Qred_correct, Hv in H.
    assert (Hz : (inject_Z z <= inject_Z (2 ^ 53))%Q) by now rewrite <- Zle_Qle.
    assert (Hp : (inject_Z (2 ^ 53) < pow2 1024)%Q) by reflexivity.
    lra. }
  rewrite Hfin. eexists. split; [reflexivity|]. now rewrite Qred_correct.
Qed.

Lemma round64_Z (z : Z) :
  0 <= z <= 2 ^ 53 -> exists v, round64 (inject_Z z) = Fin v /\ (v == inject_Z z)%Q.
Proof.
  intros [H0 H1]. destruct (Z.eq_dec z 0) as [->|Hz].
  - exists 0%Q. split; reflexivity.
  - apply round64_Z_pos. lia.
Qed.

(** A fraction of a power of 2 whose numerator has fewer than 54 bits is
    a binary64 value. *)
Lemma round64_dyadic_pos (m s : Z) :
  0 < m < 2 ^ 53 -> 0 <= s <= 1074 ->
  exists v, round64 (inject_Z m / inject_Z (2 ^ s)) = Fin v
            /\ (v == inject_Z m / inject_Z (2 ^ s))%Q.
Proof.
  intros [Hm0 Hm1] [Hs0 Hs1].
  assert (H2s : (0 < inject_Z (2 ^ s))%Q).
  { change 0%Q with (inject_Z 0). rewrite <- Zlt_Qlt. apply Z.pow_pos_nonneg; lia. }
  assert (HmQ : (0 < inject_Z m)%Q)
    by (change 0%Q with (inject_Z 0); now rewrite <- Zlt_Qlt).
  set (x := (inject_Z m / inject_Z (2 ^ s))%Q).
  assert (Hx : (0 < x)%Q) by (apply Qlt_shift_div_l; [exact H2s|lra]).
  rewrite (round64_pos _ Hx), roundPos_eq.
  set (q := Qred x).
  assert (Eq : (q == x)%Q) by apply Qred_correct.
  destruct (Z.log2_spec m Hm0) as [Hl1 Hl2].
  assert (Hl0 : 0 <= Z.log2 m) by apply Z.log2_nonneg.
  assert (Hl52 : Z.log2 m <= 52).
  { assert (Z.log2 m < 53); [|lia]. apply Z.log2_lt_pow2; lia. }
  assert (Eps : (pow2 (- s) == / inject_Z (2 ^ s))%Q).
  { unfold pow2. rewrite Qpower_opp. fold (pow2 s). now rewrite pow2_Z. }
  assert (Hk : ilog2 q = Z.log2 m - s).
  { apply ilog2_unique; rewrite Eq; unfold x, Qdiv; rewrite <- Eps.
    - replace (Z.log2 m - s) with (Z.log2 m + - s) by lia. rewrite pow2_plus.
      apply Qmult_le_compat_r; [|apply Qlt_le_weak, pow2_pos].
      rewrite pow2_Z by lia. now rewrite <- Zle_Qle.
    - replace (Z.log2 m - s + 1) with (Z.succ (Z.log2 m) + - s) by lia.
      rewrite pow2_plus. apply Qmult_lt_r; [apply pow2_pos|].
      rewrite pow2_Z by lia. now rewrite <- Zlt_Qlt. }
  set (e := expPos q).
  assert (He : e <= - s) by (unfold e, expPos; rewrite Hk; lia).
  set (t := - s - e). assert (Ht : 0 <= t) by (unfold t; lia).
  assert (H2t : (0 < inject_Z (2 ^ t))%Q).
  { change 0%Q with (inject_Z 0). rewrite <- Zlt_Qlt. apply Z.pow_pos_nonneg; lia. }
  assert (Epe : (pow2 e == / (inject_Z (2 ^ s) * inject_Z (2 ^ t)))%Q).
  { replace e with (- (s + t)) by (unfold t; lia).
    unfold pow2. rewrite Qpower_opp. fold (pow2 (s + t)).
    rewrite pow2_plus, !pow2_Z by lia. reflexivity. }
  assert (E : (q / pow2 e == inject_Z (m * 2 ^ t))%Q).
  { rewrite Eq, Epe, inject_Z_mult. unfold x. field. split; lra. }
  assert (R : rne (q / pow2 e) = m * 2 ^ t).
  { unfold rne. rewrite (Qfloor_comp _ _ E), Qfloor_Z.
    assert (C : (q / pow2 e - inject_Z (m * 2 ^ t) ?= 1 # 2)%Q = Lt).
    { rewrite <- Qlt_alt, E. lra. }
    now rewrite C. }
  assert (Hv : (valPos q == x)%Q).
  { unfold valPos. fold e. rewrite R, Epe, inject_Z_mult. unfold x. field. split; lra. }
  assert (Hfin : Qle_bool (pow2 1024) (Qred (valPos q)) = false).
  { apply not_true_is_false. intros H. apply Qle_bool_iff in H.
    rewrite Qred_correct, Hv in H.
    assert (Hxm : (x <= inject_Z m)%Q).
    { unfold x. apply Qle_shift_div_r; [exact H2s|].
      assert (1 <= inject_Z (2 ^ s))%Q.
      { change 1%Q with (inject_Z 1). rewrite <- Zle_Qle.
        pose proof (Z.pow_pos_nonneg 2 s ltac:(lia) Hs0). lia. }
      rewrite <- (Qmult_1_r (inject_Z m)) at 1.
      apply Qmult_le_l; [exact HmQ|assumption]. }
    assert (Hz : (inject_Z m < inject_Z (2 ^ 53))%Q) by now rewrite <- Zlt_Qlt.
    assert (Hp : (inject_Z (2 ^ 53) < pow2 1024)%Q) by reflexivity.
    lra. }
  rewrite Hfin. eexists. split; [reflexivity|]. now rewrite Qred_correct.
Qed.

Lemma round64_dyadic (m s : Z) :
  - 2 ^ 53 < m < 2 ^ 53 -> 0 <= s <= 1074 ->
  exists v, round64 (inject_Z m / inject_Z (2 ^ s)) = Fin v
            /\ (v == inject_Z m / inject_Z (2 ^ s))%Q.
Proof.
  intros Hm Hs.
  assert (H2s : (0 < inject_Z (2 ^ s))%Q).
  { change 0%Q with (inject_Z 0). rewrite <- Zlt_Qlt. apply Z.pow_pos_nonneg; lia. }
  destruct (Z.lt_trichotomy m 0) as [Hneg|[->|Hpos]].
  - destruct (round64_dyadic_pos (- m) s ltac:(lia) Hs) as (v & Ev & Hv).
    assert (E : (inject_Z m / inject_Z (2 ^ s)
                 == - (inject_Z (- m) / inject_Z (2 ^ s)))%Q).
    { rewrite inject_Z_opp. field. lra. }
    rewrite (round64_comp _ _ E).
    destruct (round64_opp (inject_Z (- m) / inject_Z (2 ^ s))) as [-> | Hz].
    + rewrite Ev. exists (- v)%Q. split; [reflexivity|]. rewrite Hv, E. reflexivity.
    + exfalso.
      assert (0 < inject_Z (- m))%Q
        by (change 0%Q with (inject_Z 0); rewrite <- Zlt_Qlt; lia).
      assert (0 < inject_Z (- m) / inject_Z (2 ^ s))%Q
        by (apply Qlt_shift_div_l; [exact H2s|lra]).
      lra.
  - exists 0%Q. split.
    + apply round64_zero. unfold Qdiv. change (inject_Z 0) with 0%Q. ring.
    + unfold Qdiv. change (inject_Z 0) with 0%Q. ring.
  - now apply round64_dyadic_pos; [lia|].
Qed.

(** *** Order on numbers *)

Lemma le_PosInf (a : number) : a <> NaN -> le a PosInf.
Proof. destruct a; simpl; tauto. Qed.

Lemma le_NegInf (a : number) : a <> NaN -> le NegInf a.
Proof. destruct a; simpl; tauto. Qed.

Lemma le_refl (a : number) : a <> NaN -> le a a.
Proof. destruct a; simpl; try tauto. intros _. apply Qle_refl. Qed.

Lemma leb_le (a b : number) : leb a b = true <-> le a b.
Proof.
  destruct a, b; simpl; try tauto; try (split; [discriminate|tauto]).
  apply Qle_bool_iff.
Qed.

Lemma leb_false (a b : number) : a <> NaN -> b <> NaN -> leb a b = false -> le b a.
Proof.
  destruct a, b; simpl; try tauto; try discriminate.
  intros _ _ H. apply Qlt_le_weak, Qnot_le_lt. intros Hle.
  apply Qle_bool_iff in Hle. congruence.
Qed.

Lemma le_between (x : number) (a b : Q) :
  le (Fin a) x -> le x (Fin b) -> exists q, x = Fin q /\ (a <= q <= b)%Q.
Proof.
  destruct x; simpl; try tauto. intros H1 H2. exists q. auto.
Qed.

Lemma round64_between (q : Q) (hi : Z) :
  0 <= hi <= 2 ^ 53 -> (0 <= q)%Q -> (q <= inject_Z hi)%Q ->
  exists v, round64 q = Fin v /\ (0 <= v)%Q /\ (v <= inject_Z hi)%Q.
Proof.
  intros Hhi H0 H1.
  pose proof (round64_mono _ _ H0) as L. rewrite round64_0 in L.
  pose proof (round64_mono _ _ H1) as U.
  destruct (round64_Z hi Hhi) as (v & E & Ev). rewrite E in U.
  destruct (le_between _ _ _ L U) as (r & -> & Hr1 & Hr2).
  exists r. split; [reflexivity|]. split; [exact Hr1|]. now rewrite <- Ev.
Qed.

(** *** The operations of the summary are monotone *)

Lemma mul_10_mono (a b : number) : le a b -> le (mul a (Fin 10)) (mul b (Fin 10)).
Proof.
  intros H. destruct a as [x| | |], b as [y| | |]; simpl in H; try tauto.
  - unfold mul. apply round64_mono. lra.
  - unfold mul. apply le_PosInf, round64_not_NaN.
  - unfold mul. apply le_NegInf, round64_not_NaN.
Qed.

Lemma roundHalfUp_mono (x y : Q) : (x <= y)%Q -> roundHalfUp x <= roundHalfUp y.
Proof. intros H. unfold roundHalfUp. apply Qfloor_resp_le. lra. Qed.

Lemma roundHalfUp_bounds (x : Q) :
  (inject_Z (roundHalfUp x) <= x + (1 # 2))%Q
  /\ (x + (1 # 2) < inject_Z (roundHalfUp x) + 1)%Q.
Proof.
  unfold roundHalfUp. split; [apply Qfloor_le|].
  pose proof (Qlt_floor (x + (1 # 2))) as H.
  rewrite inject_Z_plus in H. exact H.
Qed.

Lemma roundHalfUp_unique (x : Q) (k : Z) :
  (inject_Z k <= x + (1 # 2))%Q -> (x + (1 # 2) < inject_Z k + 1)%Q ->
  roundHalfUp x = k.
Proof.
  intros Hlo Hhi. destruct (roundHalfUp_bounds x) as [Hlo' Hhi'].
  assert (H1 : (inject_Z k < inject_Z (roundHalfUp x) + 1)%Q) by lra.
  assert (H2 : (inject_Z (roundHalfUp x) < inject_Z k + 1)%Q) by lra.
  change 1%Q with (inject_Z 1) in H1, H2.
  rewrite <- inject_Z_plus, <- Zlt_Qlt in H1, H2. lia.
Qed.

Lemma Math_round_mono (a b : number) : le a b -> le (Math_round a) (Math_round b).
Proof.
  intros H. destruct a as [x| | |], b as [y| | |]; simpl in H |- *; try tauto.
  rewrite <- Zle_Qle. now apply roundHalfUp_mono.
Qed.

Lemma div_10_mono (a b : number) : le a b -> le (div a (Fin 10)) (div b (Fin 10)).
Proof.
  intros H. destruct a as [x| | |], b as [y| | |]; simpl in H; try tauto.
  - unfold div. change (Qeq_bool 10 0) with false. cbv iota.
    apply round64_mono. unfold Qdiv. apply Qmult_le_compat_r; [exact H|discriminate].
  - unfold div. change (Qeq_bool 10 0) with false. cbv iota.
    apply le_PosInf, round64_not_NaN.
  - unfold div. change (Qeq_bool 10 0) with false. cbv iota.
    apply le_NegInf, round64_not_NaN.
Qed.

Lemma round1_mono (a b : number) : le a b -> le (round1 a) (round1 b).
Proof.
  intros H. unfold round1. now apply div_10_mono, Math_round_mono, mul_10_mono.
Qed.

(** [Math.round(x * 10) / 10] of a number of magnitude 10000 at most: the
    product is near [10 x], and the result is the binary64 value of a
    whole number of tenths. *)
Lemma round1_tenths (x : Q) :
  (-10000 <= x)%Q -> (x <= 10000)%Q ->
  exists y : Q,
    mul (Fin x) (Fin 10) = Fin y
    /\ (y - x * 10 <= 100000 * pow2 (-53) + pow2 (-1075))%Q
    /\ (x * 10 - y <= 100000 * pow2 (-53) + pow2 (-1075))%Q
    /\ round1 (Fin x) = round64 (inject_Z (roundHalfUp y) / 10).
Proof.
  intros H1 H2. unfold round1, mul.
  destruct (round64_near (x * 10) 100000) as (y & -> & Hy1 & Hy2);
    [lra|lra|vm_compute; discriminate|].
  exists y. split; [reflexivity|]. split; [exact Hy1|]. split; [exact Hy2|reflexivity].
Qed.

(** *** Minimum and maximum of a sample *)

Lemma min2_spec (a b : number) :
  a <> NaN -> b <> NaN ->
  (min2 a b = a \/ min2 a b = b) /\ le (min2 a b) a /\ le (min2 a b) b.
Proof.
  intros Ha Hb.
  assert (E : min2 a b = if leb a b then a else b).
  { destruct a, b; try reflexivity; congruence. }
  rewrite E. destruct (leb a b) eqn:L.
  - split; [now left|]. split; [now apply le_refl|now apply leb_le].
  - split; [now right|]. split; [now apply leb_false|now apply le_refl].
Qed.

Lemma max2_spec (a b : number) :
  a <> NaN -> b <> NaN ->
  (max2 a b = a \/ max2 a b = b) /\ le a (max2 a b) /\ le b (max2 a b).
Proof.
  intros Ha Hb.
  assert (E : max2 a b = if leb a b then b else a).
  { destruct a, b; try reflexivity; congruence. }
  rewrite E. destruct (leb a b) eqn:L.
  - split; [now right|]. split; [now apply leb_le|now apply le_refl].
  - split; [now left|]. split; [now apply le_refl|now apply leb_false].
Qed.

Lemma fold_min2 (xs : list number) (a : number) :
  a <> NaN -> (forall x, In x xs -> x <> NaN) ->
  (fold_left min2 xs a = a \/ In (fold_left min2 xs a) xs)
  /\ le (fold_left min2 xs a) a
  /\ (forall x, In x xs -> le (fold_left min2 xs a) x).
Proof.
  revert a. induction xs as [|y rest IH]; intros a Ha Hxs; cbn [fold_left].
  - split; [now left|]. split; [now apply le_refl|intros x []].
  - assert (Hy : y <> NaN) by (apply Hxs; now left).
    destruct (min2_spec a y Ha Hy) as (Hsel & Hla & Hly).
    assert (Hm : min2 a y <> NaN) by (destruct Hsel as [-> | ->]; assumption).
    destruct (IH (min2 a y) Hm (fun x Hx => Hxs x (or_intror Hx))) as (Hin & Hle & Hall).
    split; [|split].
    + destruct Hin as [E|Hin]; [|right; now right].
      rewrite E. destruct Hsel as [-> | ->]; [now left|right; now left].
    + eapply le_trans; eassumption.
    + intros x [<-|Hx]; [eapply le_trans; eassumption|now apply Hall].
Qed.

Lemma fold_max2 (xs : list number) (a : number) :
  a <> NaN -> (forall x, In x xs -> x <> NaN) ->
  (fold_left max2 xs a = a \/ In (fold_left max2 xs a) xs)
  /\ le a (fold_left max2 xs a)
  /\ (forall x, In x xs -> le x (fold_left max2 xs a)).
Proof.
  revert a. induction xs as [|y rest IH]; intros a Ha Hxs; cbn [fold_left].
  - split; [now left|]. split; [now apply le_refl|intros x []].
  - assert (Hy : y <> NaN) by (apply Hxs; now left).
    destruct (max2_spec a y Ha Hy) as (Hsel & Hla & Hly).
    assert (Hm : max2 a y <> NaN) by (destruct Hsel as [-> | ->]; assumption).
    destruct (IH (max2 a y) Hm (fun x Hx => Hxs x (or_intror Hx))) as (Hin & Hle & Hall).
    split; [|split].
    + destruct Hin as [E|Hin]; [|right; now right].
      rewrite E. destruct Hsel as [-> | ->]; [now left|right; now left].
    + eapply le_trans; eassumption.
    + intros x [<-|Hx]; [eapply le_trans; eassumption|now apply Hall].
Qed.

Lemma Math_min_le (xs : list number) (x : number) :
  (forall y, In y xs -> y <> NaN) -> In x xs -> le (Math_min xs) x.
Proof.
  intros Hxs Hx. unfold Math_min.
  destruct (fold_min2 xs PosInf ltac:(discriminate) Hxs) as (_ & _ & H). now apply H.
Qed.

Lemma Math_max_ge (xs : list number) (x : number) :
  (forall y, In y xs -> y <> NaN) -> In x xs -> le x (Math_max xs).
Proof.
  intros Hxs Hx. unfold Math_max.
  destruct (fold_max2 xs NegInf ltac:(discriminate) Hxs) as (_ & _ & H). now apply H.
Qed.

Lemma Math_min_In (xs : list number) :
  xs <> [] -> (forall y, In y xs -> y <> NaN) -> In (Math_min xs) xs.
Proof.
  intros Hne Hxs. unfold Math_min.
  destruct (fold_min2 xs PosInf ltac:(discriminate) Hxs) as ([E|Hin] & _ & H);
    [|exact Hin].
  destruct xs as [|x rest]; [congruence|].
  assert (Hx : le (fold_left min2 (x :: rest) PosInf) x) by (apply H; now left).
  rewrite E in Hx |- *. destruct x; simpl in Hx; try tauto. now left.
Qed.

Lemma Math_max_In (xs : list number) :
  xs <> [] -> (forall y, In y xs -> y <> NaN) -> In (Math_max xs) xs.
Proof.
  intros Hne Hxs. unfold Math_max.
  destruct (fold_max2 xs NegInf ltac:(discriminate) Hxs) as ([E|Hin] & _ & H);
    [|exact Hin].
  destruct xs as [|x rest]; [congruence|].
  assert (Hx : le x (fold_left max2 (x :: rest) NegInf)) by (apply H; now left).
  rewrite E in Hx |- *. destruct x; simpl in Hx; try tauto. now left.
Qed.

(** *** Averages *)

Lemma validValues_dropNull (series : list (option number)) :
  validValues series = Spec.dropNull series.
Proof.
  unfold validValues, asNumbers.
  induction series as [|[x|] rest IH]; simpl; [reflexivity| |exact IH].
  now rewrite <- IH.
Qed.

Lemma dropNull_nil_iff {A} (series : list (option A)) :
  Spec.dropNull series = [] <-> (forall v, In v series -> v = None).
Proof.
  induction series as [|[x|] rest IH]; simpl.
  - split; [intros _ v []|reflexivity].
  - split; [discriminate|]. intros H. specialize (H (Some x) (or_introl eq_refl)).
    discriminate.
  - rewrite IH. split.
    + intros H v [<-|Hv]; [reflexivity|auto].
    + intros H v Hv. auto.
Qed.

Lemma dropNull_In {A} (series : list (option A)) (x : A) :
  In x (Spec.dropNull series) <-> In (Some x) series.
Proof.
  induction series as [|[y|] rest IH]; simpl.
  - tauto.
  - rewrite IH. split; (intros [H|H]; [left; congruence|right; exact H]).
  - rewrite IH. split; [tauto|]. intros [H|H]; [discriminate|exact H].
Qed.

Lemma dropNull_length {A} (series : list (option A)) :
  (length (Spec.dropNull series) <= length series)%nat.
Proof.
  induction series as [|[x|] rest IH]; simpl; lia.
Qed.

Lemma calculateAverage_values (series : list (option number)) (x : number)
    (rest : list number) :
  Spec.dropNull series = x :: rest ->
  calculateAverage series
  = div (fold_left add (x :: rest) (Fin 0))
        (Fin (inject_Z (Z.of_nat (length (x :: rest))))).
Proof.
  intros E. unfold calculateAverage. rewrite validValues_dropNull, E. reflexivity.
Qed.

Lemma calculateAverage_nulls (series : list (option number)) :
  Spec.dropNull series = [] -> calculateAverage series = Fin 0.
Proof.
  intros E. unfold calculateAverage. now rewrite validValues_dropNull, E.
Qed.

Lemma binary64_Fin (q : Q) :
  binary64 (Fin q) -> exists v, round64 q = Fin v /\ (v == q)%Q.
Proof.
  unfold binary64. destruct (round64 q) as [v| | |]; simpl; try tauto.
  intros H. now exists v.
Qed.

(** A sum that needs no rounding is the exact sum. *)
Lemma fold_add_exact (xs : list Q) (acc acc' : Q) :
  (acc' == acc)%Q -> Spec.exactSums acc xs ->
  exists s, fold_left add (map Fin xs) (Fin acc') = Fin s
            /\ (s == acc + Spec.sum xs)%Q.
Proof.
  revert acc acc'. induction xs as [|x rest IH]; intros acc acc' Eacc Hex.
  - exists acc'. split; [reflexivity|]. cbn [Spec.sum]. rewrite Eacc. ring.
  - destruct Hex as [Hb Hrest].
    destruct (binary64_Fin _ Hb) as (v & Ev & Hv).
    cbn [map fold_left]. unfold add at 2.
    assert (Er : round64 (acc' + x) = Fin v).
    { rewrite <- Ev. apply round64_comp. now rewrite Eacc. }
    rewrite Er.
    destruct (IH (acc + x)%Q v Hv Hrest) as (s & Es & Hs).
    exists s. split; [exact Es|]. rewrite Hs. cbn [Spec.sum]. ring.
Qed.

Lemma length_pos_Q {A} (x : A) (rest : list A) :
  (0 < inject_Z (Z.of_nat (length (x :: rest))))%Q.
Proof.
  change 0%Q with (inject_Z 0). rewrite <- Zlt_Qlt. cbn [length]. lia.
Qed.

Lemma div_count {A} (s : Q) (x : A) (rest : list A) :
  div (Fin s) (Fin (inject_Z (Z.of_nat (length (x :: rest)))))
  = round64 (s / inject_Z (Z.of_nat (length (x :: rest)))).
Proof.
  unfold div.
  assert (E : Qeq_bool (inject_Z (Z.of_nat (length (x :: rest)))) 0 = false).
  { apply not_true_is_false. intros H. apply Qeq_bool_iff in H.
    pose proof (length_pos_Q x rest) as P. rewrite H in P. discriminate P. }
  now rewrite E.
Qed.

(** The average of a series whose sum needs no rounding is the rounded
    mean. *)
Lemma calculateAverage_exact_sum (series : list (option number)) (x : Q)
    (rest : list Q) :
  Spec.dropNull series = map Fin (x :: rest) ->
  Spec.exactSums 0 (x :: rest) ->
  calculateAverage series = round64 (Spec.mean (x :: rest)).
Proof.
  intros E Hex.
  rewrite (calculateAverage_values series (Fin x) (map Fin rest) E).
  change (Fin x :: map Fin rest) with (map Fin (x :: rest)).
  destruct (fold_add_exact (x :: rest) 0 0 (Qeq_refl 0) Hex) as (s & Es & Hs).
  rewrite Es. rewrite length_map.
  rewrite (div_count s x rest). apply round64_comp. unfold Spec.mean.
  rewrite Hs. apply Qdiv_comp; [ring|reflexivity].
Qed.

Lemma sum_lower (xs : list Q) (m : Q) :
  (forall y, In y xs -> m <= y)%Q ->
  (m * inject_Z (Z.of_nat (length xs)) <= Spec.sum xs)%Q.
Proof.
  induction xs as [|x rest IH]; intros Hm.
  - change (inject_Z (Z.of_nat (length (@nil Q)))) with 0%Q. cbn [Spec.sum]. lra.
  - cbn [length Spec.sum]. rewrite Nat2Z.inj_succ. unfold Z.succ.
    rewrite inject_Z_plus. change (inject_Z 1) with 1%Q.
    assert (m <= x)%Q by (apply Hm; now left).
    assert (m * inject_Z (Z.of_nat (length rest)) <= Spec.sum rest)%Q
      by (apply IH; intros y Hy; apply Hm; now right).
    lra.
Qed.

Lemma sum_upper (xs : list Q) (m : Q) :
  (forall y, In y xs -> y <= m)%Q ->
  (Spec.sum xs <= m * inject_Z (Z.of_nat (length xs)))%Q.
Proof.
  induction xs as [|x rest IH]; intros Hm.
  - change (inject_Z (Z.of_nat (length (@nil Q)))) with 0%Q. cbn [Spec.sum]. lra.
  - cbn [length Spec.sum]. rewrite Nat2Z.inj_succ. unfold Z.succ.
    rewrite inject_Z_plus. change (inject_Z 1) with 1%Q.
    assert (x <= m)%Q by (apply Hm; now left).
    assert (Spec.sum rest <= m * inject_Z (Z.of_nat (length rest)))%Q
      by (apply IH; intros y Hy; apply Hm; now right).
    lra.
Qed.

Lemma Fin_length (xs : list Q) : length (map Fin xs) = length xs.
Proof. apply length_map. Qed.

(** The error of a binary64 sum: each addition moves the sum at most by
    [step], as long as the sums stay of magnitude [B] at most. *)
Lemma fold_add_near (M B step : Q) (xs : list Q) :
  forall acc S eb sb : Q,
    (0 <= M)%Q -> (0 <= B)%Q -> (B <= pow2 1023)%Q ->
    (B * pow2 (-53) + pow2 (-1075) <= step)%Q ->
    (forall y, In y xs -> - M <= y /\ y <= M)%Q ->
    (acc - S <= eb)%Q -> (S - acc <= eb)%Q -> (0 <= eb)%Q ->
    (- sb <= S)%Q -> (S <= sb)%Q ->
    (eb + sb + inject_Z (Z.of_nat (length xs)) * (step + M) <= B)%Q ->
    exists s, fold_left add (map Fin xs) (Fin acc) = Fin s
      /\ (s - (S + Spec.sum xs) <= eb + inject_Z (Z.of_nat (length xs)) * step)%Q
      /\ (S + Spec.sum xs - s <= eb + inject_Z (Z.of_nat (length xs)) * step)%Q.
Proof.
  induction xs as [|x rest IH]; intros acc S eb sb HM HB0 HB Hstep Hin Ha1 Ha2 Heb Hs1 Hs2 Hroom.
  - exists acc. split; [reflexivity|]. cbn [length Spec.sum].
    change (inject_Z (Z.of_nat 0)) with 0%Q. split; lra.
  - cbn [length] in Hroom |- *. rewrite Nat2Z.inj_succ in Hroom |- *.
    unfold Z.succ in Hroom |- *. rewrite inject_Z_plus in Hroom |- *.
    change (inject_Z 1) with 1%Q in Hroom |- *.
    set (n := inject_Z (Z.of_nat (length rest))) in *.
    assert (Hn : (0 <= n)%Q).
    { unfold n. change 0%Q with (inject_Z 0). rewrite <- Zle_Qle. lia. }
    pose proof (pow2_pos (-53)) as P53. pose proof (pow2_pos (-1075)) as P1075.
    destruct (Hin x (or_introl eq_refl)) as [Hx1 Hx2].
    assert (Hstep0 : (0 <= step)%Q).
    { assert (0 <= B * pow2 (-53))%Q by (apply Qmult_le_0_compat; lra). lra. }
    assert (Hrest : (0 <= n * (step + M))%Q) by (apply Qmult_le_0_compat; lra).
    assert (Hexp : ((n + 1) * (step + M) == n * (step + M) + (step + M))%Q) by ring.
    cbn [map fold_left]. unfold add at 2.
    destruct (round64_near (acc + x) B) as (v & -> & Hv1 & Hv2); [lra|lra|exact HB|].
    destruct (IH v (S + x)%Q (eb + step)%Q (sb + M)%Q HM HB0 HB Hstep
                (fun y Hy => Hin y (or_intror Hy)))
      as (s & Es & Hs & Hs'); try lra.
    exists s. split; [exact Es|]. cbn [Spec.sum].
    assert (Hexp' : ((n + 1) * step == n * step + step)%Q) by ring.
    split; lra.
Qed.

(** The average is the arithmetic mean up to the rounding of binary64:
    each of the [n] additions and the division move the result by
    [2 n * M * 2 ^ -53] at most, or by half the least subnormal number. *)
Lemma calculateAverage_near_mean :
  forall (series : list (option number)) (x : Q) (rest : list Q) (M : Q),
    Spec.dropNull series = map Fin (x :: rest) ->
    (forall y, In y (x :: rest) -> - M <= y /\ y <= M)%Q ->
    (1 <= M)%Q -> (M <= pow2 980)%Q ->
    Z.of_nat (length series) < 2 ^ 32 ->
    exists a : Q,
      calculateAverage series = Fin a
      /\ (a - Spec.mean (x :: rest)
          <= (2 * inject_Z (Z.of_nat (length (x :: rest))) + 2) * M * pow2 (-53)
             + pow2 (-1074))%Q
      /\ (Spec.mean (x :: rest) - a
          <= (2 * inject_Z (Z.of_nat (length (x :: rest))) + 2) * M * pow2 (-53)
             + pow2 (-1074))%Q.
Proof.
  intros series x rest M E Hin HM1 HM2 Hlen.
  pose proof (dropNull_length series) as Hl. rewrite E, Fin_length in Hl.
  set (xs := x :: rest) in *.
  set (n := inject_Z (Z.of_nat (length xs))).
  pose proof (length_pos_Q x rest) as Hn0. fold xs in Hn0. fold n in Hn0.
  assert (Hn1 : (1 <= n)%Q).
  { unfold n. change 1%Q with (inject_Z 1). rewrite <- Zle_Qle.
    unfold xs. cbn [length]. lia. }
  assert (Hn32 : (n <= pow2 32)%Q).
  { unfold n. rewrite pow2_Z by lia. rewrite <- Zle_Qle. lia. }
  pose proof (pow2_pos (-53)) as P53. pose proof (pow2_pos (-1075)) as P1075.
  set (u := pow2 (-53)) in *. set (t := pow2 (-1075)) in *.
  assert (Et : (pow2 (-1074) == 2 * t)%Q) by reflexivity.
  set (B := (2 * n * M)%Q).
  set (step := (B * u + t)%Q).
  assert (HnM : (M <= n * M)%Q).
  { rewrite <- (Qmult_1_l M) at 1. apply Qmult_le_compat_r; lra. }
  assert (HnM32 : (n * M <= pow2 32 * M)%Q) by (apply Qmult_le_compat_r; lra).
  assert (HMM : (pow2 32 * M <= pow2 32 * pow2 980)%Q).
  { rewrite !(Qmult_comm (pow2 32)). apply Qmult_le_compat_r; [lra|apply Qlt_le_weak, pow2_pos]. }
  assert (HB : (B <= pow2 1023)%Q).
  { unfold B. assert (2 * (pow2 32 * pow2 980) <= pow2 1023)%Q by (vm_compute; discriminate).
    lra. }
  assert (HBu : (B * u <= M * pow2 (-20))%Q).
  { unfold B.
    assert (Hnu : (n * u <= pow2 32 * u)%Q) by (apply Qmult_le_compat_r; lra).
    assert (E1 : (pow2 32 * u == pow2 (-21))%Q) by reflexivity.
    assert (E2 : (pow2 (-20) == 2 * pow2 (-21))%Q) by reflexivity.
    assert (Hm : (n * u * M <= pow2 (-21) * M)%Q)
      by (apply Qmult_le_compat_r; lra).
    rewrite E2. lra. }
  assert (Hstep : (step <= M)%Q).
  { unfold step.
    assert (pow2 (-20) <= 1 # 2)%Q by (vm_compute; discriminate).
    assert (t <= 1 # 2)%Q by (vm_compute; discriminate).
    assert (M * pow2 (-20) <= M * (1 # 2))%Q
      by (rewrite !(Qmult_comm M); apply Qmult_le_compat_r; lra).
    lra. }
  assert (HB0 : (0 <= B)%Q).
  { unfold B. assert (0 <= n * M)%Q by (apply Qmult_le_0_compat; lra). lra. }
  assert (Hstep0 : (0 <= step)%Q).
  { unfold step. assert (0 <= B * u)%Q by (apply Qmult_le_0_compat; lra). lra. }
  rewrite (calculateAverage_values series (Fin x) (map Fin rest) E).
  change (Fin x :: map Fin rest) with (map Fin xs). rewrite Fin_length.
  destruct (fold_add_near M B step xs 0 0 0 0) as (s & -> & Hs1 & Hs2);
    [lra|exact HB0|exact HB|apply Qle_refl|exact Hin|lra|lra|lra|lra|lra| |].
  { fold n. assert (n * (step + M) == n * step + n * M)%Q by ring.
    assert (n * step <= n * M)%Q
      by (rewrite !(Qmult_comm n); apply Qmult_le_compat_r; lra).
    unfold B. lra. }
  fold n in Hs1, Hs2. unfold xs at 1. rewrite (div_count s x rest). fold xs. fold n.
  assert (Hsum : (- (n * M) <= Spec.sum xs /\ Spec.sum xs <= n * M)%Q).
  { split.
    - assert (H := sum_lower xs (- M)%Q (fun y Hy => proj1 (Hin y Hy))). fold n in H. lra.
    - assert (H := sum_upper xs M (fun y Hy => proj2 (Hin y Hy))). fold n in H. lra. }
  assert (Hns : (n * step <= n * M)%Q)
    by (rewrite !(Qmult_comm n); apply Qmult_le_compat_r; lra).
  assert (Hq : (- (2 * M) <= s / n /\ s / n <= 2 * M)%Q).
  { split.
    - apply Qle_shift_div_l; [exact Hn0|]. lra.
    - apply Qle_shift_div_r; [exact Hn0|]. lra. }
  destruct (round64_near (s / n) (2 * M)) as (a & -> & Ha1 & Ha2); [lra|lra| |].
  { assert (2 * pow2 980 <= pow2 1023)%Q by (vm_compute; discriminate). lra. }
  exists a. split; [reflexivity|].
  assert (Hd1 : (s / n - Spec.mean xs <= step)%Q).
  { unfold Spec.mean. fold n.
    assert (Ed : (s / n - Spec.sum xs / n == (s - Spec.sum xs) / n)%Q) by (field; lra).
    rewrite Ed. apply Qle_shift_div_r; [exact Hn0|]. lra. }
  assert (Hd2 : (Spec.mean xs - s / n <= step)%Q).
  { unfold Spec.mean. fold n.
    assert (Ed : (Spec.sum xs / n - s / n == (Spec.sum xs - s) / n)%Q) by (field; lra).
    rewrite Ed. apply Qle_shift_div_r; [exact Hn0|]. lra. }
  fold n u t. fold u t in Ha1, Ha2. rewrite Et.
  assert (Ef : ((2 * n + 2) * M * u == B * u + 2 * M * u)%Q) by (unfold B; ring).
  unfold step in Hd1, Hd2. split; lra.
Qed.

(** C2 as the specification words it fails: three hours at 0.35 average to
    0.3499999999999999, below the mean of the three values, which is the
    value itself. *)
Lemma calculateAverage_rounds :
  calculateAverage [Some (ofDecimal 0.35); Some (ofDecimal 0.35); Some (ofDecimal 0.35)]
  = ofDecimal 0.3499999999999999
  /\ exists x a : Q,
       ofDecimal 0.35 = Fin x
       /\ ofDecimal 0.3499999999999999 = Fin a
       /\ (Spec.mean [x; x; x] == x)%Q
       /\ (a < Spec.mean [x; x; x])%Q
       /\ ~ sameValue (Fin a) (Fin (Spec.mean [x; x; x])).
Proof.
  split; [vm_compute; reflexivity|].
  eexists _, _. split; [vm_compute; reflexivity|]. split; [vm_compute; reflexivity|].
  split; [reflexivity|]. split; [reflexivity|]. intros H. vm_compute in H. discriminate H.
Qed.

(** C2, as the code has it.  The average of a series of nulls, the empty
    series included, is 0.  The average of a series with a non-null entry
    is the binary64 quotient, by the number of non-null entries, of their
    binary64 sum taken from left to right.  When no addition of that sum
    rounds, the average is the arithmetic mean of the non-null entries
    rounded to binary64; it is the arithmetic mean itself when the mean is
    a binary64 value too.  In every case it is the arithmetic mean up to
    rounding: for [n] non-null entries, finite and of magnitude [M] at
    most, of an array (fewer than [2 ^ 32] entries), the two differ by
    [(2 n + 2) * M * 2 ^ -53 + 2 ^ -1074] at most. *)
Theorem calculateAverage_rounded_mean :
  forall series : list (option number),
    ((forall v, In v series -> v = None) -> calculateAverage series = Fin 0)
    /\ calculateAverage [] = Fin 0
    /\ (forall x rest, Spec.dropNull series = x :: rest ->
          calculateAverage series
          = div (fold_left add (x :: rest) (Fin 0))
                (Fin (inject_Z (Z.of_nat (length (x :: rest))))))
    /\ (forall x rest, Spec.dropNull series = map Fin (x :: rest) ->
          Spec.exactSums 0 (x :: rest) ->
          calculateAverage series = round64 (Spec.mean (x :: rest))
          /\ (binary64 (Fin (Spec.mean (x :: rest))) ->
              sameValue (calculateAverage series) (Fin (Spec.mean (x :: rest)))))
    /\ (forall (x : Q) (rest : list Q) (M : Q),
          Spec.dropNull series = map Fin (x :: rest) ->
          (forall y, In y (x :: rest) -> - M <= y /\ y <= M)%Q ->
          (1 <= M)%Q -> (M <= pow2 980)%Q ->
          Z.of_nat (length series) < 2 ^ 32 ->
          exists a : Q,
            calculateAverage series = Fin a
            /\ (a - Spec.mean (x :: rest)
                <= (2 * inject_Z (Z.of_nat (length (x :: rest))) + 2) * M * pow2 (-53)
                   + pow2 (-1074))%Q
            /\ (Spec.mean (x :: rest) - a
                <= (2 * inject_Z (Z.of_nat (length (x :: rest))) + 2) * M * pow2 (-53)
                   + pow2 (-1074))%Q).
Proof.
  intros series. split; [|split; [reflexivity|split; [|split]]].
  - intros Hnull. apply calculateAverage_nulls. now apply dropNull_nil_iff.
  - intros x rest E. now apply calculateAverage_values.
  - intros x rest E Hex.
    pose proof (calculateAverage_exact_sum series x rest E Hex) as Havg.
    split; [exact Havg|]. intros Hb. rewrite Havg. exact Hb.
  - intros x rest M E Hin HM1 HM2 Hlen. now apply calculateAverage_near_mean.
Qed.

Lemma calculateAverage_rounded_mean_witness :
  sameValue (calculateAverage [Some (Fin 1); None; Some (Fin 4)])
            (Fin (Spec.mean [1; 4]%Q))
  /\ exists a : Q,
       calculateAverage [Some (Fin 1); None; Some (Fin 4)] = Fin a
       /\ (a - Spec.mean [1; 4]
           <= (2 * inject_Z (Z.of_nat (length [1; 4]%Q)) + 2) * 4 * pow2 (-53)
              + pow2 (-1074))%Q
       /\ (Spec.mean [1; 4] - a
           <= (2 * inject_Z (Z.of_nat (length [1; 4]%Q)) + 2) * 4 * pow2 (-53)
              + pow2 (-1074))%Q.
Proof.
  assert (Hex : Spec.exactSums 0 [1; 4]%Q).
  { split; [vm_compute; reflexivity|]. split; [vm_compute; reflexivity|exact I]. }
  split.
  - apply (proj2 (proj1 (proj2 (proj2 (proj2 (calculateAverage_rounded_mean
             [Some (Fin 1); None; Some (Fin 4)])))) 1%Q [4%Q] eq_refl Hex)).
    vm_compute. reflexivity.
  - apply (proj2 (proj2 (proj2 (proj2 (calculateAverage_rounded_mean
             [Some (Fin 1); None; Some (Fin 4)])))) 1%Q [4%Q] 4%Q eq_refl).
    + intros y [<-|[<-|[]]]; split; discriminate.
    + discriminate.
    + vm_compute. discriminate.
    + reflexivity.
Defined.

(** *** Minimum, mean and maximum of one sample *)

Lemma Fin_not_NaN (xs : list Q) : forall y, In y (map Fin xs) -> y <> NaN.
Proof.
  intros y Hy. apply in_map_iff in Hy as (q & <- & _). discriminate.
Qed.

(** The least of binary64 values is at most the rounded mean, which is at
    most the greatest. *)
Lemma mean_between (x : Q) (rest : list Q) :
  (forall y, In y (x :: rest) -> binary64 (Fin y)) ->
  le (Math_min (map Fin (x :: rest))) (round64 (Spec.mean (x :: rest)))
  /\ le (round64 (Spec.mean (x :: rest))) (Math_max (map Fin (x :: rest))).
Proof.
  intros Hb.
  pose proof (length_pos_Q x rest) as Hn.
  pose proof (Fin_not_NaN (x :: rest)) as Hnan.
  assert (Hne : map Fin (x :: rest) <> []) by discriminate.
  split.
  - pose proof (Math_min_In _ Hne Hnan) as Hin.
    apply in_map_iff in Hin as (m & Em & Hm).
    rewrite <- Em.
    assert (Hlow : (m <= Spec.mean (x :: rest))%Q).
    { unfold Spec.mean. apply Qle_shift_div_l; [exact Hn|]. apply sum_lower.
      intros y Hy.
      pose proof (Math_min_le _ (Fin y) Hnan (in_map Fin _ _ Hy)) as H.
      rewrite <- Em in H. exact H. }
    destruct (binary64_Fin m (Hb m Hm)) as (v & Ev & Hv).
    pose proof (round64_mono _ _ Hlow) as Hr. rewrite Ev in Hr.
    destruct (round64 (Spec.mean (x :: rest))); simpl in Hr |- *; try tauto.
    now rewrite <- Hv.
  - pose proof (Math_max_In _ Hne Hnan) as Hin.
    apply in_map_iff in Hin as (m & Em & Hm).
    rewrite <- Em.
    assert (Hup : (Spec.mean (x :: rest) <= m)%Q).
    { unfold Spec.mean. apply Qle_shift_div_r; [exact Hn|]. apply sum_upper.
      intros y Hy.
      pose proof (Math_max_ge _ (Fin y) Hnan (in_map Fin _ _ Hy)) as H.
      rewrite <- Em in H. exact H. }
    destruct (binary64_Fin m (Hb m Hm)) as (v & Ev & Hv).
    pose proof (round64_mono _ _ Hup) as Hr. rewrite Ev in Hr.
    destruct (round64 (Spec.mean (x :: rest))); simpl in Hr |- *; try tauto.
    now rewrite <- Hv.
Qed.

(** In tenths, the average of the summary is at most one under the
    minimum and at most one over the maximum. *)
Lemma summarize_temperature_tenths (series : list (option number)) (x : Q)
    (rest : list Q) :
  Spec.dropNull series = map Fin (x :: rest) ->
  (forall y, In y (x :: rest) -> -1000 <= y /\ y <= 1000)%Q ->
  Z.of_nat (length series) < 2 ^ 32 ->
  exists kmin kavg kmax : Z,
    round1 (Math_min (validValues series)) = round64 (inject_Z kmin / 10)
    /\ round1 (calculateAverage series) = round64 (inject_Z kavg / 10)
    /\ round1 (Math_max (validValues series)) = round64 (inject_Z kmax / 10)
    /\ kmin <= kmax /\ kmin - 1 <= kavg <= kmax + 1.
Proof.
  intros E Hin Hlen.
  pose proof (dropNull_length series) as Hl. rewrite E, Fin_length in Hl.
  rewrite validValues_dropNull, E.
  set (xs := x :: rest) in *.
  set (n := inject_Z (Z.of_nat (length xs))).
  pose proof (length_pos_Q x rest) as Hn0. fold xs in Hn0. fold n in Hn0.
  assert (Hn32 : (n <= pow2 32)%Q).
  { unfold n. rewrite pow2_Z by lia. rewrite <- Zle_Qle. lia. }
  pose proof (Fin_not_NaN xs) as Hnan.
  assert (Hne : map Fin xs <> []) by discriminate.
  pose proof (Math_min_In _ Hne Hnan) as Hmin.
  apply in_map_iff in Hmin as (lo & Elo & Hlo).
  pose proof (Math_max_In _ Hne Hnan) as Hmax.
  apply in_map_iff in Hmax as (hi & Ehi & Hhi).
  rewrite <- Elo, <- Ehi.
  assert (Hleast : forall y, In y xs -> (lo <= y)%Q).
  { intros y Hy. pose proof (Math_min_le _ (Fin y) Hnan (in_map Fin _ _ Hy)) as H.
    rewrite <- Elo in H. exact H. }
  assert (Hgreatest : forall y, In y xs -> (y <= hi)%Q).
  { intros y Hy. pose proof (Math_max_ge _ (Fin y) Hnan (in_map Fin _ _ Hy)) as H.
    rewrite <- Ehi in H. exact H. }
  destruct (Hin lo Hlo) as [Hlo1 Hlo2]. destruct (Hin hi Hhi) as [Hhi1 Hhi2].
  assert (Hlohi : (lo <= hi)%Q) by now apply Hleast.
  assert (Hmean : (lo <= Spec.mean xs /\ Spec.mean xs <= hi)%Q).
  { unfold Spec.mean. fold n. split.
    - apply Qle_shift_div_l; [exact Hn0|]. now apply sum_lower.
    - apply Qle_shift_div_r; [exact Hn0|]. now apply sum_upper. }
  destruct (calculateAverage_near_mean series x rest 1000 E Hin)
    as (a & -> & Ha1 & Ha2); [discriminate|vm_compute; discriminate|exact Hlen|].
  fold xs in Ha1, Ha2. fold n in Ha1, Ha2.
  pose proof (pow2_pos (-53)) as P53. pose proof (pow2_pos (-1075)) as P1075.
  assert (Et : (pow2 (-1074) == 2 * pow2 (-1075))%Q) by reflexivity.
  assert (Hnu : (n * pow2 (-53) <= pow2 (-21))%Q).
  { assert (E1 : (pow2 32 * pow2 (-53) == pow2 (-21))%Q) by reflexivity.
    rewrite <- E1. apply Qmult_le_compat_r; lra. }
  assert (Ee : ((2 * n + 2) * 1000 * pow2 (-53)
                == 2000 * (n * pow2 (-53)) + 2000 * pow2 (-53))%Q) by ring.
  assert (N53 : (pow2 (-53) <= 1 # 1000000000000000)%Q) by (vm_compute; discriminate).
  assert (N21 : (pow2 (-21) <= 1 # 2000000)%Q) by (vm_compute; discriminate).
  assert (N1075 : (pow2 (-1075) <= 1 # 1000000000000000)%Q)
    by (vm_compute; discriminate).
  destruct (round1_tenths lo) as (ylo & Ml & Yl1 & Yl2 & ->); [lra|lra|].
  destruct (round1_tenths hi) as (yhi & Mh & Yh1 & Yh2 & ->); [lra|lra|].
  destruct (round1_tenths a) as (ya & _ & Ya1 & Ya2 & ->); [lra|lra|].
  destruct (roundHalfUp_bounds ylo) as [Kl1 Kl2].
  destruct (roundHalfUp_bounds yhi) as [Kh1 Kh2].
  destruct (roundHalfUp_bounds ya) as [Ka1 Ka2].
  exists (roundHalfUp ylo), (roundHalfUp ya), (roundHalfUp yhi).
  split; [reflexivity|]. split; [reflexivity|]. split; [reflexivity|].
  set (kl := roundHalfUp ylo) in *. set (kh := roundHalfUp yhi) in *.
  set (ka := roundHalfUp ya) in *.
  assert (H1 : (inject_Z kl < inject_Z (kh + 2))%Q).
  { rewrite inject_Z_plus. change (inject_Z 2) with 2%Q. lra. }
  assert (H2 : (inject_Z kl < inject_Z (ka + 2))%Q).
  { rewrite inject_Z_plus. change (inject_Z 2) with 2%Q. lra. }
  assert (H3 : (inject_Z ka < inject_Z (kh + 2))%Q).
  { rewrite inject_Z_plus. change (inject_Z 2) with 2%Q. lra. }
  rewrite <- Zlt_Qlt in H1, H2, H3.
  assert (Hmono : kl <= kh).
  { unfold kl, kh. apply roundHalfUp_mono.
    assert (L : le (mul (Fin lo) (Fin 10)) (mul (Fin hi) (Fin 10)))
      by now apply mul_10_mono.
    rewrite Ml, Mh in L. exact L. }
  lia.
Qed.

(** C3 as the specification words it fails: of three hours at 0.35 the
    summary has an average of 0.3 under a minimum of 0.4. *)
Lemma summarize_temperature_unordered :
  (exists t, In (Some t) (temperature_2m coldDay))
  /\ avg (temperature (summarize "2024-01-01" "2024-06-01T00:00:00.000Z" coldDay))
     = ofDecimal 0.3
  /\ min (temperature (summarize "2024-01-01" "2024-06-01T00:00:00.000Z" coldDay))
     = ofDecimal 0.4
  /\ ~ le (min (temperature (summarize "2024-01-01" "2024-06-01T00:00:00.000Z" coldDay)))
          (avg (temperature (summarize "2024-01-01" "2024-06-01T00:00:00.000Z" coldDay))).
Proof.
  split; [eexists; left; reflexivity|].
  split; [vm_compute; reflexivity|]. split; [vm_compute; reflexivity|].
  vm_compute. intros H. apply H. reflexivity.
Qed.

(** C3, as the code has it.  When the temperature series has a non-null
    entry and no [NaN], the summary of the day has
    [temperature.min <= temperature.max].  The average of the summary is
    between the two as soon as the average that [calculateAverage] returns
    is between the least and the greatest non-null entry, which rounding
    of the sum can prevent; it is so when the entries are binary64 values
    and no addition of their sum rounds.  In every case, for temperatures
    of magnitude 1000 at most in an array (fewer than [2 ^ 32] entries),
    the three numbers are the binary64 values of whole numbers of tenths,
    and the average is at most one tenth under the minimum and at most one
    tenth over the maximum. *)
Theorem summarize_temperature_rounded :
  forall (date now : string) (hourly : Hourly),
    ((exists t, In (Some t) (temperature_2m hourly)) ->
     (forall t, In (Some t) (temperature_2m hourly) -> t <> NaN) ->
     le (min (temperature (summarize date now hourly)))
        (max (temperature (summarize date now hourly))))
    /\ (le (Math_min (validValues (temperature_2m hourly)))
           (calculateAverage (temperature_2m hourly)) ->
        le (min (temperature (summarize date now hourly)))
           (avg (temperature (summarize date now hourly))))
    /\ (le (calculateAverage (temperature_2m hourly))
           (Math_max (validValues (temperature_2m hourly))) ->
        le (avg (temperature (summarize date now hourly)))
           (max (temperature (summarize date now hourly))))
    /\ (forall x rest,
          Spec.dropNull (temperature_2m hourly) = map Fin (x :: rest) ->
          (forall y, In y (x :: rest) -> binary64 (Fin y)) ->
          Spec.exactSums 0 (x :: rest) ->
          le (min (temperature (summarize date now hourly)))
             (avg (temperature (summarize date now hourly)))
          /\ le (avg (temperature (summarize date now hourly)))
                (max (temperature (summarize date now hourly))))
    /\ (forall x rest,
          Spec.dropNull (temperature_2m hourly) = map Fin (x :: rest) ->
          (forall y, In y (x :: rest) -> -1000 <= y /\ y <= 1000)%Q ->
          Z.of_nat (length (temperature_2m hourly)) < 2 ^ 32 ->
          exists kmin kavg kmax : Z,
            min (temperature (summarize date now hourly))
            = round64 (inject_Z kmin / 10)
            /\ avg (temperature (summarize date now hourly))
               = round64 (inject_Z kavg / 10)
            /\ max (temperature (summarize date now hourly))
               = round64 (inject_Z kmax / 10)
            /\ kmin <= kmax /\ kmin - 1 <= kavg <= kmax + 1).
Proof.
  intros date now hourly.
  change (min (temperature (summarize date now hourly)))
    with (round1 (Math_min (validValues (temperature_2m hourly)))).
  change (max (temperature (summarize date now hourly)))
    with (round1 (Math_max (validValues (temperature_2m hourly)))).
  change (avg (temperature (summarize date now hourly)))
    with (round1 (calculateAverage (temperature_2m hourly))).
  split; [|split; [|split; [|split]]].
  - intros [t Ht] Hnan. apply round1_mono.
    rewrite validValues_dropNull.
    assert (Hnan' : forall y, In y (Spec.dropNull (temperature_2m hourly)) -> y <> NaN)
      by (intros y Hy; now apply Hnan, dropNull_In).
    apply dropNull_In in Ht.
    eapply le_trans; [apply (Math_min_le _ t Hnan' Ht)|apply (Math_max_ge _ t Hnan' Ht)].
  - apply round1_mono.
  - apply round1_mono.
  - intros x rest E Hb Hex.
    rewrite validValues_dropNull, E.
    rewrite (calculateAverage_exact_sum _ x rest E Hex).
    destruct (mean_between x rest Hb) as [Hlo Hhi].
    split; now apply round1_mono.
  - intros x rest E Hin Hlen. exact (summarize_temperature_tenths _ x rest E Hin Hlen).
Qed.

Lemma summarize_temperature_rounded_witness :
  (le (min (temperature (summarize "2024-05-01" "2024-06-01T00:00:00.000Z" sampleDay)))
      (avg (temperature (summarize "2024-05-01" "2024-06-01T00:00:00.000Z" sampleDay)))
   /\ le (avg (temperature (summarize "2024-05-01" "2024-06-01T00:00:00.000Z" sampleDay)))
         (max (temperature (summarize "2024-05-01" "2024-06-01T00:00:00.000Z" sampleDay))))
  /\ exists kmin kavg kmax : Z,
       min (temperature (summarize "2024-05-01" "2024-06-01T00:00:00.000Z" sampleDay))
       = round64 (inject_Z kmin / 10)
       /\ avg (temperature (summarize "2024-05-01" "2024-06-01T00:00:00.000Z" sampleDay))
          = round64 (inject_Z kavg / 10)
       /\ max (temperature (summarize "2024-05-01" "2024-06-01T00:00:00.000Z" sampleDay))
          = round64 (inject_Z kmax / 10)
       /\ kmin <= kmax /\ kmin - 1 <= kavg <= kmax + 1.
Proof.
  split.
  - apply (proj1 (proj2 (proj2 (proj2 (summarize_temperature_rounded
             "2024-05-01" "2024-06-01T00:00:00.000Z" sampleDay))))
             12.5%Q [14.25%Q] eq_refl).
    + intros y [<-|[<-|[]]]; vm_compute; reflexivity.
    + split; [vm_compute; reflexivity|]. split; [vm_compute; reflexivity|exact I].
  - apply (proj2 (proj2 (proj2 (proj2 (summarize_temperature_rounded
             "2024-05-01" "2024-06-01T00:00:00.000Z" sampleDay))))
             12.5%Q [14.25%Q] eq_refl).
    + intros y [<-|[<-|[]]]; split; discriminate.
    + reflexivity.
Defined.

(** Without a non-null temperature the minimum is [Infinity] and the
    maximum [-Infinity], around an average of 0: the order of C3 is lost. *)
Lemma summarize_temperature_all_null (date now : string) (hourly : Hourly) :
  (forall v, In v (temperature_2m hourly) -> v = None) ->
  temperature (summarize date now hourly)
  = {| avg := Fin 0; min := PosInf; max := NegInf |}.
Proof.
  intros Hnull. apply dropNull_nil_iff in Hnull.
  change (temperature (summarize date now hourly))
    with {| avg := round1 (calculateAverage (temperature_2m hourly));
            min := round1 (Math_min (validValues (temperature_2m hourly)));
            max := round1 (Math_max (validValues (temperature_2m hourly))) |}.
  rewrite validValues_dropNull, Hnull, (calculateAverage_nulls _ Hnull).
  reflexivity.
Qed.

(** *** Compass label *)

Lemma roundHalfUp_nonneg (x : Q) : (0 <= x)%Q -> 0 <= roundHalfUp x.
Proof.
  intros H. unfold roundHalfUp.
  change 0 with (Qfloor 0). apply Qfloor_resp_le. lra.
Qed.

(** [k % 8] on an integer that is not negative. *)
Lemma rem_8 (k : Z) :
  0 <= k ->
  exists r, rem (Fin (inject_Z k)) (Fin 8) = Fin r /\ (r == inject_Z (k mod 8))%Q.
Proof.
  intros Hk. unfold rem. change (Qeq_bool 8 0) with false. cbv iota.
  eexists. split; [reflexivity|].
  assert (Hq : (0 <= inject_Z k / 8)%Q).
  { apply Qle_shift_div_l; [reflexivity|]. rewrite Qmult_0_l.
    change 0%Q with (inject_Z 0). now rewrite <- Zle_Qle. }
  unfold truncate. apply Qle_bool_iff in Hq. rewrite Hq.
  change 8%Q with (inject_Z 8). rewrite <- Zdiv_Qdiv.
  unfold Qminus. rewrite <- inject_Z_mult, <- inject_Z_opp, <- inject_Z_plus.
  apply inject_Z_injective. rewrite (Z.mod_eq k 8) by lia. lia.
Qed.

(** [arr[i]] at an integer that is not negative. *)
Lemma index_nat {A} (arr : list A) (r : Q) (n : Z) :
  0 <= n -> (r == inject_Z n)%Q -> index arr (Fin r) = nth_error arr (Z.to_nat n).
Proof.
  intros Hn Er. unfold index.
  assert (Ef : Qfloor r = n) by (rewrite (Qfloor_comp _ _ Er); apply Qfloor_Z).
  rewrite Ef.
  assert (E1 : Qeq_bool r (inject_Z n) = true) by now apply Qeq_bool_iff.
  assert (E2 : (0 <=? n) = true) by now apply Z.leb_le.
  now rewrite E1, E2.
Qed.

Lemma div_45 (d : Q) : div (Fin d) (Fin 45) = round64 (d / 45).
Proof. reflexivity. Qed.

(** The label of a direction that is finite and not negative. *)
Lemma getWindDirection_nonneg (d : Q) :
  (0 <= d)%Q -> (d < pow2 1024)%Q ->
  exists q, div (Fin d) (Fin 45) = Fin q
    /\ (0 <= q)%Q
    /\ getWindDirection (Fin d) = Spec.compassAt q
    /\ exists label, getWindDirection (Fin d) = Some label /\ In label directions.
Proof.
  intros H0 H1.
  assert (Hq0 : (0 <= d / 45)%Q) by (apply Qle_shift_div_l; [reflexivity|lra]).
  assert (Hq1 : (d / 45 <= pow2 1019)%Q).
  { apply Qle_shift_div_r; [reflexivity|].
    assert (E : (pow2 1024 <= pow2 1019 * 45)%Q) by (vm_compute; discriminate).
    lra. }
  pose proof (round64_mono _ _ Hq0) as L. rewrite round64_0 in L.
  pose proof (round64_mono _ _ Hq1) as U.
  assert (E : exists v, round64 (pow2 1019) = Fin v) by (eexists; vm_compute; reflexivity).
  destruct E as (v & E). rewrite E in U.
  destruct (le_between _ _ _ L U) as (q & Eq & Hq & _).
  exists q. rewrite div_45. split; [exact Eq|]. split; [exact Hq|].
  assert (Hk : 0 <= roundHalfUp q) by now apply roundHalfUp_nonneg.
  assert (Hlabel : getWindDirection (Fin d) = Spec.compassAt q).
  { unfold getWindDirection. rewrite div_45, Eq. cbn [Math_round].
    destruct (rem_8 _ Hk) as (r & -> & Er).
    apply index_nat; [|exact Er]. apply Z.mod_pos_bound. lia. }
  split; [exact Hlabel|]. rewrite Hlabel. unfold Spec.compassAt.
  pose proof (Z.mod_pos_bound (roundHalfUp q) 8 eq_refl) as Hm.
  destruct (nth_error directions (Z.to_nat (roundHalfUp q mod 8))) as [label|] eqn:En.
  - exists label. split; [reflexivity|]. eapply nth_error_In, En.
  - apply nth_error_None in En. cbn [length directions] in En. lia.
Qed.

Lemma inject_Z_minus (a b : Z) : (inject_Z (a - b) == inject_Z a - inject_Z b)%Q.
Proof.
  unfold Z.sub. rewrite inject_Z_plus, inject_Z_opp. reflexivity.
Qed.

(** The label of a direction in the sector of [45 * k] degrees. *)
Lemma getWindDirection_in_sector (d : Q) (k : Z) :
  0 <= k < 2 ^ 40 ->
  (45 * inject_Z k - 22.5 <= d)%Q -> (d <= 45 * inject_Z k + (717 # 32))%Q ->
  getWindDirection (Fin d) = nth_error directions (Z.to_nat (k mod 8)).
Proof.
  intros Hk Hlo Hhi.
  assert (H40 : 2 ^ 40 = 1099511627776) by reflexivity.
  assert (Hq1 : (inject_Z (2 * k - 1) / inject_Z (2 ^ 1) <= d / 45)%Q).
  { apply Qle_shift_div_l; [reflexivity|].
    rewrite inject_Z_minus, inject_Z_mult.
    change (inject_Z (2 ^ 1)) with 2%Q. change (inject_Z 2) with 2%Q.
    change (inject_Z 1) with 1%Q.
    assert (E : ((2 * inject_Z k - 1) / 2 * 45 == 45 * inject_Z k - 22.5)%Q)
      by (field; discriminate).
    rewrite E. exact Hlo. }
  assert (Hq2 : (d / 45 <= inject_Z (512 * k + 255) / inject_Z (2 ^ 9))%Q).
  { apply Qle_shift_div_r; [reflexivity|].
    rewrite inject_Z_plus, inject_Z_mult.
    change (inject_Z (2 ^ 9)) with 512%Q. change (inject_Z 512) with 512%Q.
    change (inject_Z 255) with 255%Q.
    assert (E : ((512 * inject_Z k + 255) / 512 * 45
                 == 45 * inject_Z k + (11475 # 512))%Q) by (field; discriminate).
    rewrite E. lra. }
  pose proof (round64_mono _ _ Hq1) as L. pose proof (round64_mono _ _ Hq2) as U.
  destruct (round64_dyadic (2 * k - 1) 1) as (v1 & E1 & Hv1); [lia|lia|].
  destruct (round64_dyadic (512 * k + 255) 9) as (v2 & E2 & Hv2); [lia|lia|].
  rewrite E1 in L. rewrite E2 in U.
  destruct (le_between _ _ _ L U) as (q & Eq & Hq & Hq').
  assert (Hround : roundHalfUp q = k).
  { rewrite Hv1 in Hq. rewrite Hv2 in Hq'.
    rewrite inject_Z_minus, inject_Z_mult in Hq.
    rewrite inject_Z_plus, inject_Z_mult in Hq'.
    change (inject_Z (2 ^ 1)) with 2%Q in Hq. change (inject_Z 2) with 2%Q in Hq.
    change (inject_Z 1) with 1%Q in Hq.
    change (inject_Z (2 ^ 9)) with 512%Q in Hq'.
    change (inject_Z 512) with 512%Q in Hq'. change (inject_Z 255) with 255%Q in Hq'.
    assert (F1 : ((2 * inject_Z k - 1) / 2 == inject_Z k - (1 # 2))%Q)
      by (field; discriminate).
    assert (F2 : ((512 * inject_Z k + 255) / 512 == inject_Z k + (255 # 512))%Q)
      by (field; discriminate).
    apply roundHalfUp_unique; lra. }
  unfold getWindDirection. rewrite div_45, Eq. cbn [Math_round]. rewrite Hround.
  destruct (rem_8 k ltac:(lia)) as (r & -> & Er).
  apply index_nat; [|exact Er]. apply Z.mod_pos_bound. lia.
Qed.

(** C4 as the specification words it fails: at -45 degrees the index of
    the code is -1 and the label undefined, where the eighth label is
    expected; at 1e21 degrees the quotient by 45 is rounded to a multiple
    of 4096. *)
Lemma getWindDirection_not_compass :
  getWindDirection (Fin (-45)) = None
  /\ Spec.compass (-45) = Some "NW"
  /\ binary64 (Fin 1e21)
  /\ getWindDirection (Fin 1e21) = Some "N"
  /\ Spec.compass 1e21 = Some "W".
Proof.
  split; [vm_compute; reflexivity|]. split; [vm_compute; reflexivity|].
  split; [vm_compute; reflexivity|]. split; vm_compute; reflexivity.
Qed.

(** C4, as the code has it.  For a direction [d] that is finite and not
    negative the label is the element of [N, NE, E, SE, S, SW, W, NW] at
    index [round(q) mod 8], where [q] is the binary64 quotient of [d] by
    45; it is never undefined.  It is the element at index
    [round(d / 45) mod 8], the quotient being the exact one, for every [d]
    of a sector that goes from 22.5 degrees before [45 * k] to 22.4
    degrees after it, so from -22.5 degrees on.  So 0 gives N, 45 NE,
    90 E, 180 S, and 360 N again. *)
Theorem getWindDirection_binary64_compass :
  (forall d : Q, (0 <= d)%Q -> (d < pow2 1024)%Q ->
     exists q, div (Fin d) (Fin 45) = Fin q
       /\ getWindDirection (Fin d) = Spec.compassAt q
       /\ exists label, getWindDirection (Fin d) = Some label /\ In label directions)
  /\ (forall (d : Q) (k : Z),
        0 <= k < 2 ^ 40 ->
        (45 * inject_Z k - 22.5 <= d)%Q -> (d <= 45 * inject_Z k + 22.4)%Q ->
        getWindDirection (Fin d) = Spec.compass d)
  /\ getWindDirection (Fin 0) = Some "N"
  /\ getWindDirection (Fin 45) = Some "NE"
  /\ getWindDirection (Fin 90) = Some "E"
  /\ getWindDirection (Fin 180) = Some "S"
  /\ getWindDirection (Fin 360) = Some "N".
Proof.
  split; [|split; [|repeat split; vm_compute; reflexivity]].
  - intros d H0 H1.
    destruct (getWindDirection_nonneg d H0 H1) as (q & Eq & _ & Hl & Hex).
    exists q. auto.
  - intros d k Hk Hlo Hhi.
    rewrite (getWindDirection_in_sector d k Hk Hlo) by lra.
    unfold Spec.compass, Spec.compassAt.
    assert (H1 : (inject_Z k - (1 # 2) <= d / 45)%Q)
      by (apply Qle_shift_div_l; [reflexivity|lra]).
    assert (H2 : (d / 45 < inject_Z k + (1 # 2))%Q)
      by (apply Qlt_shift_div_r; [reflexivity|lra]).
    rewrite (roundHalfUp_unique (d / 45) k); [reflexivity|lra|lra].
Qed.

Lemma getWindDirection_binary64_compass_witness :
  (exists q, div (Fin 100) (Fin 45) = Fin q
     /\ getWindDirection (Fin 100) = Spec.compassAt q
     /\ exists label, getWindDirection (Fin 100) = Some label /\ In label directions)
  /\ getWindDirection (Fin 100) = Spec.compass 100.
Proof.
  split.
  - apply (proj1 getWindDirection_binary64_compass 100%Q).
    + discriminate.
    + reflexivity.
  - apply (proj1 (proj2 getWindDirection_binary64_compass) 100%Q 2).
    + split; [lia|reflexivity].
    + discriminate.
    + discriminate.
Defined.

(** *** Preconditions of [fetchWeatherForEdition] *)

Section Fetch.

Variable archive : ArchiveParams -> ArchiveAnswer.
Variable toISOString : Z -> string.

Local Abbreviation fetch := (fetchWeatherForEdition archive toISOString).

(** The archive is asked once by [fetchAndStore], at the coordinates it is
    given, and by nothing before it. *)
Lemma fetchAndStore_requests (w : World) (editionId : string) (edition : Edition)
    (lat lon : number) :
  exists date : string,
    requests (snd (fetchAndStore archive toISOString w editionId edition lat lon))
    = requests w ++ [ {| latitude := lat; longitude := lon;
                         start_date := date; end_date := date;
                         hourly := hourlyMetrics; timezone := "auto" |} ].
Proof.
  eexists. unfold fetchAndStore, getHistoricalWeather.
  destruct (archive _) as [[h|]|status msg]; [reflexivity|reflexivity|].
  destruct (bool_decide _); reflexivity.
Qed.

(** C5. On an edition whose weather has been fetched, a call without
    [force] throws the already-fetched error and leaves the world as it
    was: no request to the archive, the edition as stored. *)
Theorem fetchWeatherForEdition_already_fetched :
  forall (w : World) (editionId : string) (edition : Edition),
    editions w !! editionId = Some edition ->
    weatherFetched edition = true ->
    fetch w editionId false = (Throw AlreadyFetchedError, w)
    /\ requests (snd (fetch w editionId false)) = requests w
    /\ editions (snd (fetch w editionId false)) !! editionId = Some edition.
Proof.
  intros w editionId edition Hfind Hfetched.
  assert (E : fetch w editionId false = (Throw AlreadyFetchedError, w)).
  { unfold fetchWeatherForEdition. now rewrite Hfind, Hfetched. }
  rewrite E. auto.
Qed.

(** C6, as the code has it.  An edition that starts after the present
    time, on a call that passes the already-fetched check, throws the
    future-date error whatever its locations are, and the world is as it
    was. *)
Theorem fetchWeatherForEdition_future_date :
  forall (w : World) (editionId : string) (edition : Edition) (force : bool),
    editions w !! editionId = Some edition ->
    now w < startDate edition ->
    weatherFetched edition = false \/ force = true ->
    fetch w editionId force = (Throw FutureDateError, w).
Proof.
  intros w editionId edition force Hfind Hfuture Hpass.
  unfold fetchWeatherForEdition. rewrite Hfind.
  replace (weatherFetched edition && negb force) with false
    by (destruct Hpass as [-> | ->]; [reflexivity|now rewrite andb_false_r]).
  apply Z.ltb_lt in Hfuture. now rewrite Hfuture.
Qed.

(** C7. On an edition that passes both preconditions, the coordinates are
    those written in the location of the edition when it has one; else
    those written in the location of its event when that has one; else the
    call throws the no-location error.  The location that is chosen is the
    only one read: when its text does not carry the pattern the call throws
    for it, and otherwise the archive is asked at its coordinates. *)
Theorem fetchWeatherForEdition_coordinates :
  forall (w : World) (editionId : string) (edition : Edition) (force : bool),
    editions w !! editionId = Some edition ->
    weatherFetched edition = false \/ force = true ->
    startDate edition <= now w ->
    (forall s, location edition = Some s -> s <> EmptyString ->
       fetch w editionId force
       = match matchPoint s with
         | Some (lon, lat) =>
             fetchAndStore archive toISOString w editionId edition
               (parseFloat lat) (parseFloat lon)
         | None => (Throw (LocationFormatError "edition"), w)
         end)
    /\ (forall s, truthy (location edition) = false ->
          event_location (event (competition edition)) = Some s ->
          s <> EmptyString ->
          fetch w editionId force
          = match matchPoint s with
            | Some (lon, lat) =>
                fetchAndStore archive toISOString w editionId edition
                  (parseFloat lat) (parseFloat lon)
            | None => (Throw (LocationFormatError "event"), w)
            end)
    /\ (truthy (location edition) = false ->
        truthy (event_location (event (competition edition))) = false ->
        fetch w editionId force = (Throw NoLocationError, w)).
Proof.
  intros w editionId edition force Hfind Hpass Hpast.
  assert (E : fetch w editionId force
              = match resolveCoordinates edition with
                | Throw e => (Throw e, w)
                | Return (lon, lat) =>
                    fetchAndStore archive toISOString w editionId edition lat lon
                end).
  { unfold fetchWeatherForEdition. rewrite Hfind.
    replace (weatherFetched edition && negb force) with false
      by (destruct Hpass as [-> | ->]; [reflexivity|now rewrite andb_false_r]).
    apply Z.ltb_ge in Hpast. now rewrite Hpast. }
  rewrite E. unfold resolveCoordinates, parseLocation. repeat split.
  - intros s Hs Hne. rewrite Hs. destruct s as [|c s]; [congruence|].
    change (truthy (Some (String c s))) with true.
    change (default EmptyString (Some (String c s))) with (String c s).
    destruct (matchPoint (String c s)) as [[g1 g2]|]; reflexivity.
  - intros s Hnone Hs Hne. rewrite Hnone, Hs.
    destruct s as [|c s]; [congruence|].
    change (truthy (Some (String c s))) with true.
    change (default EmptyString (Some (String c s))) with (String c s).
    destruct (matchPoint (String c s)) as [[g1 g2]|]; reflexivity.
  - intros Hnone Hnone'. now rewrite Hnone, Hnone'.
Qed.

End Fetch.

Lemma fetchWeatherForEdition_already_fetched_witness :
  fetchWeatherForEdition sampleArchive isoDay
    (sampleWorld (sampleEdition 100 None true madrid)) "ed1" false
  = (Throw AlreadyFetchedError, sampleWorld (sampleEdition 100 None true madrid)).
Proof.
  apply (fetchWeatherForEdition_already_fetched sampleArchive isoDay
           (sampleWorld (sampleEdition 100 None true madrid)) "ed1"
           (sampleEdition 100 None true madrid)); reflexivity.
Defined.

(** C6 as the specification words it fails: a fetched edition that starts
    in the future, asked without [force], is refused as already fetched. *)
Lemma future_date_already_fetched :
  editions (sampleWorld (sampleEdition 9000 None true madrid)) !! "ed1"
  = Some (sampleEdition 9000 None true madrid)
  /\ now (sampleWorld (sampleEdition 9000 None true madrid))
     < startDate (sampleEdition 9000 None true madrid)
  /\ fst (fetchWeatherForEdition sampleArchive isoDay
            (sampleWorld (sampleEdition 9000 None true madrid)) "ed1" false)
     = Throw AlreadyFetchedError
  /\ fst (fetchWeatherForEdition sampleArchive isoDay
            (sampleWorld (sampleEdition 9000 None true madrid)) "ed1" false)
     <> Throw FutureDateError.
Proof.
  repeat split. discriminate.
Qed.

Lemma fetchWeatherForEdition_future_date_witness :
  fetchWeatherForEdition sampleArchive isoDay
    (sampleWorld (sampleEdition 9000 (Some "not a point") false nowhere)) "ed1" false
  = (Throw FutureDateError,
     sampleWorld (sampleEdition 9000 (Some "not a point") false nowhere)).
Proof.
  apply (fetchWeatherForEdition_future_date sampleArchive isoDay
           (sampleWorld (sampleEdition 9000 (Some "not a point") false nowhere)) "ed1"
           (sampleEdition 9000 (Some "not a point") false nowhere) false).
  - reflexivity.
  - reflexivity.
  - left. reflexivity.
Defined.

Lemma fetchWeatherForEdition_coordinates_witness :
  requests (snd (fetchWeatherForEdition sampleArchive isoDay
                   (sampleWorld (sampleEdition 100 (Some "POINT(-3.7038 40.4168)")
                                   false nowhere)) "ed1" false))
  = [ {| latitude := Fin 40.4168; longitude := Fin (-3.7038);
         start_date := "2024-05-01"; end_date := "2024-05-01";
         hourly := hourlyMetrics; timezone := "auto" |} ].
Proof.
  pose proof (fetchWeatherForEdition_coordinates sampleArchive isoDay
                (sampleWorld (sampleEdition 100 (Some "POINT(-3.7038 40.4168)")
                                false nowhere)) "ed1"
                (sampleEdition 100 (Some "POINT(-3.7038 40.4168)") false nowhere)
                false eq_refl (or_introl eq_refl)) as H.
  destruct H as [H _]; [discriminate|].
  rewrite (H "POINT(-3.7038 40.4168)" eq_refl); [reflexivity|discriminate].
Defined.

(** *** Admin operations on the status of a competition *)

Section Admin.
Import CompetitionAdminService.

(** C9. On a competition in DRAFT, [rejectCompetition] succeeds, and the
    row it leaves is the former row with the mark of rejection and the
    reason appended to its description: status DRAFT, every other column
    and every other row as before, nothing invalidated in the cache. *)
Theorem rejectCompetition_frame :
  forall (w : World) (competitionId adminId : string)
         (data : RejectCompetitionData) (competition : Competition),
    competitions w !! competitionId = Some competition ->
    status competition = DRAFT ->
    exists (updated : Competition) (w' : World),
      rejectCompetition w competitionId adminId data = (Return updated, w')
      /\ competitions w' !! competitionId = Some updated
      /\ status updated = DRAFT
      /\ description updated
         = description competition +:+ rejectedMark +:+ rejectionReason data
      /\ updated = {| id := id competition;
                      status := status competition;
                      description := description updated;
                      organizer := organizer competition;
                      columns := columns competition |}
      /\ (forall other, other <> competitionId ->
            competitions w' !! other = competitions w !! other)
      /\ invalidated w' = invalidated w.
Proof.
  intros w competitionId adminId data competition Hfind Hdraft.
  unfold rejectCompetition. rewrite Hfind.
  rewrite bool_decide_eq_false_2 by (intros Hne; now apply Hne).
  eexists _, _. split; [reflexivity|]. cbn.
  repeat split.
  - apply lookup_insert_eq.
  - exact Hdraft.
  - intros other Hother. now apply lookup_insert_ne.
Qed.

(** C10. [updateCompetitionStatus] asks nothing of the current status: on
    any competition of the table and for any target status it succeeds and
    stores that status, where [approveCompetition] and [rejectCompetition]
    throw as soon as the current status is not DRAFT. *)
Theorem updateCompetitionStatus_unconditional :
  forall (w : World) (competitionId adminId : string) (competition : Competition)
         (newStatus : CompetitionStatus),
    competitions w !! competitionId = Some competition ->
    (exists (updated : Competition) (w' : World),
       updateCompetitionStatus w competitionId newStatus adminId = (Return updated, w')
       /\ status updated = newStatus
       /\ competitions w' !! competitionId = Some updated)
    /\ (status competition <> DRAFT ->
        (forall data, approveCompetition w competitionId adminId data
                      = (Throw "Only DRAFT competitions can be approved", w))
        /\ (forall data, rejectCompetition w competitionId adminId data
                         = (Throw "Only DRAFT competitions can be rejected", w))).
Proof.
  intros w competitionId adminId competition newStatus Hfind. split.
  - unfold updateCompetitionStatus. rewrite Hfind.
    eexists _, _. split; [reflexivity|]. cbn. split; [reflexivity|].
    apply lookup_insert_eq.
  - intros Hne. split; intros data.
    + unfold approveCompetition. rewrite Hfind.
      now rewrite bool_decide_eq_true_2.
    + unfold rejectCompetition. rewrite Hfind.
      now rewrite bool_decide_eq_true_2.
Qed.

End Admin.

Lemma rejectCompetition_frame_witness :
  exists (updated : CompetitionAdminService.Competition)
         (w' : CompetitionAdminService.World),
    CompetitionAdminService.rejectCompetition
      (sampleAdminWorld CompetitionAdminService.DRAFT) "c1" "admin1"
      {| CompetitionAdminService.rejectionReason := "Falta el recorrido" |}
    = (CompetitionAdminService.Return updated, w')
    /\ CompetitionAdminService.status updated = CompetitionAdminService.DRAFT.
Proof.
  destruct (rejectCompetition_frame
              (sampleAdminWorld CompetitionAdminService.DRAFT) "c1" "admin1"
              {| CompetitionAdminService.rejectionReason := "Falta el recorrido" |}
              (sampleCompetition CompetitionAdminService.DRAFT)
              eq_refl eq_refl)
    as (updated & w' & Hrun & _ & Hstatus & _).
  exists updated, w'. split; [exact Hrun|exact Hstatus].
Defined.

Lemma updateCompetitionStatus_unconditional_witness :
  (exists (updated : CompetitionAdminService.Competition)
          (w' : CompetitionAdminService.World),
     CompetitionAdminService.updateCompetitionStatus
       (sampleAdminWorld CompetitionAdminService.CANCELLED) "c1"
       CompetitionAdminService.PUBLISHED "admin1"
     = (CompetitionAdminService.Return updated, w')
     /\ CompetitionAdminService.status updated = CompetitionAdminService.PUBLISHED
     /\ CompetitionAdminService.competitions w' !! "c1" = Some updated)
  /\ CompetitionAdminService.approveCompetition
       (sampleAdminWorld CompetitionAdminService.CANCELLED) "c1" "admin1" None
     = (CompetitionAdminService.Throw "Only DRAFT competitions can be approved",
        sampleAdminWorld CompetitionAdminService.CANCELLED).
Proof.
  destruct (updateCompetitionStatus_unconditional
              (sampleAdminWorld CompetitionAdminService.CANCELLED) "c1" "admin1"
              (sampleCompetition CompetitionAdminService.CANCELLED)
              CompetitionAdminService.PUBLISHED eq_refl) as [Hupdate Hguard].
  split; [exact Hupdate|].
  destruct Hguard as [Happrove _]; [discriminate|]. apply Happrove.
Defined.

(** *** Texts: prefixes and runs *)

#[local] Arguments String.append !s1 s2 / : simpl nomatch.

Lemma append_assoc (a b c : string) : (a +:+ b) +:+ c = a +:+ b +:+ c.
Proof. induction a as [|x a IH]; cbn; [reflexivity|now rewrite IH]. Qed.

Lemma append_empty_r (a : string) : a +:+ "" = a.
Proof. induction a as [|x a IH]; cbn; [reflexivity|now rewrite IH]. Qed.

Lemma append_length (a b : string) :
  String.length (a +:+ b) = (String.length a + String.length b)%nat.
Proof. induction a as [|x a IH]; cbn; [reflexivity|now rewrite IH]. Qed.

Lemma stripPrefix_append (p s : string) : stripPrefix p (p +:+ s) = Some s.
Proof.
  induction p as [|a p IH]; cbn; [reflexivity|].
  now rewrite Ascii.eqb_refl.
Qed.

Lemma stripPrefix_Some (p s r : string) : stripPrefix p s = Some r -> s = p +:+ r.
Proof.
  revert s. induction p as [|a p IH]; intros s; cbn.
  - congruence.
  - destruct s as [|b s]; [discriminate|].
    destruct (Ascii.eqb_spec a b) as [->|_]; [|discriminate].
    intros H. now rewrite (IH _ H).
Qed.

Lemma span_sound (p : ascii -> bool) (s run rest : string) :
  span p s = (run, rest) ->
  s = run +:+ rest /\ Spec.allIn p run = true /\ stopsAt p rest.
Proof.
  revert run rest. induction s as [|c s IH]; intros run rest; cbn.
  - intros [= <- <-]. cbn. auto.
  - destruct (p c) eqn:Hc.
    + destruct (span p s) as [run' rest'] eqn:E. intros [= <- <-].
      destruct (IH _ _ eq_refl) as (-> & Hrun & Hstop).
      cbn. rewrite Hc, Hrun. auto.
    + intros [= <- <-]. cbn. auto.
Qed.

Lemma span_append (p : ascii -> bool) (run rest : string) :
  Spec.allIn p run = true -> stopsAt p rest -> span p (run +:+ rest) = (run, rest).
Proof.
  induction run as [|c run IH]; cbn; intros Hrun Hstop.
  - destruct rest as [|c rest]; [reflexivity|]. cbn in *. now rewrite Hstop.
  - apply andb_prop in Hrun as [Hc Hrun]. now rewrite Hc, IH.
Qed.

(** *** Texts: the class [\s] *)

Lemma spaceChars_cases (P : string -> Prop) :
  Forall P spaceChars -> forall sp, In sp spaceChars -> P sp.
Proof. intros H sp Hsp. now apply (proj1 (List.Forall_forall P spaceChars) H). Qed.

Lemma spaceLen_spaceChar (sp rest : string) :
  In sp spaceChars -> spaceLen (sp +:+ rest) = String.length sp.
Proof.
  revert sp. apply spaceChars_cases.
  repeat (constructor; [reflexivity|]). constructor.
Qed.

Lemma spaceChar_head (sp : string) :
  In sp spaceChars -> exists c u, sp = String c u /\ isCoordChar c = false.
Proof.
  revert sp. apply spaceChars_cases.
  repeat (constructor; [eexists _, _; split; reflexivity|]). constructor.
Qed.

Lemma spaceLen_Some (s : string) (k : nat) :
  spaceLen s = S k ->
  exists sp r, In sp spaceChars /\ s = sp +:+ r /\ String.length sp = S k.
Proof.
  unfold spaceLen.
  destruct (find (fun sp => startsWith sp s) spaceChars) as [sp|] eqn:E; [|discriminate].
  apply find_some in E as [Hin Hstart]. unfold startsWith in Hstart.
  destruct (stripPrefix sp s) as [r|] eqn:Hr; [|discriminate].
  intros Hlen. exists sp, r. split; [exact Hin|]. split; [|exact Hlen].
  now apply stripPrefix_Some.
Qed.

Lemma spaceLen_coordChar (c : ascii) (r : string) :
  isCoordChar c = true -> spaceLen (String c r) = 0%nat.
Proof.
  destruct (spaceLen (String c r)) as [|k] eqn:E; [reflexivity|].
  apply spaceLen_Some in E as (sp & r' & Hin & Hs & _).
  apply spaceChar_head in Hin as (c' & u & -> & Hc'). cbn in Hs.
  injection Hs as -> _. congruence.
Qed.

Lemma skipSpaces_pending (u r : string) :
  skipSpaces (u +:+ r) (String.length u) = skipSpaces r 0.
Proof.
  induction u as [|c u IH]; cbn [String.append String.length]; [reflexivity|].
  cbn [skipSpaces]. exact IH.
Qed.

Lemma skipSpaces_spaceChar (sp rest : string) :
  In sp spaceChars -> skipSpaces (sp +:+ rest) 0 = skipSpaces rest 0.
Proof.
  intros Hin. pose proof (spaceLen_spaceChar sp rest Hin) as Hlen.
  destruct (spaceChar_head sp Hin) as (c & u & -> & _).
  cbn [String.append] in *. cbn [skipSpaces]. rewrite Hlen.
  cbn [String.length]. apply skipSpaces_pending.
Qed.

Lemma skipSpaces_stop (t : string) : spaceLen t = 0%nat -> skipSpaces t 0 = t.
Proof.
  destruct t as [|c t]; [reflexivity|]. cbn [skipSpaces]. now intros ->.
Qed.

Lemma skipSpaces_run (ws t : string) :
  Spec.Spaces ws -> spaceLen t = 0%nat -> skipSpaces (ws +:+ t) 0 = t.
Proof.
  intros Hws Ht. induction Hws as [|sp ws Hin Hws IH].
  - now apply skipSpaces_stop.
  - rewrite append_assoc, skipSpaces_spaceChar by exact Hin. exact IH.
Qed.

Lemma skipSpaces_sound (n : nat) :
  forall s, (String.length s <= n)%nat ->
    exists ws, Spec.Spaces ws /\ s = ws +:+ skipSpaces s 0
               /\ spaceLen (skipSpaces s 0) = 0%nat.
Proof.
  induction n as [|n IH]; intros s Hlen.
  - destruct s; [|cbn in Hlen; lia].
    exists EmptyString. repeat split. constructor.
  - destruct (spaceLen s) as [|k] eqn:E.
    + exists EmptyString. rewrite skipSpaces_stop by exact E.
      repeat split; [constructor|exact E].
    + apply spaceLen_Some in E as (sp & r & Hin & -> & Hsp).
      rewrite skipSpaces_spaceChar by exact Hin.
      rewrite append_length in Hlen.
      destruct (IH r ltac:(lia)) as (ws & Hws & Hr & Hstop).
      exists (sp +:+ ws). split; [now constructor|]. split; [|exact Hstop].
      rewrite append_assoc. now rewrite <- Hr.
Qed.

Lemma Spaces_nonempty (ws rest : string) :
  Spec.Spaces ws -> ws <> EmptyString ->
  (exists k, spaceLen (ws +:+ rest) = S k) /\ stopsAt isCoordChar (ws +:+ rest).
Proof.
  intros Hws Hne. destruct Hws as [|sp ws Hin Hws]; [congruence|].
  rewrite append_assoc, spaceLen_spaceChar by exact Hin.
  destruct (spaceChar_head sp Hin) as (c & u & -> & Hc).
  split; [now exists (String.length u)|exact Hc].
Qed.

(** *** The pattern of a point *)

Lemma allIn_head (p : ascii -> bool) (g rest : string) :
  g <> EmptyString -> Spec.allIn p g = true ->
  exists c u, g = String c u /\ p c = true.
Proof.
  destruct g as [|c u]; [congruence|]. cbn. intros _ H.
  apply andb_prop in H as [Hc _]. eauto.
Qed.

Lemma matchAt_complete (g1 ws g2 after : string) :
  g1 <> EmptyString -> Spec.allIn isCoordChar g1 = true ->
  ws <> EmptyString -> Spec.Spaces ws ->
  g2 <> EmptyString -> Spec.allIn isCoordChar g2 = true ->
  matchAt ("POINT(" +:+ g1 +:+ ws +:+ g2 +:+ ")" +:+ after) = Some (g1, g2).
Proof.
  intros Hg1 Hrun1 Hws Hspaces Hg2 Hrun2.
  unfold matchAt. rewrite stripPrefix_append.
  destruct (Spaces_nonempty ws (g2 +:+ ")" +:+ after) Hspaces Hws) as [[k Hk] Hstop].
  rewrite (span_append _ _ _ Hrun1 Hstop), Hk.
  destruct (allIn_head _ g1 "" Hg1 Hrun1) as (c1 & u1 & -> & _).
  destruct (allIn_head _ g2 "" Hg2 Hrun2) as (c2 & u2 & -> & Hc2).
  rewrite skipSpaces_run;
    [|exact Hspaces|cbn [String.append]; now apply spaceLen_coordChar].
  rewrite (span_append _ _ (")" +:+ after) Hrun2) by reflexivity.
  reflexivity.
Qed.

Lemma matchAt_sound (s g1 g2 : string) :
  matchAt s = Some (g1, g2) ->
  exists ws after,
    s = "POINT(" +:+ g1 +:+ ws +:+ g2 +:+ ")" +:+ after
    /\ g1 <> EmptyString /\ Spec.allIn isCoordChar g1 = true
    /\ ws <> EmptyString /\ Spec.Spaces ws
    /\ g2 <> EmptyString /\ Spec.allIn isCoordChar g2 = true.
Proof.
  unfold matchAt.
  destruct (stripPrefix "POINT(" s) as [r0|] eqn:Hprefix; [|discriminate].
  apply stripPrefix_Some in Hprefix as ->.
  destruct (span isCoordChar r0) as [h1 r1] eqn:Hspan1.
  apply span_sound in Hspan1 as (-> & Hrun1 & _).
  destruct h1 as [|c1 u1]; [discriminate|].
  destruct (spaceLen r1) as [|k] eqn:Hk; [discriminate|].
  destruct (skipSpaces_sound (String.length r1) r1 (Nat.le_refl _))
    as (ws & Hspaces & Hr1 & Hstop).
  destruct (span isCoordChar (skipSpaces r1 0)) as [h2 r3] eqn:Hspan2.
  apply span_sound in Hspan2 as (Hr2 & Hrun2 & _).
  destruct h2 as [|c2 u2]; [discriminate|].
  destruct r3 as [|c3 after]; [discriminate|].
  destruct (Ascii.eqb_spec c3 ")") as [->|Hne].
  - intros [= <- <-]. exists ws, after.
    split; [|split; [discriminate|split; [exact Hrun1|split; [|split;
      [exact Hspaces|split; [discriminate|exact Hrun2]]]]]].
    + rewrite Hr1 at 1. rewrite Hr2. reflexivity.
    + intros ->. cbn [String.append] in Hr1. rewrite <- Hr1 in Hstop. congruence.
  - intros H. exfalso.
    destruct c3 as [[] [] [] [] [] [] [] []]; try discriminate H. now apply Hne.
Qed.

Lemma matchPoint_sound (s g1 g2 : string) :
  matchPoint s = Some (g1, g2) -> Spec.Occurs s g1 g2.
Proof.
  induction s as [|c s IH].
  - cbn. discriminate.
  - cbn [matchPoint]. destruct (matchAt (String c s)) as [[h1 h2]|] eqn:E.
    + intros [= -> ->]. apply matchAt_sound in E as (ws & after & Hs & H).
      exists EmptyString, ws, after. split; [exact Hs|exact H].
    + intros H. destruct (IH H) as (before & ws & after & -> & Hrest).
      exists (String c before), ws, after. split; [reflexivity|exact Hrest].
Qed.

Lemma matchPoint_here (s : string) (groups : string * string) :
  matchAt s = Some groups -> matchPoint s = Some groups.
Proof. intros H. destruct s; cbn [matchPoint]; now rewrite H. Qed.

Lemma matchPoint_complete (s g1 g2 : string) :
  Spec.Occurs s g1 g2 -> exists h1 h2, matchPoint s = Some (h1, h2).
Proof.
  intros (before & ws & after & -> & Hg1 & Hrun1 & Hws & Hspaces & Hg2 & Hrun2).
  induction before as [|c before IH].
  - exists g1, g2. change ("" +:+ ?y) with y.
    apply matchPoint_here. now apply matchAt_complete.
  - change (String c before +:+ ?y) with (String c (before +:+ y)).
    cbn [matchPoint].
    destruct (matchAt _) as [[h1 h2]|]; [eauto|exact IH].
Qed.

(** *** Decimal numbers and [parseFloat] *)

Lemma allIn_append (p : ascii -> bool) (a b : string) :
  Spec.allIn p (a +:+ b) = Spec.allIn p a && Spec.allIn p b.
Proof.
  induction a as [|c a IH]; cbn; [reflexivity|]. now rewrite IH, andb_assoc.
Qed.

Lemma allIn_weaken (p q : ascii -> bool) (s : string) :
  (forall c, p c = true -> q c = true) ->
  Spec.allIn p s = true -> Spec.allIn q s = true.
Proof.
  intros Hpq. induction s as [|c s IH]; cbn; [reflexivity|].
  intros H. apply andb_prop in H as [Hc Hs]. now rewrite (Hpq _ Hc), IH.
Qed.

Lemma isDigit_isCoordChar (c : ascii) : isDigit c = true -> isCoordChar c = true.
Proof. unfold isCoordChar. now intros ->. Qed.

Lemma stripMinus_digit (c : ascii) (r : string) :
  isDigit c = true -> stripMinus (String c r) = (false, String c r).
Proof.
  destruct c as [[] [] [] [] [] [] [] []]; try discriminate; reflexivity.
Qed.

Lemma digitsValue_place (s : string) (acc : Z) :
  digitsValue acc s = acc * 10 ^ Z.of_nat (String.length s) + Spec.wholeValue s.
Proof.
  revert acc. induction s as [|c s IH]; intros acc.
  - cbn. lia.
  - cbn [digitsValue Spec.wholeValue String.length]. rewrite IH.
    rewrite Nat2Z.inj_succ, Z.pow_succ_r by lia. unfold Spec.digit. ring.
Qed.

Lemma pow10_pos (n : nat) : 0 < 10 ^ Z.of_nat n.
Proof. apply Z.pow_pos_nonneg; lia. Qed.

Lemma fractionValue_place (s : string) :
  (Spec.fractionValue s
   == inject_Z (Spec.wholeValue s) / inject_Z (10 ^ Z.of_nat (String.length s)))%Q.
Proof.
  induction s as [|c s IH].
  - reflexivity.
  - cbn [Spec.fractionValue Spec.wholeValue String.length]. rewrite IH.
    rewrite Nat2Z.inj_succ, Z.pow_succ_r by lia.
    rewrite inject_Z_plus, !inject_Z_mult.
    assert (Hp : ~ (inject_Z (10 ^ Z.of_nat (String.length s)) == 0)%Q).
    { change 0%Q with (inject_Z 0). rewrite inject_Z_injective.
      pose proof (pow10_pos (String.length s)). lia. }
    change (inject_Z 10) with 10%Q. field. exact Hp.
Qed.

Lemma parseFloat_fraction (f : string) :
  (digitsValue 0 f # Z.to_pos (10 ^ Z.of_nat (String.length f))
   == Spec.fractionValue f)%Q.
Proof.
  rewrite fractionValue_place, Qmake_Qdiv, digitsValue_place.
  rewrite Z2Pos.id by apply pow10_pos.
  now rewrite Z.mul_0_l, Z.add_0_l.
Qed.

Lemma decimalText_coordChars (d : Spec.Decimal) :
  Spec.wellFormed d ->
  Spec.decimalText d <> EmptyString
  /\ Spec.allIn isCoordChar (Spec.decimalText d) = true.
Proof.
  intros (Hne & Hwhole & Hfrac). unfold Spec.decimalText. split.
  - destruct (Spec.negative d); [discriminate|].
    destruct (Spec.whole d); [congruence|discriminate].
  - rewrite !allIn_append.
    rewrite (allIn_weaken _ _ _ isDigit_isCoordChar Hwhole).
    destruct (Spec.negative d), (Spec.fraction d) as [|c f] eqn:E; try reflexivity.
    all: change (Spec.allIn isCoordChar ("." +:+ String c f))
           with (Spec.allIn isCoordChar (String c f)).
    all: now rewrite (allIn_weaken _ _ _ isDigit_isCoordChar Hfrac).
Qed.

(** [parseFloat] reads back the number that a signed decimal writes. *)
Lemma parseFloat_decimalText (d : Spec.Decimal) :
  Spec.wellFormed d ->
  exists q : Q,
    parseFloat (Spec.decimalText d) = Fin q /\ (q == Spec.decimalValue d)%Q.
Proof.
  intros (Hne & Hwhole & Hfrac).
  destruct d as [neg w f]. cbn [Spec.whole Spec.fraction] in *.
  destruct w as [|c w]; [congruence|]. clear Hne.
  assert (Hc : isDigit c = true) by (cbn in Hwhole; now apply andb_prop in Hwhole).
  set (tail := match f with
               | EmptyString => EmptyString
               | String a r => "." +:+ String a r
               end).
  assert (Hstop : stopsAt isDigit tail) by (subst tail; now destruct f).
  assert (Hbody : stripMinus (Spec.decimalText {| Spec.negative := neg;
                     Spec.whole := String c w; Spec.fraction := f |})
                  = (neg, String c w +:+ tail)).
  { unfold Spec.decimalText. cbn [Spec.negative Spec.whole Spec.fraction].
    destruct neg; [reflexivity|]. cbn [String.append]. now apply stripMinus_digit. }
  assert (Hfp : match tail with
                | String "." r2 => fst (span isDigit r2)
                | _ => EmptyString
                end = f).
  { subst tail. destruct f as [|x f]; [reflexivity|].
    change ("." +:+ String x f) with (String "." (String x f)). cbv iota beta.
    rewrite <- (append_empty_r (String x f)) at 1.
    now rewrite (span_append isDigit (String x f) "" Hfrac I). }
  unfold parseFloat. rewrite Hbody, (span_append _ _ _ Hwhole Hstop), Hfp.
  cbn [String.length Nat.add Nat.eqb].
  eexists. split; [reflexivity|].
  unfold Spec.decimalValue. cbn [Spec.negative Spec.whole Spec.fraction].
  replace (digitsValue 0 (String c w)) with (Spec.wholeValue (String c w))
    by (rewrite digitsValue_place; lia).
  destruct neg; now rewrite (parseFloat_fraction f).
Qed.

Lemma Spaces_space : Spec.Spaces " ".
Proof.
  change " " with (" " +:+ ""). constructor; [|constructor].
  unfold spaceChars. cbn. tauto.
Qed.

Lemma parseLocation_pointText (owner : string) (lon lat : Spec.Decimal) :
  Spec.wellFormed lon -> Spec.wellFormed lat ->
  parseLocation owner (Spec.pointText lon lat)
  = Return (parseFloat (Spec.decimalText lon), parseFloat (Spec.decimalText lat)).
Proof.
  intros Hlon Hlat.
  destruct (decimalText_coordChars lon Hlon) as [Hne1 Hrun1].
  destruct (decimalText_coordChars lat Hlat) as [Hne2 Hrun2].
  unfold parseLocation, Spec.pointText.
  change ")" with (")" +:+ "") at 1.
  rewrite (matchPoint_here _ (Spec.decimalText lon, Spec.decimalText lat));
    [reflexivity|].
  apply matchAt_complete; auto using Spaces_space.
Qed.

Lemma afterDecimal_decimalText (d : Spec.Decimal) (c : ascii) (rest : string) :
  Spec.wellFormed d -> isCoordChar c = false ->
  Spec.afterDecimal (Spec.decimalText d +:+ String c rest) = Some (String c rest).
Proof.
  intros (Hne & Hwhole & Hfrac) Hc.
  assert (Hdigit : isDigit c = false).
  { destruct (isDigit c) eqn:E; [|reflexivity].
    now rewrite (isDigit_isCoordChar _ E) in Hc. }
  assert (Hdot : c <> "."%char) by (intros ->; discriminate Hc).
  destruct d as [neg w f]. cbn [Spec.whole Spec.fraction] in *.
  destruct w as [|x w]; [congruence|]. clear Hne.
  assert (Hx : isDigit x = true) by (cbn in Hwhole; now apply andb_prop in Hwhole).
  unfold Spec.afterDecimal, Spec.decimalText.
  cbn [Spec.negative Spec.whole Spec.fraction].
  assert (Hbody : forall t, snd (stripMinus ((if neg then "-" else "")
                                              +:+ String x w +:+ t))
                            = String x w +:+ t).
  { intros t. destruct neg; [reflexivity|]. cbn [String.append].
    now rewrite stripMinus_digit. }
  rewrite !append_assoc, Hbody.
  destruct f as [|y f].
  - cbn [String.append]. change (String x (w +:+ String c rest))
      with (String x w +:+ String c rest).
    rewrite (span_append isDigit (String x w) (String c rest) Hwhole Hdigit).
    destruct c as [[] [] [] [] [] [] [] []]; try reflexivity. congruence.
  - change (("." +:+ String y f) +:+ String c rest)
      with (String "." (String y f +:+ String c rest)).
    rewrite (span_append isDigit (String x w) (String "." _) Hwhole eq_refl).
    rewrite (span_append isDigit (String y f) (String c rest) Hfrac Hdigit). reflexivity.
Qed.

(** The texts that [pointText] writes are those that [isPointText]
    accepts. *)
Lemma isPointText_pointText (lon lat : Spec.Decimal) :
  Spec.wellFormed lon -> Spec.wellFormed lat ->
  Spec.isPointText (Spec.pointText lon lat) = true.
Proof.
  intros Hlon Hlat. unfold Spec.isPointText, Spec.pointText.
  rewrite stripPrefix_append.
  change (" " +:+ ?t) with (String " " t).
  rewrite (afterDecimal_decimalText lon " " _ Hlon eq_refl).
  change ")" with (String ")" "") at 1.
  now rewrite (afterDecimal_decimalText lat ")" _ Hlat eq_refl).
Qed.

(** C8 as the specification words it fails: [1.2.3] is no decimal number,
    so that the text is not of the form [POINT(<lon> <lat>)], and yet the
    extraction answers with what [parseFloat] could read of it. *)
Lemma parseLocation_best_effort :
  (forall lon lat : Spec.Decimal,
     Spec.wellFormed lon -> Spec.wellFormed lat ->
     "POINT(1.2.3 4)" <> Spec.pointText lon lat)
  /\ Spec.isPointText "POINT(1.2.3 4)" = false
  /\ parseLocation "edition" "POINT(1.2.3 4)" = Return (Fin 1.2, Fin 4).
Proof.
  split; [|split; reflexivity].
  intros lon lat Hlon Hlat E.
  pose proof (isPointText_pointText lon lat Hlon Hlat) as H.
  rewrite <- E in H. discriminate H.
Qed.

(** C8, as the code has it.  The extraction throws the format error
    exactly on the texts in which the pattern of the code occurs nowhere:
    [POINT(], a run of digits, points and minus signs, white space, a
    second such run, [)].  When it answers, the pair is [parseFloat] of the
    two runs of an occurrence.  On every text [POINT(<lon> <lat>)] with two
    signed decimal numbers it answers [<lon>] and [<lat>]; on
    [POINT(-3.7038 40.4168)], -3.7038 and 40.4168. *)
Theorem parseLocation_pattern :
  forall owner s : string,
    (parseLocation owner s = Throw (LocationFormatError owner)
     <-> forall g1 g2, ~ Spec.Occurs s g1 g2)
    /\ (forall r, parseLocation owner s = Return r ->
          exists g1 g2, Spec.Occurs s g1 g2 /\ r = (parseFloat g1, parseFloat g2))
    /\ (forall lon lat : Spec.Decimal,
          Spec.wellFormed lon -> Spec.wellFormed lat ->
          exists qlon qlat : Q,
            parseLocation owner (Spec.pointText lon lat) = Return (Fin qlon, Fin qlat)
            /\ (qlon == Spec.decimalValue lon)%Q
            /\ (qlat == Spec.decimalValue lat)%Q)
    /\ parseLocation owner "POINT(-3.7038 40.4168)"
       = Return (Fin (-3.7038), Fin 40.4168).
Proof.
  intros owner s. split; [|split; [|split; [|reflexivity]]].
  - unfold parseLocation. split.
    + intros H g1 g2 Hocc.
      destruct (matchPoint_complete s g1 g2 Hocc) as (h1 & h2 & E).
      rewrite E in H. discriminate H.
    + intros H. destruct (matchPoint s) as [[g1 g2]|] eqn:E; [|reflexivity].
      destruct (H g1 g2). now apply matchPoint_sound.
  - unfold parseLocation. intros r.
    destruct (matchPoint s) as [[g1 g2]|] eqn:E; [|discriminate].
    intros [= <-]. exists g1, g2. split; [now apply matchPoint_sound|reflexivity].
  - intros lon lat Hlon Hlat.
    destruct (parseFloat_decimalText lon Hlon) as (qlon & Elon & Hqlon).
    destruct (parseFloat_decimalText lat Hlat) as (qlat & Elat & Hqlat).
    exists qlon, qlat. rewrite parseLocation_pointText, Elon, Elat by assumption.
    auto.
Qed.

Lemma parseLocation_pattern_witness :
  exists qlon qlat : Q,
    parseLocation "event"
      (Spec.pointText
         {| Spec.negative := true; Spec.whole := "3"; Spec.fraction := "7038" |}
         {| Spec.negative := false; Spec.whole := "40"; Spec.fraction := "4168" |})
    = Return (Fin qlon, Fin qlat)
    /\ (qlon == - (3.7038))%Q /\ (qlat == 40.4168)%Q.
Proof.
  destruct (parseLocation_pattern "event" "") as (_ & _ & H & _).
  destruct (H {| Spec.negative := true; Spec.whole := "3"; Spec.fraction := "7038" |}
              {| Spec.negative := false; Spec.whole := "40"; Spec.fraction := "4168" |})
    as (qlon & qlat & E & Hlon & Hlat).
  - repeat split; discriminate.
  - repeat split; discriminate.
  - exists qlon, qlat. split; [exact E|]. split.
    + rewrite Hlon. reflexivity.
    + rewrite Hlat. reflexivity.
Defined.

(** ** Part III. Further properties of the services *)

(** *** Rounding to a tenth *)

Lemma div_10 (k : Q) : div (Fin k) (Fin 10) = round64 (k / 10).
Proof. reflexivity. Qed.

(** [Math.round(x * 10) / 10], the rounding of temperature, precipitation
    and wind speed, gives the binary64 value of a whole number of tenths,
    at most 0.05 away from [x] up to the error of the two binary64
    operations ([1e-9] for a magnitude of a million at most).  The excess
    over 0.05 is real: 0.44999999999999996 is rounded to 0.5. *)
Theorem round1_accuracy :
  (forall x : Q, (-1000000 <= x)%Q -> (x <= 1000000)%Q ->
     exists (r : Q) (k : Z),
       round1 (Fin x) = Fin r
       /\ round64 (inject_Z k / 10) = Fin r
       /\ (r - x <= (1 # 20) + (1 # 1000000000))%Q
       /\ (x - r <= (1 # 20) + (1 # 1000000000))%Q)
  /\ round1 (ofDecimal 0.44999999999999996) = ofDecimal 0.5
  /\ exists x : Q, ofDecimal 0.44999999999999996 = Fin x
                   /\ ofDecimal 0.5 = Fin (1 # 2)
                   /\ ((1 # 20) < (1 # 2) - x)%Q.
Proof.
  split; [|split; [vm_compute; reflexivity|]].
  - intros x H1 H2.
    assert (P53 : (pow2 (-53) <= 2 # 10000000000000000)%Q) by (vm_compute; discriminate).
    assert (P1075 : (pow2 (-1075) <= 1 # 10000000000000000)%Q)
      by (vm_compute; discriminate).
    pose proof (pow2_pos (-53)) as Q53. pose proof (pow2_pos (-1075)) as Q1075.
    unfold round1, mul.
    destruct (round64_near (x * 10) 10000000) as (y & -> & Hy1 & Hy2);
      [lra|lra|vm_compute; discriminate|].
    cbn [Math_round]. rewrite div_10.
    destruct (roundHalfUp_bounds y) as [Hk1 Hk2].
    set (k := roundHalfUp y) in *.
    destruct (round64_near (inject_Z k / 10) 1000001) as (r & Er & Hr1 & Hr2);
      [| |vm_compute; discriminate|].
    + apply Qle_shift_div_l; [reflexivity|]. lra.
    + apply Qle_shift_div_r; [reflexivity|]. lra.
    + exists r, k. split; [exact Er|]. split; [exact Er|].
      assert (E : (inject_Z k / 10 * 10 == inject_Z k)%Q) by (field; discriminate).
      split; lra.
  - eexists. split; [vm_compute; reflexivity|]. split; [vm_compute; reflexivity|].
    reflexivity.
Qed.

Lemma round1_accuracy_witness :
  exists (r : Q) (k : Z),
    round1 (Fin 13.375) = Fin r
    /\ round64 (inject_Z k / 10) = Fin r
    /\ (r - 13.375 <= (1 # 20) + (1 # 1000000000))%Q
    /\ (13.375 - r <= (1 # 20) + (1 # 1000000000))%Q.
Proof.
  apply (proj1 round1_accuracy 13.375%Q); discriminate.
Defined.

(** *** The order of a series *)

Lemma sum_Permutation (xs ys : list Q) : xs ≡ₚ ys -> (Spec.sum xs == Spec.sum ys)%Q.
Proof.
  induction 1 as [|x xs ys _ IH|x y xs|xs ys zs _ IH1 _ IH2]; cbn [Spec.sum].
  - reflexivity.
  - now rewrite IH.
  - ring.
  - now rewrite IH1.
Qed.

(** The average does not depend on where the nulls of a series are.  Two
    series with the same non-null values, in whatever order, have the same
    average when the sum of neither rounds; otherwise the order counts:
    0.1, 0.2, 0.3 average to 0.20000000000000004 and 0.3, 0.2, 0.1 to
    0.19999999999999998. *)
Theorem calculateAverage_Permutation :
  (forall s s' : list (option number),
     Spec.dropNull s = Spec.dropNull s' -> calculateAverage s = calculateAverage s')
  /\ (forall (s s' : list (option number)) (xs ys : list Q),
        Spec.dropNull s = map Fin xs -> Spec.dropNull s' = map Fin ys ->
        xs ≡ₚ ys -> Spec.exactSums 0 xs -> Spec.exactSums 0 ys ->
        calculateAverage s = calculateAverage s')
  /\ calculateAverage [Some (ofDecimal 0.1); Some (ofDecimal 0.2); Some (ofDecimal 0.3)]
     = ofDecimal 0.20000000000000004
  /\ calculateAverage [Some (ofDecimal 0.3); Some (ofDecimal 0.2); Some (ofDecimal 0.1)]
     = ofDecimal 0.19999999999999998
  /\ ofDecimal 0.20000000000000004 <> ofDecimal 0.19999999999999998.
Proof.
  split; [|split; [|split; [|split]]].
  - intros s s' E. unfold calculateAverage. now rewrite !validValues_dropNull, E.
  - intros s s' xs ys Es Es' Hperm Hx Hy.
    destruct xs as [|x xs].
    + apply Permutation_nil_l in Hperm. subst ys.
      now rewrite (calculateAverage_nulls s Es), (calculateAverage_nulls s' Es').
    + destruct ys as [|y ys]; [now apply Permutation_nil_r in Hperm|].
      rewrite (calculateAverage_exact_sum s x xs Es Hx).
      rewrite (calculateAverage_exact_sum s' y ys Es' Hy).
      apply round64_comp. unfold Spec.mean.
      rewrite (sum_Permutation _ _ Hperm), (Permutation_length Hperm). reflexivity.
  - vm_compute. reflexivity.
  - vm_compute. reflexivity.
  - vm_compute. intros H. discriminate H.
Qed.

Lemma calculateAverage_Permutation_witness :
  calculateAverage [Some (Fin 1); None; Some (Fin 4)]
  = calculateAverage [Some (Fin 4); Some (Fin 1)].
Proof.
  apply (proj1 (proj2 calculateAverage_Permutation)
           [Some (Fin 1); None; Some (Fin 4)] [Some (Fin 4); Some (Fin 1)]
           [1; 4]%Q [4; 1]%Q eq_refl eq_refl).
  - apply perm_swap.
  - split; [vm_compute; reflexivity|]. split; [vm_compute; reflexivity|exact I].
  - split; [vm_compute; reflexivity|]. split; [vm_compute; reflexivity|exact I].
Defined.

(** *** Sums and averages of a bounded series *)

(** A sum of values between 0 and [hi] stays between 0 and [hi] times
    their number, as long as that bound is an integer that binary64 holds. *)
Lemma fold_add_bounded (hi : Z) (xs : list number) :
  forall (acc : Q) (k : Z),
    0 <= hi -> 0 <= k ->
    (forall x, In x xs -> le (Fin 0) x /\ le x (Fin (inject_Z hi))) ->
    (0 <= acc)%Q -> (acc <= inject_Z (hi * k))%Q ->
    hi * (k + Z.of_nat (length xs)) <= 2 ^ 53 ->
    exists s, fold_left add xs (Fin acc) = Fin s
      /\ (0 <= s)%Q /\ (s <= inject_Z (hi * (k + Z.of_nat (length xs))))%Q.
Proof.
  induction xs as [|x rest IH]; intros acc k Hhi Hk Hin H0 H1 Hb.
  - exists acc. split; [reflexivity|]. split; [exact H0|].
    cbn [length]. now replace (k + Z.of_nat 0) with k by lia.
  - cbn [length] in Hb |- *. rewrite Nat2Z.inj_succ in Hb |- *.
    destruct (Hin x (or_introl eq_refl)) as [Hx0 Hx1].
    destruct (le_between _ _ _ Hx0 Hx1) as (q & -> & Hq0 & Hq1).
    cbn [fold_left]. unfold add at 2.
    assert (Hsum : (acc + q <= inject_Z (hi * (k + 1)))%Q).
    { replace (hi * (k + 1)) with (hi * k + hi) by lia. rewrite inject_Z_plus. lra. }
    destruct (round64_between (acc + q) (hi * (k + 1))) as (v & -> & Hv0 & Hv1);
      [nia|lra|exact Hsum|].
    destruct (IH v (k + 1) Hhi ltac:(lia) (fun y Hy => Hin y (or_intror Hy)) Hv0 Hv1)
      as (s & Es & Hs0 & Hs1); [nia|].
    exists s. split; [exact Es|]. split; [exact Hs0|].
    now replace (k + Z.succ (Z.of_nat (length rest)))
      with (k + 1 + Z.of_nat (length rest)) by lia.
Qed.

Lemma calculateAverage_bounded (hi : Z) (series : list (option number)) :
  0 <= hi <= 2 ^ 53 ->
  (forall x, In (Some x) series -> le (Fin 0) x /\ le x (Fin (inject_Z hi))) ->
  hi * Z.of_nat (length series) <= 2 ^ 53 ->
  exists a, calculateAverage series = Fin a /\ (0 <= a)%Q /\ (a <= inject_Z hi)%Q.
Proof.
  intros Hhi Hin Hlen.
  destruct (Spec.dropNull series) as [|x rest] eqn:E.
  - rewrite (calculateAverage_nulls _ E). exists 0%Q. split; [reflexivity|].
    split; [apply Qle_refl|]. change 0%Q with (inject_Z 0). rewrite <- Zle_Qle. lia.
  - rewrite (calculateAverage_values _ _ _ E).
    pose proof (dropNull_length series) as Hl. rewrite E in Hl.
    destruct (fold_add_bounded hi (x :: rest) 0 0) as (s & -> & Hs0 & Hs1);
      [lia|lia| |apply Qle_refl| |nia|].
    + intros y Hy. apply Hin, dropNull_In. now rewrite E.
    + rewrite Z.mul_0_r. apply Qle_refl.
    + rewrite (div_count s x rest).
      pose proof (length_pos_Q x rest) as Hn.
      rewrite Z.add_0_l, inject_Z_mult in Hs1.
      apply round64_between; [exact Hhi| |].
      * apply Qle_shift_div_l; [exact Hn|]. lra.
      * apply Qle_shift_div_r; [exact Hn|]. exact Hs1.
Qed.

Lemma Math_round_bounded (a : Q) (hi : Z) :
  (0 <= a)%Q -> (a <= inject_Z hi)%Q ->
  exists k : Z, Math_round (Fin a) = Fin (inject_Z k) /\ 0 <= k <= hi.
Proof.
  intros H0 H1. exists (roundHalfUp a). split; [reflexivity|]. split.
  - now apply roundHalfUp_nonneg.
  - unfold roundHalfUp. rewrite <- (Qfloor_Z hi). 
    assert (H : Qfloor (a + (1 # 2)) <= Qfloor (inject_Z hi + (1 # 2)))
      by (apply Qfloor_resp_le; lra).
    assert (E : Qfloor (inject_Z hi + (1 # 2)) = hi).
    { assert (Hlo : hi <= Qfloor (inject_Z hi + (1 # 2))).
      { rewrite <- (Qfloor_Z hi) at 1. apply Qfloor_resp_le. lra. }
      pose proof (Qfloor_le (inject_Z hi + (1 # 2))) as Hup.
      assert (Hlt : (inject_Z (Qfloor (inject_Z hi + (1 # 2))) < inject_Z (hi + 1))%Q).
      { rewrite inject_Z_plus. change (inject_Z 1) with 1%Q. lra. }
      rewrite <- Zlt_Qlt in Hlt. lia. }
    rewrite Qfloor_Z. lia.
Qed.

(** Humidity and cloud cover given in percent stay percentages: when the
    non-null hourly values lie between 0 and 100, the two numbers of the
    summary are integers between 0 and 100.  The series are arrays, of
    fewer than [2 ^ 32] entries. *)
Theorem summarize_percentages :
  forall (date now : string) (hourly : Hourly),
    (forall x, In (Some x) (relative_humidity_2m hourly) ->
               le (Fin 0) x /\ le x (Fin 100)) ->
    (forall x, In (Some x) (cloud_cover hourly) -> le (Fin 0) x /\ le x (Fin 100)) ->
    Z.of_nat (length (relative_humidity_2m hourly)) < 2 ^ 32 ->
    Z.of_nat (length (cloud_cover hourly)) < 2 ^ 32 ->
    exists h c : Z,
      humidity (summarize date now hourly) = Fin (inject_Z h)
      /\ cloudCover (summarize date now hourly) = Fin (inject_Z c)
      /\ 0 <= h <= 100 /\ 0 <= c <= 100.
Proof.
  intros date now hourly Hh Hc Lh Lc.
  change (humidity (summarize date now hourly))
    with (Math_round (calculateAverage (relative_humidity_2m hourly))).
  change (cloudCover (summarize date now hourly))
    with (Math_round (calculateAverage (cloud_cover hourly))).
  destruct (calculateAverage_bounded 100 (relative_humidity_2m hourly))
    as (a & -> & Ha0 & Ha1); [lia|exact Hh|lia|].
  destruct (calculateAverage_bounded 100 (cloud_cover hourly))
    as (b & -> & Hb0 & Hb1); [lia|exact Hc|lia|].
  destruct (Math_round_bounded a 100 Ha0 Ha1) as (h & -> & Hh').
  destruct (Math_round_bounded b 100 Hb0 Hb1) as (c & -> & Hc').
  exists h, c. auto.
Qed.

Ltac in_series :=
  let x := fresh "x" in
  let Hx := fresh "Hx" in
  intros x Hx; cbn in Hx;
  repeat (destruct Hx as [Hx|Hx];
          [try discriminate Hx; injection Hx as <-; split; discriminate|]);
  destruct Hx.

Lemma summarize_percentages_witness :
  exists h c : Z,
    humidity (summarize "2024-05-01" "2024-06-01T00:00:00.000Z" sampleDay)
    = Fin (inject_Z h)
    /\ cloudCover (summarize "2024-05-01" "2024-06-01T00:00:00.000Z" sampleDay)
       = Fin (inject_Z c)
    /\ 0 <= h <= 100 /\ 0 <= c <= 100.
Proof.
  apply summarize_percentages; [in_series|in_series|reflexivity|reflexivity].
Defined.

(** *** Precipitation and the condition of the day *)

(** A binary64 value above 0 is at least the least subnormal number. *)
Lemma binary64_positive (q : Q) :
  binary64 (Fin q) -> (0 < q)%Q -> (pow2 (-1074) <= q)%Q.
Proof.
  intros Hb Hq. destruct (binary64_Fin q Hb) as (v & Ev & Hv).
  rewrite (round64_pos q Hq), roundPos_eq in Ev.
  destruct (Qle_bool _ _); [discriminate|]. injection Ev as Ev.
  rewrite <- Hv, <- Ev, Qred_correct. unfold valPos.
  set (e := expPos (Qred q)). set (m := rne (Qred q / pow2 e)).
  assert (Hm : 0 < m).
  { assert (Hpos : (0 < inject_Z m * pow2 e)%Q).
    { fold m e in Ev. unfold valPos in Ev. fold e m in Ev.
      rewrite <- (Qred_correct (inject_Z m * pow2 e)), Ev, Hv. exact Hq. }
    destruct (Z_lt_le_dec 0 m) as [H|H]; [exact H|exfalso].
    rewrite Zle_Qle in H. change (inject_Z 0) with 0%Q in H.
    pose proof (pow2_pos e) as Pe.
    assert (inject_Z m * pow2 e <= 0 * pow2 e)%Q
      by (apply Qmult_le_compat_r; [exact H|lra]).
    lra. }
  assert (Hm1 : (1 <= inject_Z m)%Q).
  { change 1%Q with (inject_Z 1). rewrite <- Zle_Qle. lia. }
  assert (He : (pow2 (-1074) <= pow2 e)%Q) by (apply pow2_le; unfold e, expPos; lia).
  pose proof (pow2_pos e) as Pe.
  assert (1 * pow2 e <= inject_Z m * pow2 e)%Q
    by (apply Qmult_le_compat_r; [exact Hm1|lra]).
  lra.
Qed.

Lemma round64_least : round64 (pow2 (-1074)) = Fin (pow2 (-1074)).
Proof. vm_compute. reflexivity. Qed.

(** A value that is 0, or at least the least subnormal number, or
    [Infinity]: what sums of such values are. *)
Lemma add_positive (a b : number) :
  le (Fin 0) a -> (gt a (Fin 0) = true -> le (Fin (pow2 (-1074))) a) ->
  le (Fin 0) b -> (gt b (Fin 0) = true -> le (Fin (pow2 (-1074))) b) ->
  le (Fin 0) (add a b)
  /\ (gt (add a b) (Fin 0) = true -> le (Fin (pow2 (-1074))) (add a b))
  /\ (gt (add a b) (Fin 0) = true <-> gt a (Fin 0) = true \/ gt b (Fin 0) = true).
Proof.
  intros Ha Ha' Hb Hb'.
  destruct a as [x| | |], b as [y| | |]; simpl in Ha, Hb; try tauto;
    try (cbn; split; [exact I|split; [intros _; exact I|tauto]]).
  unfold add.
  assert (Hsum : (0 <= x + y)%Q) by lra.
  pose proof (round64_mono _ _ Hsum) as H0. rewrite round64_0 in H0.
  split; [exact H0|].
  destruct (Qlt_le_dec 0 (x + y)) as [Hpos|Hzero].
  - assert (Hmin : (pow2 (-1074) <= x + y)%Q).
    { destruct (Qlt_le_dec 0 x) as [Hx|Hx].
      - assert (G : le (Fin (pow2 (-1074))) (Fin x)) by (apply Ha', gt_Fin, Hx).
        unfold le in G. lra.
      - assert (Hy : (0 < y)%Q) by lra.
        assert (G : le (Fin (pow2 (-1074))) (Fin y)) by (apply Hb', gt_Fin, Hy).
        unfold le in G. lra. }
    pose proof (round64_mono _ _ Hmin) as Hr. rewrite round64_least in Hr.
    split; [intros _; exact Hr|].
    assert (Hgt : gt (round64 (x + y)) (Fin 0) = true).
    { pose proof (pow2_pos (-1074)) as P.
      destruct (round64 (x + y)) as [r| | |]; unfold le in Hr;
        [apply gt_Fin; lra|reflexivity|destruct Hr|destruct Hr]. }
    split; [intros _|intros _; exact Hgt].
    destruct (Qlt_le_dec 0 x) as [Hx|Hx]; [left|right]; apply gt_Fin; lra.
  - assert (E : (x + y == 0)%Q) by lra.
    rewrite (round64_zero _ E).
    split; [intros H; discriminate H|].
    split; [intros H; discriminate H|].
    intros [H|H]; apply gt_Fin in H; lra.
Qed.

Lemma orZero_positive (val : option number) :
  (forall x, val = Some x -> binary64 x /\ le (Fin 0) x) ->
  le (Fin 0) (orZero val)
  /\ (gt (orZero val) (Fin 0) = true -> le (Fin (pow2 (-1074))) (orZero val))
  /\ (gt (orZero val) (Fin 0) = true <-> exists x, val = Some x /\ gt x (Fin 0) = true).
Proof.
  intros H. destruct val as [x|].
  - destruct (H x eq_refl) as [Hb Hx].
    destruct x as [q| | |]; simpl in Hx; try tauto.
    + cbn [orZero]. split; [exact Hx|]. split.
      * intros G. apply gt_Fin in G. unfold le. now apply binary64_positive.
      * split; [intros G; now exists (Fin q)|]. now intros (y & [= <-] & G).
    + cbn [orZero]. split; [exact I|]. split; [intros _; exact I|].
      split; [intros G; now exists PosInf|reflexivity].
  - cbn [orZero]. split; [apply Qle_refl|]. split; [intros G; discriminate G|].
    split; [intros G; discriminate G|]. now intros (y & [=] & _).
Qed.

Lemma totalPrecip_positive (series : list (option number)) :
  forall acc : number,
    (forall x, In (Some x) series -> binary64 x /\ le (Fin 0) x) ->
    le (Fin 0) acc -> (gt acc (Fin 0) = true -> le (Fin (pow2 (-1074))) acc) ->
    gt (fold_left (fun sum val => add sum (orZero val)) series acc) (Fin 0) = true
    <-> gt acc (Fin 0) = true \/ exists x, In (Some x) series /\ gt x (Fin 0) = true.
Proof.
  induction series as [|val rest IH]; intros acc Hin Ha Ha'; cbn [fold_left].
  - split; [now left|]. intros [H|(x & [] & _)]. exact H.
  - destruct (orZero_positive val) as (Hv & Hv' & Hviff).
    { intros x ->. apply Hin. now left. }
    destruct (add_positive acc (orZero val) Ha Ha' Hv Hv') as (Hs & Hs' & Hsiff).
    rewrite (IH (add acc (orZero val)) (fun x Hx => Hin x (or_intror Hx)) Hs Hs').
    rewrite Hsiff, Hviff. split.
    + intros [[H|(x & -> & G)]|(x & Hx & G)].
      * now left.
      * right. exists x. split; [now left|exact G].
      * right. exists x. split; [now right|exact G].
    + intros [H|(x & [->|Hx] & G)].
      * left. now left.
      * left. right. now exists x.
      * right. now exists x.
Qed.

(** With hourly precipitation that is never negative, the day is classed
    as rain (rainy or light_rain) exactly when some hour has precipitation
    above 0, whatever the cloud cover. *)
Theorem summarize_rain :
  forall (date now : string) (hourly : Hourly),
    (forall x, In (Some x) (hourly_precipitation hourly) ->
               binary64 x /\ le (Fin 0) x) ->
    (In (condition (summarize date now hourly)) ["rainy"; "light_rain"]
     <-> exists x, In (Some x) (hourly_precipitation hourly) /\ gt x (Fin 0) = true).
Proof.
  intros date now hourly Hin.
  set (series := hourly_precipitation hourly) in *.
  set (total := fold_left (fun sum val => add sum (orZero val)) series (Fin 0)).
  assert (Hpos : gt total (Fin 0) = true
                 <-> exists x, In (Some x) series /\ gt x (Fin 0) = true).
  { unfold total. rewrite (totalPrecip_positive series (Fin 0) Hin).
    - split; [intros [H|H]; [discriminate H|exact H]|now right].
    - apply Qle_refl.
    - intros H. discriminate H. }
  rewrite <- Hpos.
  change (condition (summarize date now hourly))
    with (code (determineCondition total (calculateAverage (cloud_cover hourly)))).
  unfold determineCondition.
  destruct (gt total (Fin 10)) eqn:E10.
  { split; [intros _|intros _; now left].
    destruct total as [t| | |]; try discriminate E10; [|reflexivity].
    apply gt_Fin in E10. apply gt_Fin. lra. }
  destruct (gt total (Fin 0)) eqn:E0.
  { split; [reflexivity|intros _; right; now left]. }
  split; [|intros H; discriminate H].
  destruct (gt _ (Fin 75)); [|destruct (gt _ (Fin 30))]; cbn;
    intros [H|[H|[]]]; discriminate H.
Qed.

Lemma summarize_rain_witness :
  In (condition (summarize "2024-05-01" "2024-06-01T00:00:00.000Z" sampleDay))
     ["rainy"; "light_rain"]
  <-> exists x, In (Some x) (hourly_precipitation sampleDay) /\ gt x (Fin 0) = true.
Proof.
  apply summarize_rain.
  intros x Hx. cbn in Hx.
  repeat (destruct Hx as [Hx|Hx];
          [try discriminate Hx; injection Hx as <-;
           split; try (vm_compute; reflexivity); discriminate|]).
  destruct Hx.
Defined.

(** *** Sectors of the compass *)

(** Each label covers the 45 degrees around its direction: from 22.5
    degrees before [45 * k] (included) to 22.4 degrees after it the label
    is the one of index [k mod 8]; so N from -22.5 degrees on.  (Next to
    22.5 degrees after it, the rounding of the quotient decides.) *)
Theorem getWindDirection_sector :
  forall (d : Q) (k : Z),
    0 <= k < 2 ^ 40 ->
    (45 * inject_Z k - 22.5 <= d)%Q -> (d <= 45 * inject_Z k + 22.4)%Q ->
    getWindDirection (Fin d) = nth_error directions (Z.to_nat (k mod 8)).
Proof.
  intros d k Hk Hlo Hhi. apply getWindDirection_in_sector; [exact Hk|exact Hlo|lra].
Qed.

Lemma getWindDirection_sector_witness :
  getWindDirection (Fin 300) = nth_error directions (Z.to_nat (7 mod 8)).
Proof.
  apply (getWindDirection_sector 300 7); [split; [lia|reflexivity]|discriminate|discriminate].
Defined.

(** A full turn, added as the code adds, does not change the label of a
    direction that is in a sector as above. *)
Theorem getWindDirection_full_turn :
  forall (d : Q) (k : Z),
    0 <= k < 2 ^ 40 - 8 ->
    (45 * inject_Z k - 22.5 <= d)%Q -> (d <= 45 * inject_Z k + 22.4)%Q ->
    exists turned : Q,
      add (Fin d) (Fin 360) = Fin turned
      /\ getWindDirection (Fin turned) = getWindDirection (Fin d).
Proof.
  intros d k Hk Hlo Hhi.
  assert (H40 : 2 ^ 40 = 1099511627776) by reflexivity.
  assert (Hq1 : (inject_Z (90 * (k + 8) - 45) / inject_Z (2 ^ 1) <= d + 360)%Q).
  { rewrite inject_Z_minus, inject_Z_mult, inject_Z_plus.
    change (inject_Z (2 ^ 1)) with 2%Q. change (inject_Z 90) with 90%Q.
    change (inject_Z 8) with 8%Q. change (inject_Z 45) with 45%Q.
    apply Qle_shift_div_r; [reflexivity|]. lra. }
  assert (Hq2 : (d + 360 <= inject_Z (1440 * (k + 8) + 717) / inject_Z (2 ^ 5))%Q).
  { rewrite inject_Z_plus, inject_Z_mult, inject_Z_plus.
    change (inject_Z (2 ^ 5)) with 32%Q. change (inject_Z 1440) with 1440%Q.
    change (inject_Z 8) with 8%Q. change (inject_Z 717) with 717%Q.
    apply Qle_shift_div_l; [reflexivity|]. lra. }
  pose proof (round64_mono _ _ Hq1) as L. pose proof (round64_mono _ _ Hq2) as U.
  destruct (round64_dyadic (90 * (k + 8) - 45) 1) as (v1 & E1 & Hv1); [lia|lia|].
  destruct (round64_dyadic (1440 * (k + 8) + 717) 5) as (v2 & E2 & Hv2); [lia|lia|].
  rewrite E1 in L. rewrite E2 in U.
  destruct (le_between _ _ _ L U) as (t & Et & Ht & Ht').
  exists t. split; [exact Et|].
  rewrite (getWindDirection_in_sector d k); [|lia|exact Hlo|lra].
  rewrite (getWindDirection_in_sector t (k + 8)); [|lia| |].
  - replace (k + 8) with (k + 1 * 8) by lia. now rewrite Z.mod_add by lia.
  - rewrite Hv1 in Ht. rewrite inject_Z_minus, inject_Z_mult in Ht.
    change (inject_Z (2 ^ 1)) with 2%Q in Ht. change (inject_Z 90) with 90%Q in Ht.
    change (inject_Z 45) with 45%Q in Ht.
    assert (F : ((90 * inject_Z (k + 8) - 45) / 2 == 45 * inject_Z (k + 8) - 22.5)%Q)
      by (field; discriminate).
    lra.
  - rewrite Hv2 in Ht'. rewrite inject_Z_plus, inject_Z_mult in Ht'.
    change (inject_Z (2 ^ 5)) with 32%Q in Ht'.
    change (inject_Z 1440) with 1440%Q in Ht'. change (inject_Z 717) with 717%Q in Ht'.
    assert (F : ((1440 * inject_Z (k + 8) + 717) / 32
                 == 45 * inject_Z (k + 8) + (717 # 32))%Q) by (field; discriminate).
    lra.
Qed.

Lemma getWindDirection_full_turn_witness :
  exists turned : Q,
    add (Fin 90) (Fin 360) = Fin turned
    /\ getWindDirection (Fin turned) = getWindDirection (Fin 90).
Proof.
  apply (getWindDirection_full_turn 90 2);
    [split; [lia|reflexivity]|discriminate|discriminate].
Defined.

(** *** The compass *)

(** Hourly wind directions between 0 and 360 degrees give a direction of
    the summary that is an integer between 0 and 360, and one of the eight
    labels: the label is never undefined.  The series is an array, of
    fewer than [2 ^ 32] entries. *)
Theorem summarize_wind_direction :
  forall (date now : string) (hourly : Hourly),
    (forall x, In (Some x) (wind_direction_10m hourly) ->
               le (Fin 0) x /\ le x (Fin 360)) ->
    Z.of_nat (length (wind_direction_10m hourly)) < 2 ^ 32 ->
    (exists k : Z,
       direction (wind (summarize date now hourly)) = Fin (inject_Z k)
       /\ 0 <= k <= 360)
    /\ exists label : string,
         directionText (wind (summarize date now hourly)) = Some label
         /\ In label directions.
Proof.
  intros date now hourly Hin Hlen.
  change (direction (wind (summarize date now hourly)))
    with (Math_round (calculateAverage (wind_direction_10m hourly))).
  change (directionText (wind (summarize date now hourly)))
    with (getWindDirection (calculateAverage (wind_direction_10m hourly))).
  destruct (calculateAverage_bounded 360 (wind_direction_10m hourly))
    as (a & -> & Ha0 & Ha1); [lia|exact Hin|lia|].
  split; [now apply Math_round_bounded|].
  destruct (getWindDirection_nonneg a Ha0) as (q & _ & _ & _ & Hlabel); [|exact Hlabel].
  eapply Qle_lt_trans; [exact Ha1|]. reflexivity.
Qed.

Lemma summarize_wind_direction_witness :
  (exists k : Z,
     direction (wind (summarize "2024-05-01" "2024-06-01T00:00:00.000Z" sampleDay))
     = Fin (inject_Z k)
     /\ 0 <= k <= 360)
  /\ exists label : string,
       directionText (wind (summarize "2024-05-01" "2024-06-01T00:00:00.000Z"
                              sampleDay)) = Some label
       /\ In label directions.
Proof.
  apply summarize_wind_direction; [in_series|reflexivity].
Defined.

(** *** The archive client and the fetch of an edition *)

Section FetchMore.

Variable archive : ArchiveParams -> ArchiveAnswer.
Variable toISOString : Z -> string.

Local Abbreviation fetch' := (fetchWeatherForEdition archive toISOString).
Local Abbreviation client := (getHistoricalWeather archive toISOString).

Lemma client_eq (w : World) (lat lon : number) (date : string) :
  client w lat lon date
  = let w' := {| editions := editions w; now := now w;
                 requests := requests w ++ [paramsOf lat lon date] |} in
    match archive (paramsOf lat lon date) with
    | Data None =>
        (Throw (WeatherUnavailableError "No weather data available for this date"), w')
    | Data (Some h) => (Return (summarize date (toISOString (now w)) h), w')
    | Rejected status msg =>
        if bool_decide (status = Some 404) then
          (Throw (WeatherUnavailableError
                    "Weather data not available for this location/date"), w')
        else (Throw (WeatherFetchError msg), w')
    end.
Proof. reflexivity. Qed.

(** One call of the client sends one request, for the one day asked, and
    does not touch the table.  It answers a summary exactly when the
    archive gives hourly data; otherwise it throws with status 404 (no
    hourly data, or a 404 of the archive) or 500 (any other rejection). *)
Theorem getHistoricalWeather_outcome :
  forall (w : World) (lat lon : number) (date : string),
    editions (snd (client w lat lon date)) = editions w
    /\ requests (snd (client w lat lon date))
       = requests w ++ [paramsOf lat lon date]
    /\ ((exists h, archive (paramsOf lat lon date) = Data (Some h)
                   /\ fst (client w lat lon date)
                      = Return (summarize date (toISOString (now w)) h))
        \/ ((forall h, archive (paramsOf lat lon date) <> Data (Some h))
            /\ exists e, fst (client w lat lon date) = Throw e
                         /\ (statusCode e = 404 \/ statusCode e = 500)
                         /\ (statusCode e = 404 <->
                             archive (paramsOf lat lon date) = Data None
                             \/ exists msg, archive (paramsOf lat lon date)
                                            = Rejected (Some 404) msg))).
Proof.
  intros w lat lon date. rewrite client_eq. cbv zeta.
  destruct (archive (paramsOf lat lon date)) as [[h|]|status msg] eqn:E.
  - repeat split. left. eauto.
  - repeat split. right. split; [discriminate|].
    eexists. split; [reflexivity|]. cbn. split; [now left|]. split; auto.
  - destruct (bool_decide (status = Some 404)) eqn:D.
    + apply bool_decide_eq_true_1 in D as ->. repeat split. right.
      split; [discriminate|]. eexists. split; [reflexivity|]. cbn.
      split; [now left|]. split; eauto.
    + apply bool_decide_eq_false_1 in D. repeat split. right.
      split; [discriminate|]. eexists. split; [reflexivity|]. cbn.
      split; [now right|]. split; [discriminate|].
      intros [H|[m H]]; [discriminate H|]. injection H as H _. contradiction.
Qed.

Lemma client_requests (w : World) (lat lon : number) (date : string) :
  snd (client w lat lon date)
  = {| editions := editions w; now := now w;
       requests := requests w ++ [paramsOf lat lon date] |}.
Proof.
  rewrite client_eq. cbv zeta.
  destruct (archive _) as [[h|]|status msg]; [reflexivity|reflexivity|].
  destruct (bool_decide _); reflexivity.
Qed.

Lemma client_Return (w : World) (lat lon : number) (date : string)
    (weather : EditionWeather) :
  fst (client w lat lon date) = Return weather <->
  exists h, archive (paramsOf lat lon date) = Data (Some h)
            /\ weather = summarize date (toISOString (now w)) h.
Proof.
  rewrite client_eq. cbv zeta.
  destruct (archive _) as [[h|]|status msg].
  - cbn. split; [intros [= <-]; eauto|]. now intros (h' & [= <-] & ->).
  - cbn. split; [discriminate|]. now intros (h' & [=] & _).
  - destruct (bool_decide _); cbn; (split; [discriminate|]);
      now intros (h' & [=] & _).
Qed.

(** The shape of a fetch that has passed the three guards. *)
Lemma fetchAndStore_cases (w : World) (editionId : string) (edition : Edition)
    (lat lon : number) :
  (exists h,
     archive (paramsOf lat lon (dayOf toISOString edition)) = Data (Some h)
     /\ fetchAndStore archive toISOString w editionId edition lat lon
        = (Return (stored edition (summarize (dayOf toISOString edition) (toISOString (now w)) h),
                   summarize (dayOf toISOString edition) (toISOString (now w)) h),
           {| editions :=
                <[editionId := stored edition
                                 (summarize (dayOf toISOString edition) (toISOString (now w)) h)]>
                  (editions w);
              now := now w;
              requests := requests w ++ [paramsOf lat lon (dayOf toISOString edition)] |}))
  \/ ((forall h, archive (paramsOf lat lon (dayOf toISOString edition)) <> Data (Some h))
      /\ exists e,
           fetchAndStore archive toISOString w editionId edition lat lon
           = (Throw e,
              {| editions := editions w; now := now w;
                 requests := requests w ++ [paramsOf lat lon (dayOf toISOString edition)] |})
           /\ (statusCode e = 404 \/ statusCode e = 500)).
Proof.
  unfold fetchAndStore. fold (dayOf toISOString edition).
  rewrite client_eq. cbv zeta.
  destruct (archive _) as [[h|]|status msg].
  - left. exists h. split; reflexivity.
  - right. split; [discriminate|]. eexists. split; [reflexivity|]. now left.
  - right. split; [discriminate|].
    destruct (bool_decide _); eexists; (split; [reflexivity|]); cbn; auto.
Qed.

Lemma fetch_guards (w : World) (editionId : string) (force : bool) :
  (editions w !! editionId = None
   /\ fetch' w editionId force = (Throw NotFoundError, w))
  \/ exists edition,
       editions w !! editionId = Some edition
       /\ ((weatherFetched edition = true /\ force = false
            /\ fetch' w editionId force = (Throw AlreadyFetchedError, w))
           \/ ((weatherFetched edition = false \/ force = true)
               /\ now w < startDate edition
               /\ fetch' w editionId force = (Throw FutureDateError, w))
           \/ ((weatherFetched edition = false \/ force = true)
               /\ startDate edition <= now w
               /\ fetch' w editionId force
                  = match resolveCoordinates edition with
                    | Throw e => (Throw e, w)
                    | Return (lon, lat) =>
                        fetchAndStore archive toISOString w editionId edition lat lon
                    end)).
Proof.
  unfold fetchWeatherForEdition.
  destruct (editions w !! editionId) as [edition|]; [right|now left].
  exists edition. split; [reflexivity|].
  destruct (weatherFetched edition) eqn:F, force eqn:G; cbn [andb negb].
  2: { left. auto. }
  all: right; destruct (Z.ltb_spec (now w) (startDate edition));
    [left|right]; auto.
Qed.

Lemma resolveCoordinates_status (edition : Edition) (e : AppError) :
  resolveCoordinates edition = Throw e -> statusCode e = 400 \/ statusCode e = 500.
Proof.
  unfold resolveCoordinates, parseLocation.
  repeat match goal with
         | |- context [if ?b then _ else _] => destruct b
         | |- context [matchPoint ?s] => destruct (matchPoint s) as [[? ?]|]
         end; intros [= <-]; cbn; auto.
Qed.

(** A fetch that throws has written nothing: the table of editions is as
    before.  Its status is 400, 404 or 500, and it has sent at most one
    request, none at all when the edition is missing, already fetched,
    in the future, without a location or with a malformed one. *)
Theorem fetchWeatherForEdition_failure :
  forall (w w' : World) (editionId : string) (force : bool) (e : AppError),
    fetch' w editionId force = (Throw e, w') ->
    editions w' = editions w
    /\ now w' = now w
    /\ In (statusCode e) [400; 404; 500]
    /\ (requests w' = requests w
        \/ exists params,
             requests w' = requests w ++ [params]
             /\ forall h, archive params <> Data (Some h)).
Proof.
  intros w w' editionId force e Hrun.
  destruct (fetch_guards w editionId force)
    as [[_ E]|(edition & _ & [(_ & _ & E)|[(_ & _ & E)|(_ & _ & E)]])];
    rewrite E in Hrun.
  1-3: injection Hrun as <- <-; cbn; auto 10.
  destruct (resolveCoordinates edition) as [[lon lat]|err] eqn:R.
  - destruct (fetchAndStore_cases w editionId edition lat lon)
      as [(h & _ & E')|(Hno & err & E' & Hstatus)];
      rewrite E' in Hrun; [discriminate Hrun|].
    injection Hrun as <- <-. cbn. repeat split.
    + destruct Hstatus as [-> | ->]; auto.
    + right. eauto.
  - injection Hrun as <- <-. repeat split.
    + destruct (resolveCoordinates_status _ _ R) as [-> | ->]; cbn; auto.
    + now left.
Qed.

Lemma fetch_Return (w w' : World) (editionId : string) (force : bool)
    (updated : Edition) (weather : EditionWeather) :
  fetch' w editionId force = (Return (updated, weather), w') ->
  exists (edition : Edition) (lat lon : number) (h : Hourly),
    editions w !! editionId = Some edition
    /\ (weatherFetched edition = false \/ force = true)
    /\ startDate edition <= now w
    /\ resolveCoordinates edition = Return (lon, lat)
    /\ archive (paramsOf lat lon (dayOf toISOString edition)) = Data (Some h)
    /\ weather = summarize (dayOf toISOString edition) (toISOString (now w)) h
    /\ updated = stored edition weather
    /\ w' = {| editions := <[editionId := updated]> (editions w);
               now := now w;
               requests := requests w
                           ++ [paramsOf lat lon (dayOf toISOString edition)] |}.
Proof.
  intros Hrun.
  destruct (fetch_guards w editionId force)
    as [[_ E]|(edition & Hfind & [(_ & _ & E)|[(_ & _ & E)|(Hpass & Hpast & E)]])];
    rewrite E in Hrun; try discriminate Hrun.
  destruct (resolveCoordinates edition) as [[lon lat]|err] eqn:R;
    [|discriminate Hrun].
  destruct (fetchAndStore_cases w editionId edition lat lon)
    as [(h & Hdata & E')|(_ & err & E' & _)];
    rewrite E' in Hrun; [|discriminate Hrun].
  injection Hrun as <- <- <-.
  exists edition, lat, lon, h. repeat split; auto.
Qed.

(** A fetch that returns has passed the three guards and has had hourly
    data from the archive, asked once for the day of the edition.  It
    returns the summary of that data, stamped with the present time, and
    the edition with that summary stored and the flag set; in the table
    that edition, and no other, is replaced. *)
Theorem fetchWeatherForEdition_success :
  forall (w w' : World) (editionId : string) (force : bool)
         (updated : Edition) (weather : EditionWeather),
    fetch' w editionId force = (Return (updated, weather), w') ->
    exists (edition : Edition) (lat lon : number) (h : Hourly),
      editions w !! editionId = Some edition
      /\ (weatherFetched edition = false \/ force = true)
      /\ startDate edition <= now w
      /\ resolveCoordinates edition = Return (lon, lat)
      /\ archive (paramsOf lat lon (dayOf toISOString edition)) = Data (Some h)
      /\ weather = summarize (dayOf toISOString edition) (toISOString (now w)) h
      /\ updated = stored edition weather
      /\ editions w' !! editionId = Some updated
      /\ (forall other, other <> editionId ->
            editions w' !! other = editions w !! other)
      /\ now w' = now w
      /\ requests w' = requests w ++ [paramsOf lat lon (dayOf toISOString edition)].
Proof.
  intros w w' editionId force updated weather Hrun.
  destruct (fetch_Return _ _ _ _ _ _ Hrun)
    as (edition & lat & lon & h & Hfind & Hpass & Hpast & R & Hdata & Hw & Hu & ->).
  exists edition, lat, lon, h. cbn [editions now requests].
  repeat split; auto.
  - apply lookup_insert_eq.
  - intros other Hother. now apply lookup_insert_ne.
Qed.

(** Whether a fetch returns is decided by the stored edition, the clock
    and the archive: the edition exists, is not yet fetched or the call is
    forced, does not start in the future, has coordinates that can be read,
    and the archive has hourly data for them on that day. *)
Theorem fetchWeatherForEdition_returns_iff :
  forall (w : World) (editionId : string) (force : bool),
    (exists r w', fetch' w editionId force = (Return r, w'))
    <-> exists (edition : Edition) (lat lon : number) (h : Hourly),
          editions w !! editionId = Some edition
          /\ (weatherFetched edition = false \/ force = true)
          /\ startDate edition <= now w
          /\ resolveCoordinates edition = Return (lon, lat)
          /\ archive (paramsOf lat lon (dayOf toISOString edition)) = Data (Some h).
Proof.
  intros w editionId force. split.
  - intros ([updated weather] & w' & Hrun).
    destruct (fetch_guards w editionId force)
      as [[_ E]|(edition & Hfind & [(_ & _ & E)|[(_ & _ & E)|(Hpass & Hpast & E)]])];
      rewrite E in Hrun; try discriminate Hrun.
    destruct (resolveCoordinates edition) as [[lon lat]|err] eqn:R;
      [|discriminate Hrun].
    destruct (fetchAndStore_cases w editionId edition lat lon)
      as [(h & Hdata & E')|(_ & err & E' & _)];
      rewrite E' in Hrun; [|discriminate Hrun].
    exists edition, lat, lon, h. auto.
  - intros (edition & lat & lon & h & Hfind & Hpass & Hpast & R & Hdata).
    destruct (fetch_guards w editionId force)
      as [[Hnone _]|(edition' & Hfind' & Hcases)]; [congruence|].
    assert (edition' = edition) as -> by congruence.
    destruct Hcases as [(Hf & Hforce & _)|[(_ & Hfuture & _)|(_ & _ & E)]].
    + destruct Hpass; congruence.
    + lia.
    + rewrite E, R.
      destruct (fetchAndStore_cases w editionId edition lat lon)
        as [(h' & _ & E')|(Hno & _)]; [|now destruct (Hno h)].
      rewrite E'. eauto.
Qed.

(** Once a fetch has returned, the same call without [force] is refused as
    already fetched and sends nothing. *)
Theorem fetchWeatherForEdition_then_refused :
  forall (w w' : World) (editionId : string) (force : bool)
         (r : Edition * EditionWeather),
    fetch' w editionId force = (Return r, w') ->
    fetch' w' editionId false = (Throw AlreadyFetchedError, w').
Proof.
  intros w w' editionId force [updated weather] Hrun.
  destruct (fetch_Return _ _ _ _ _ _ Hrun)
    as (edition & lat & lon & h & _ & _ & _ & _ & _ & _ & -> & ->).
  unfold fetchWeatherForEdition. cbn [editions].
  now rewrite lookup_insert_eq.
Qed.

End FetchMore.

Section FetchCompose.

Variable archive : ArchiveParams -> ArchiveAnswer.
Variable toISOString : Z -> string.

Local Abbreviation fetch'' := (fetchWeatherForEdition archive toISOString).

(** After a fetch that returned, a forced fetch at the same time of the
    clock, with the archive answering as before, returns the same pair and
    leaves the same table: a forced refetch depends on the archive and the
    clock only. *)
Theorem fetchWeatherForEdition_forced_again :
  forall (w w' : World) (editionId : string) (force : bool)
         (r : Edition * EditionWeather),
    fetch'' w editionId force = (Return r, w') ->
    exists w'',
      fetch'' w' editionId true = (Return r, w'')
      /\ editions w'' = editions w'
      /\ exists params, requests w' = requests w ++ [params]
                        /\ requests w'' = requests w' ++ [params].
Proof.
  intros w w' editionId force [updated weather] Hrun.
  destruct (fetch_Return archive toISOString _ _ _ _ _ _ Hrun)
    as (edition & lat & lon & h & Hfind & Hpass & Hpast & R & Hdata & Hw & Hu & ->).
  destruct (fetch_guards archive toISOString
              {| editions := <[editionId := updated]> (editions w); now := now w;
                 requests := requests w
                             ++ [paramsOf lat lon (dayOf toISOString edition)] |}
              editionId true)
    as [[Hnone _]|(e' & Hfind' & Hcases)];
    cbn [editions now requests] in *.
  { now rewrite lookup_insert_eq in Hnone. }
  rewrite lookup_insert_eq in Hfind'. injection Hfind' as <-.
  destruct Hcases as [(_ & [=] & _)|[(_ & Hfuture & _)|(_ & _ & E)]].
  { subst updated. cbn in Hfuture. lia. }
  rewrite E. subst updated.
  change (resolveCoordinates (stored edition weather))
    with (resolveCoordinates edition). rewrite R.
  destruct (fetchAndStore_cases archive toISOString
              {| editions := <[editionId := stored edition weather]> (editions w);
                 now := now w;
                 requests := requests w
                             ++ [paramsOf lat lon (dayOf toISOString edition)] |}
              editionId (stored edition weather) lat lon)
    as [(h' & Hdata' & E')|(Hno & _)];
    change (dayOf toISOString (stored edition weather))
      with (dayOf toISOString edition) in *;
    [|now destruct (Hno h)].
  rewrite E'. cbn [editions now requests].
  assert (h' = h) as -> by congruence. rewrite <- Hw.
  eexists. split; [reflexivity|]. cbn [editions requests]. split.
  - now rewrite insert_insert_eq.
  - eexists. split; reflexivity.
Qed.

(** What a reader sees after a fetch.  When the fetch returned,
    [getEditionWeather] gives the stored summary with the flag set for
    that edition; whether it returned or threw, every other edition reads
    as before, and after a throw so does that one. *)
Theorem getEditionWeather_after_fetch :
  forall (w w' : World) (editionId : string) (force : bool)
         (r : outcome (Edition * EditionWeather)),
    fetch'' w editionId force = (r, w') ->
    (forall other, other <> editionId ->
       getEditionWeather w' other = getEditionWeather w other)
    /\ match r with
       | Return (updated, weather) =>
           exists view,
             getEditionWeather w' editionId = Return view
             /\ view_weather view = Some weather
             /\ view_weatherFetched view = true
             /\ exists before,
                  getEditionWeather w editionId = Return before
                  /\ view_edition view = view_edition before
       | Throw _ => getEditionWeather w' editionId = getEditionWeather w editionId
       end.
Proof.
  intros w w' editionId force [[updated weather]|e] Hrun.
  - destruct (fetch_Return archive toISOString _ _ _ _ _ _ Hrun)
      as (edition & lat & lon & h & Hfind & _ & _ & _ & _ & _ & -> & ->).
    unfold getEditionWeather. cbn [editions]. split.
    + intros other Hother. now rewrite lookup_insert_ne.
    + rewrite lookup_insert_eq, Hfind.
      eexists. split; [reflexivity|]. cbn. repeat split. eauto.
  - assert (E : editions w' = editions w).
    { destruct (fetch_guards archive toISOString w editionId force)
        as [[_ E]|(edition & _ & [(_ & _ & E)|[(_ & _ & E)|(_ & _ & E)]])];
        rewrite E in Hrun; try (now injection Hrun as _ <-).
      destruct (resolveCoordinates edition) as [[lon lat]|err];
        [|now injection Hrun as _ <-].
      destruct (fetchAndStore_cases archive toISOString w editionId edition lat lon)
        as [(h & _ & E')|(_ & err & E' & _)]; rewrite E' in Hrun;
        [discriminate Hrun|now injection Hrun as _ <-]. }
    unfold getEditionWeather. rewrite E. auto.
Qed.

(** From the stored text to the request: for a location of the form
    [POINT(<lon> <lat>)] with two signed decimal numbers, a fetch that
    passes the guards asks the archive once, at latitude [<lat>] and
    longitude [<lon>] (the second and the first number of the text). *)
Theorem fetchWeatherForEdition_asks_at_location :
  forall (w : World) (editionId : string) (edition : Edition) (force : bool)
         (lon lat : Spec.Decimal),
    editions w !! editionId = Some edition ->
    weatherFetched edition = false \/ force = true ->
    startDate edition <= now w ->
    Spec.wellFormed lon -> Spec.wellFormed lat ->
    location edition = Some (Spec.pointText lon lat) ->
    exists qlon qlat : Q,
      requests (snd (fetch'' w editionId force))
      = requests w ++ [paramsOf (Fin qlat) (Fin qlon) (dayOf toISOString edition)]
      /\ (qlon == Spec.decimalValue lon)%Q
      /\ (qlat == Spec.decimalValue lat)%Q.
Proof.
  intros w editionId edition force lon lat Hfind Hpass Hpast Hlon Hlat Hloc.
  destruct (parseFloat_decimalText lon Hlon) as (qlon & Elon & Hqlon).
  destruct (parseFloat_decimalText lat Hlat) as (qlat & Elat & Hqlat).
  exists qlon, qlat. split; [|auto].
  destruct (fetch_guards archive toISOString w editionId force)
    as [[Hnone _]|(e' & Hfind' & Hcases)]; [congruence|].
  assert (e' = edition) as -> by congruence.
  destruct Hcases as [(Hf & Hforce & _)|[(_ & Hfuture & _)|(_ & _ & E)]];
    [destruct Hpass; congruence|lia|].
  rewrite E. unfold resolveCoordinates. rewrite Hloc.
  change (truthy (Some (Spec.pointText lon lat))) with true. cbv iota.
  change (default EmptyString (Some (Spec.pointText lon lat)))
    with (Spec.pointText lon lat).
  rewrite parseLocation_pointText, Elon, Elat by assumption.
  destruct (fetchAndStore_cases archive toISOString w editionId edition
              (Fin qlat) (Fin qlon))
    as [(h & _ & E')|(_ & err & E' & _)]; now rewrite E'.
Qed.

End FetchCompose.

Lemma fetchWeatherForEdition_failure_witness :
  editions (snd (fetchWeatherForEdition emptyArchive isoDay
                   (sampleWorld madridEdition) "ed1" false))
  = editions (sampleWorld madridEdition)
  /\ In 404 [400; 404; 500].
Proof.
  destruct (fetchWeatherForEdition_failure emptyArchive isoDay
              (sampleWorld madridEdition)
              (snd (fetchWeatherForEdition emptyArchive isoDay
                      (sampleWorld madridEdition) "ed1" false))
              "ed1" false
              (WeatherUnavailableError "No weather data available for this date")
              eq_refl) as (Htable & _ & Hstatus & _).
  split; [exact Htable|exact Hstatus].
Defined.

Lemma fetchWeatherForEdition_success_witness :
  exists (updated : Edition) (weather : EditionWeather) (w' : World),
    fetchWeatherForEdition sampleArchive isoDay (sampleWorld madridEdition) "ed1" false
    = (Return (updated, weather), w')
    /\ editions w' !! "ed1" = Some updated
    /\ updated = stored madridEdition weather.
Proof.
  destruct (fetchWeatherForEdition sampleArchive isoDay (sampleWorld madridEdition)
              "ed1" false) as [[[updated weather]|e] w'] eqn:Hrun;
    [|vm_compute in Hrun; discriminate Hrun].
  destruct (fetchWeatherForEdition_success sampleArchive isoDay _ _ _ _ _ _ Hrun)
    as (edition & lat & lon & h & Hfind & _ & _ & _ & _ & _ & Hu & Hstored & _).
  injection Hfind as <-.
  exists updated, weather, w'. auto.
Defined.

Lemma fetchWeatherForEdition_then_refused_witness :
  fetchWeatherForEdition sampleArchive isoDay
    (snd (fetchWeatherForEdition sampleArchive isoDay
            (sampleWorld madridEdition) "ed1" false)) "ed1" false
  = (Throw AlreadyFetchedError,
     snd (fetchWeatherForEdition sampleArchive isoDay
            (sampleWorld madridEdition) "ed1" false)).
Proof.
  destruct (fetchWeatherForEdition sampleArchive isoDay (sampleWorld madridEdition)
              "ed1" false) as [[r|e] w'] eqn:Hrun;
    [|vm_compute in Hrun; discriminate Hrun].
  exact (fetchWeatherForEdition_then_refused sampleArchive isoDay _ _ _ _ _ Hrun).
Defined.

Lemma fetchWeatherForEdition_forced_again_witness :
  exists w'',
    fst (fetchWeatherForEdition sampleArchive isoDay
           (snd (fetchWeatherForEdition sampleArchive isoDay
                   (sampleWorld madridEdition) "ed1" false)) "ed1" true)
    = fst (fetchWeatherForEdition sampleArchive isoDay
             (sampleWorld madridEdition) "ed1" false)
    /\ editions w''
       = editions (snd (fetchWeatherForEdition sampleArchive isoDay
                          (sampleWorld madridEdition) "ed1" false)).
Proof.
  destruct (fetchWeatherForEdition sampleArchive isoDay (sampleWorld madridEdition)
              "ed1" false) as [[r|e] w'] eqn:Hrun;
    [|vm_compute in Hrun; discriminate Hrun].
  destruct (fetchWeatherForEdition_forced_again sampleArchive isoDay _ _ _ _ _ Hrun)
    as (w'' & E & Htable & _).
  exists w''. cbn [fst snd]. rewrite E. auto.
Defined.

Lemma getEditionWeather_after_fetch_witness :
  getEditionWeather
    (snd (fetchWeatherForEdition sampleArchive isoDay
            (sampleWorld madridEdition) "ed1" false)) "ed2"
  = getEditionWeather (sampleWorld madridEdition) "ed2".
Proof.
  apply (proj1 (getEditionWeather_after_fetch sampleArchive isoDay
                  (sampleWorld madridEdition) _ "ed1" false _ eq_refl)).
  discriminate.
Defined.

Lemma fetchWeatherForEdition_asks_at_location_witness :
  exists qlon qlat : Q,
    requests (snd (fetchWeatherForEdition sampleArchive isoDay
                     (sampleWorld madridEdition) "ed1" false))
    = requests (sampleWorld madridEdition)
      ++ [paramsOf (Fin qlat) (Fin qlon) (dayOf isoDay madridEdition)]
    /\ (qlon == Spec.decimalValue lonMadrid)%Q
    /\ (qlat == Spec.decimalValue latMadrid)%Q.
Proof.
  apply (fetchWeatherForEdition_asks_at_location sampleArchive isoDay
           (sampleWorld madridEdition) "ed1" madridEdition false
           lonMadrid latMadrid).
  - reflexivity.
  - left. reflexivity.
  - discriminate.
  - repeat split; discriminate.
  - repeat split; discriminate.
  - reflexivity.
Defined.

(** *** Runs that are not numbers *)

Lemma span_no_digit (s : string) :
  Spec.allIn (fun c => negb (isDigit c)) s = true ->
  span isDigit s = (EmptyString, s).
Proof.
  destruct s as [|c s]; [reflexivity|]. cbn.
  intros H. apply andb_prop in H as [Hc _]. apply negb_true_iff in Hc.
  now rewrite Hc.
Qed.

Lemma allIn_tail (p : ascii -> bool) (c : ascii) (s : string) :
  Spec.allIn p (String c s) = true -> Spec.allIn p s = true.
Proof. cbn. intros H. now apply andb_prop in H as [_ H]. Qed.

Lemma parseFloat_no_digit (g : string) :
  Spec.allIn (fun c => negb (isDigit c)) g = true -> parseFloat g = NaN.
Proof.
  intros Hg. unfold parseFloat.
  assert (Hbody : Spec.allIn (fun c => negb (isDigit c)) (snd (stripMinus g)) = true
                  /\ stripMinus g = (fst (stripMinus g), snd (stripMinus g))).
  { split; [|now destruct (stripMinus g)].
    destruct g as [|c g]; [reflexivity|].
    pose proof (allIn_tail _ _ _ Hg) as Htail.
    destruct c as [[] [] [] [] [] [] [] []]; try exact Hg; exact Htail. }
  destruct Hbody as [Hbody ->]. rewrite (span_no_digit _ Hbody).
  destruct (snd (stripMinus g)) as [|c r]; [reflexivity|].
  pose proof (allIn_tail _ _ _ Hbody) as Hr.
  destruct c as [[] [] [] [] [] [] [] []]; try reflexivity.
  now rewrite (span_no_digit _ Hr).
Qed.

(** The pattern asks for runs of digits, points and minus signs, not for
    numbers: a text whose two runs hold no digit at all is accepted, and
    both coordinates are [NaN]. *)
Theorem parseLocation_no_digit :
  forall owner g1 g2 : string,
    g1 <> EmptyString -> g2 <> EmptyString ->
    Spec.allIn isCoordChar g1 = true -> Spec.allIn isCoordChar g2 = true ->
    Spec.allIn (fun c => negb (isDigit c)) g1 = true ->
    Spec.allIn (fun c => negb (isDigit c)) g2 = true ->
    parseLocation owner ("POINT(" +:+ g1 +:+ " " +:+ g2 +:+ ")")
    = Return (NaN, NaN).
Proof.
  intros owner g1 g2 Hne1 Hne2 Hrun1 Hrun2 Hno1 Hno2.
  unfold parseLocation. change ")" with (")" +:+ "").
  rewrite (matchPoint_here _ (g1, g2))
    by (apply matchAt_complete; auto using Spaces_space).
  now rewrite (parseFloat_no_digit g1 Hno1), (parseFloat_no_digit g2 Hno2).
Qed.

Lemma parseLocation_no_digit_witness :
  parseLocation "edition" ("POINT(" +:+ "-." +:+ " " +:+ ".-" +:+ ")")
  = Return (NaN, NaN).
Proof.
  apply parseLocation_no_digit; (discriminate || reflexivity).
Defined.

(** *** Admin operations: effects, failures and sequences *)

Lemma append_inv_head (s a b : string) : s +:+ a = s +:+ b -> a = b.
Proof.
  induction s as [|c s IH]; cbn; [auto|]. intros [= E]. auto.
Qed.

Section AdminMore.
Import CompetitionAdminService.

Lemma approve_cases (w : World) (competitionId adminId : string)
    (data : option ApproveCompetitionData) :
  (competitions w !! competitionId = None
   /\ approveCompetition w competitionId adminId data
      = (Throw "Competition not found", w))
  \/ exists competition,
       competitions w !! competitionId = Some competition
       /\ ((status competition <> DRAFT
            /\ approveCompetition w competitionId adminId data
               = (Throw "Only DRAFT competitions can be approved", w))
           \/ (status competition = DRAFT
               /\ exists line,
                    approveCompetition w competitionId adminId data
                    = (Return
                         (update competition (Some PUBLISHED)
                            (if truthy (data ≫= adminNotes)
                             then Some (description competition +:+ adminNotesMark
                                        +:+ default EmptyString (data ≫= adminNotes))
                             else None)),
                       {| competitions :=
                            <[competitionId :=
                                update competition (Some PUBLISHED)
                                  (if truthy (data ≫= adminNotes)
                                   then Some (description competition
                                              +:+ adminNotesMark
                                              +:+ default EmptyString
                                                    (data ≫= adminNotes))
                                   else None)]> (competitions w);
                          invalidated :=
                            invalidated w ++ ["competition:" +:+ competitionId;
                                              "competitions:list"];
                          logged := logged w ++ [(info, line)] |}))).
Proof.
  unfold approveCompetition.
  destruct (competitions w !! competitionId) as [competition|]; [right|now left].
  exists competition. split; [reflexivity|].
  destruct (bool_decide (status competition ≠ DRAFT)) eqn:D.
  - left. apply bool_decide_eq_true_1 in D. auto.
  - right. apply bool_decide_eq_false_1 in D.
    split; [now destruct (decide (status competition = DRAFT))|].
    eexists. reflexivity.
Qed.

Lemma reject_cases (w : World) (competitionId adminId : string)
    (data : RejectCompetitionData) :
  (competitions w !! competitionId = None
   /\ rejectCompetition w competitionId adminId data
      = (Throw "Competition not found", w))
  \/ exists competition,
       competitions w !! competitionId = Some competition
       /\ ((status competition <> DRAFT
            /\ rejectCompetition w competitionId adminId data
               = (Throw "Only DRAFT competitions can be rejected", w))
           \/ (status competition = DRAFT
               /\ exists line,
                    rejectCompetition w competitionId adminId data
                    = (Return
                         (update competition None
                            (Some (description competition +:+ rejectedMark
                                   +:+ rejectionReason data))),
                       {| competitions :=
                            <[competitionId :=
                                update competition None
                                  (Some (description competition +:+ rejectedMark
                                         +:+ rejectionReason data))]>
                              (competitions w);
                          invalidated := invalidated w;
                          logged := logged w ++ [(warn, line)] |}))).
Proof.
  unfold rejectCompetition.
  destruct (competitions w !! competitionId) as [competition|]; [right|now left].
  exists competition. split; [reflexivity|].
  destruct (bool_decide (status competition ≠ DRAFT)) eqn:D.
  - left. apply bool_decide_eq_true_1 in D. auto.
  - right. apply bool_decide_eq_false_1 in D.
    split; [now destruct (decide (status competition = DRAFT))|].
    eexists. reflexivity.
Qed.

Lemma update_cases (w : World) (competitionId : string)
    (newStatus : CompetitionStatus) (adminId : string) :
  (competitions w !! competitionId = None
   /\ updateCompetitionStatus w competitionId newStatus adminId
      = (Throw "Competition not found", w))
  \/ exists competition line,
       competitions w !! competitionId = Some competition
       /\ updateCompetitionStatus w competitionId newStatus adminId
          = (Return (update competition (Some newStatus) None),
             {| competitions :=
                  <[competitionId := update competition (Some newStatus) None]>
                    (competitions w);
                invalidated :=
                  invalidated w ++ ["competition:" +:+ competitionId;
                                    "competitions:list"];
                logged := logged w ++ [(info, line)] |}).
Proof.
  unfold updateCompetitionStatus.
  destruct (competitions w !! competitionId) as [competition|]; [right|now left].
  eexists _, _. split; reflexivity.
Qed.

(** On a competition in DRAFT, [approveCompetition] publishes it: the row
    it leaves has status PUBLISHED and, when notes that are not empty were
    given, the description followed by the mark of the notes and the
    notes, else the description as it was.  No other column and no other
    row changes, and the two keys of the cache, that of the competition and
    that of the list, are invalidated in this order. *)
Theorem approveCompetition_effect :
  forall (w : World) (competitionId adminId : string)
         (data : option ApproveCompetitionData) (competition : Competition),
    competitions w !! competitionId = Some competition ->
    status competition = DRAFT ->
    exists (updated : Competition) (w' : World),
      approveCompetition w competitionId adminId data = (Return updated, w')
      /\ competitions w' !! competitionId = Some updated
      /\ status updated = PUBLISHED
      /\ (forall notes, data ≫= adminNotes = Some notes -> notes <> EmptyString ->
            description updated = description competition +:+ adminNotesMark +:+ notes)
      /\ (truthy (data ≫= adminNotes) = false ->
            description updated = description competition)
      /\ id updated = id competition
      /\ organizer updated = organizer competition
      /\ columns updated = columns competition
      /\ (forall other, other <> competitionId ->
            competitions w' !! other = competitions w !! other)
      /\ invalidated w'
         = invalidated w ++ ["competition:" +:+ competitionId; "competitions:list"].
Proof.
  intros w competitionId adminId data competition Hfind Hdraft.
  destruct (approve_cases w competitionId adminId data)
    as [[Hnone _]|(c & Hc & [(Hne & _)|(_ & line & E)])]; [congruence| |].
  { assert (c = competition) by congruence. subst c. contradiction. }
  assert (c = competition) by congruence. subst c.
  rewrite E. eexists _, _. split; [reflexivity|]. cbn [competitions invalidated].
  split; [apply lookup_insert_eq|]. split; [reflexivity|].
  repeat split.
  - intros notes Hnotes Hne. rewrite Hnotes.
    destruct notes; [congruence|reflexivity].
  - intros Hfalsy. now rewrite Hfalsy.
  - intros other Hother. now apply lookup_insert_ne.
Qed.

(** An admin operation that throws has changed nothing: the world it
    leaves is the world it found.  [updateCompetitionStatus] throws only
    for a competition that is not in the table; the two others throw also
    for one that is not in DRAFT. *)
Theorem admin_failure_atomic :
  forall (w w' : World) (competitionId adminId msg : string),
    (forall data,
       approveCompetition w competitionId adminId data = (Throw msg, w') ->
       w' = w /\ (competitions w !! competitionId = None
                  \/ exists c, competitions w !! competitionId = Some c
                               /\ status c <> DRAFT))
    /\ (forall data,
          rejectCompetition w competitionId adminId data = (Throw msg, w') ->
          w' = w /\ (competitions w !! competitionId = None
                     \/ exists c, competitions w !! competitionId = Some c
                                  /\ status c <> DRAFT))
    /\ (forall newStatus,
          updateCompetitionStatus w competitionId newStatus adminId = (Throw msg, w') ->
          w' = w /\ competitions w !! competitionId = None).
Proof.
  intros w w' competitionId adminId msg. split; [|split].
  - intros notes Hrun.
    destruct (approve_cases w competitionId adminId notes)
      as [[Hnone E]|(c & Hc & [(Hne & E)|(_ & line & E)])];
      rewrite E in Hrun; try discriminate Hrun; injection Hrun as _ <-; eauto.
  - intros reason Hrun.
    destruct (reject_cases w competitionId adminId reason)
      as [[Hnone E]|(c & Hc & [(Hne & E)|(_ & line & E)])];
      rewrite E in Hrun; try discriminate Hrun; injection Hrun as _ <-; eauto.
  - intros newStatus Hrun.
    destruct (update_cases w competitionId newStatus adminId)
      as [[Hnone E]|(c & line & Hc & E)];
      rewrite E in Hrun; try discriminate Hrun; injection Hrun as _ <-; eauto.
Qed.

(** Approval is final for the two guarded operations: once
    [approveCompetition] has returned, approving or rejecting the same
    competition throws, whoever asks and whatever the notes or the reason. *)
Theorem approveCompetition_final :
  forall (w w' : World) (competitionId adminId : string)
         (data : option ApproveCompetitionData) (updated : Competition),
    approveCompetition w competitionId adminId data = (Return updated, w') ->
    (forall admin2 data2,
       approveCompetition w' competitionId admin2 data2
       = (Throw "Only DRAFT competitions can be approved", w'))
    /\ (forall admin2 data2,
          rejectCompetition w' competitionId admin2 data2
          = (Throw "Only DRAFT competitions can be rejected", w')).
Proof.
  intros w w' competitionId adminId data updated Hrun.
  destruct (approve_cases w competitionId adminId data)
    as [[_ E]|(c & _ & [(_ & E)|(_ & line & E)])];
    rewrite E in Hrun; try discriminate Hrun.
  injection Hrun as <- <-.
  split; intros admin2 data2.
  - unfold approveCompetition. cbn [competitions].
    now rewrite lookup_insert_eq.
  - unfold rejectCompetition. cbn [competitions].
    now rewrite lookup_insert_eq.
Qed.

(** Rejection is not final: once [rejectCompetition] has returned the
    competition is still in DRAFT, so that it can be rejected again, which
    appends the second reason after the first, and it can be approved,
    which publishes it with the reason of the rejection left in its
    description. *)
Theorem rejectCompetition_then :
  forall (w w' : World) (competitionId adminId : string)
         (data : RejectCompetitionData) (updated : Competition),
    rejectCompetition w competitionId adminId data = (Return updated, w') ->
    (forall admin2 data2,
       exists again w'',
         rejectCompetition w' competitionId admin2 data2 = (Return again, w'')
         /\ status again = DRAFT
         /\ description again
            = description updated +:+ rejectedMark +:+ rejectionReason data2)
    /\ (forall admin2,
          exists published w'',
            approveCompetition w' competitionId admin2 None = (Return published, w'')
            /\ status published = PUBLISHED
            /\ description published = description updated).
Proof.
  intros w w' competitionId adminId data updated Hrun.
  destruct (reject_cases w competitionId adminId data)
    as [[_ E]|(c & _ & [(_ & E)|(Hdraft & line & E)])];
    rewrite E in Hrun; try discriminate Hrun.
  injection Hrun as <- <-.
  split.
  - intros admin2 data2. unfold rejectCompetition. cbn [competitions].
    rewrite lookup_insert_eq. cbn [update status default].
    rewrite bool_decide_eq_false_2 by (intros Hne; now apply Hne).
    eexists _, _. split; [reflexivity|]. cbn. auto.
  - intros admin2. unfold approveCompetition. cbn [competitions].
    rewrite lookup_insert_eq. cbn [update status default].
    rewrite bool_decide_eq_false_2 by (intros Hne; now apply Hne).
    eexists _, _. split; [reflexivity|]. cbn. auto.
Qed.

(** Approving a draft without notes writes what setting its status to
    PUBLISHED writes: the two calls leave the same table and the same
    invalidations, and the rows they return have the same columns.  They
    differ by the line they log.  The organizer that the row returned by
    the approval carries is not compared: the other call does not ask the
    database for it. *)
Theorem approveCompetition_as_update :
  forall (w : World) (competitionId adminId : string) (competition : Competition),
    competitions w !! competitionId = Some competition ->
    status competition = DRAFT ->
    exists (approved changed : Competition) (w1 w2 : World),
      approveCompetition w competitionId adminId None = (Return approved, w1)
      /\ updateCompetitionStatus w competitionId PUBLISHED adminId
         = (Return changed, w2)
      /\ id approved = id changed
      /\ status approved = PUBLISHED
      /\ status changed = PUBLISHED
      /\ description approved = description changed
      /\ columns approved = columns changed
      /\ competitions w1 = competitions w2
      /\ invalidated w1 = invalidated w2
      /\ logged w1 <> logged w2.
Proof.
  intros w competitionId adminId competition Hfind Hdraft.
  unfold approveCompetition, updateCompetitionStatus. rewrite Hfind.
  rewrite bool_decide_eq_false_2 by (intros Hne; now apply Hne).
  eexists _, _, _, _. split; [reflexivity|]. split; [reflexivity|].
  cbn [id status description columns update default competitions invalidated
       logged mbind option_bind truthy].
  repeat (split; [reflexivity|]).
  intros E. apply app_inv_head in E. injection E as E.
  apply append_inv_head in E. discriminate E.
Qed.

(** The last status written wins: setting a status and then another
    leaves the table that setting the second one alone leaves, and
    returns the same row. *)
Theorem updateCompetitionStatus_last_wins :
  forall (w : World) (competitionId admin1 admin2 : string)
         (s1 s2 : CompetitionStatus) (competition : Competition),
    competitions w !! competitionId = Some competition ->
    fst (updateCompetitionStatus
           (snd (updateCompetitionStatus w competitionId s1 admin1))
           competitionId s2 admin2)
    = fst (updateCompetitionStatus w competitionId s2 admin2)
    /\ competitions
         (snd (updateCompetitionStatus
                 (snd (updateCompetitionStatus w competitionId s1 admin1))
                 competitionId s2 admin2))
       = competitions (snd (updateCompetitionStatus w competitionId s2 admin2)).
Proof.
  intros w competitionId admin1 admin2 s1 s2 competition Hfind.
  unfold updateCompetitionStatus. rewrite Hfind. cbn [snd competitions].
  rewrite lookup_insert_eq. cbn [fst snd competitions]. split; [reflexivity|].
  now rewrite insert_insert_eq.
Qed.

End AdminMore.

(** *** Listings and their pages *)

Lemma flat_map_ext_In {A B} (f g : A -> list B) (l : list A) :
  (forall a, In a l -> f a = g a) -> flat_map f l = flat_map g l.
Proof.
  induction l as [|a l IH]; intros H; cbn; [reflexivity|].
  rewrite (H a) by now left. f_equal. apply IH. intros b Hb. apply H. now right.
Qed.

Lemma pages_concat {A} (xs : list A) (l k : nat) :
  flat_map (fun p => take l (drop ((p - 1) * l) xs)) (seq 1 k) = take (k * l) xs.
Proof.
  induction k as [|k IH]; [reflexivity|].
  rewrite seq_S, flat_map_app, IH. cbn [flat_map]. rewrite app_nil_r.
  replace ((1 + k - 1) * l)%nat with (k * l)%nat by lia.
  rewrite take_take_drop. f_equal. lia.
Qed.

Lemma pageCount_bounds (total : nat) (limit : Z) :
  1 <= limit ->
  exists k : Z,
    CompetitionAdminService.pageCount total limit = Fin (inject_Z k)
    /\ Z.of_nat total <= k * limit
    /\ (k - 1) * limit < Z.of_nat total.
Proof.
  intros Hlimit. unfold CompetitionAdminService.pageCount.
  destruct (Z.eqb_spec limit 0) as [->|_]; [lia|].
  set (q := (inject_Z (Z.of_nat total) / inject_Z limit)%Q).
  exists (Qceiling q). split; [reflexivity|].
  assert (Hl : (0 < inject_Z limit)%Q).
  { change 0%Q with (inject_Z 0). rewrite <- Zlt_Qlt. lia. }
  assert (Hq : (q * inject_Z limit == inject_Z (Z.of_nat total))%Q).
  { unfold q. field. lra. }
  pose proof (Qle_ceiling q) as Hup. pose proof (Qceiling_lt q) as Hdown.
  split.
  - rewrite Zle_Qle, inject_Z_mult, <- Hq.
    apply Qmult_le_compat_r; [exact Hup|lra].
  - rewrite Zlt_Qlt, inject_Z_mult, <- Hq.
    apply Qmult_lt_compat_r; [exact Hl|exact Hdown].
Qed.

Section Pages.
Import CompetitionAdminService.

Variable byCreatedAtDesc : list Competition -> list Competition.
Hypothesis byCreatedAtDesc_Permutation : forall l, byCreatedAtDesc l ≡ₚ l.

Lemma rows_lookup (w : World) (c : Competition) :
  c ∈ rows w <-> exists key, competitions w !! key = Some c.
Proof.
  unfold rows. rewrite list_elem_of_fmap. split.
  - intros ([key c'] & -> & Hin). apply elem_of_map_to_list in Hin. eauto.
  - intros (key & Hkey). exists (key, c). split; [reflexivity|].
    now apply elem_of_map_to_list.
Qed.

Lemma findMany_spec (w : World) (P : Competition -> Prop)
    `{!forall c, Decision (P c)} (page limit : Z) :
  1 <= page -> 1 <= limit ->
  findMany byCreatedAtDesc w P ((page - 1) * limit) limit
  = take (Z.to_nat limit)
      (drop ((Z.to_nat page - 1) * Z.to_nat limit)
         (byCreatedAtDesc (filter P (rows w)))).
Proof.
  intros Hpage Hlimit. unfold findMany. do 2 f_equal.
  rewrite Z2Nat.inj_mul, Z2Nat.inj_sub by lia. reflexivity.
Qed.

Lemma length_matching (w : World) (P : Competition -> Prop)
    `{!forall c, Decision (P c)} :
  length (byCreatedAtDesc (filter P (rows w))) = count w P.
Proof. unfold count. now rewrite byCreatedAtDesc_Permutation. Qed.

(** One page of the competitions awaiting approval, for a page number and
    a page size of 1 or more: it holds rows of the table in DRAFT only, as
    many as the size allows of those left after the pages before it, and
    its total is the number of rows in DRAFT. *)
Theorem getPendingCompetitions_page :
  forall (w : World) (page limit : Z),
    1 <= page -> 1 <= limit ->
    (forall c, c ∈ data (getPendingCompetitions byCreatedAtDesc w page limit) ->
               status c = DRAFT /\ exists key, competitions w !! key = Some c)
    /\ total (pagination (getPendingCompetitions byCreatedAtDesc w page limit))
       = length (filter (fun c => status c = DRAFT) (rows w))
    /\ Z.of_nat (length (data (getPendingCompetitions byCreatedAtDesc w page limit)))
       = Z.max 0
           (Z.min limit
              (Z.of_nat (total (pagination
                                  (getPendingCompetitions byCreatedAtDesc w page limit)))
               - (page - 1) * limit)).
Proof.
  intros w page limit Hpage Hlimit. unfold getPendingCompetitions.
  cbn [data pagination total paginate]. split; [|split; [reflexivity|]].
  - intros c Hc. unfold findMany in Hc.
    apply subseteq_take, subseteq_drop in Hc.
    rewrite byCreatedAtDesc_Permutation in Hc.
    apply list_elem_of_filter in Hc as [Hdraft Hrow].
    split; [exact Hdraft|now apply rows_lookup].
  - rewrite findMany_spec by assumption.
    rewrite length_take, length_drop, length_matching.
    assert (Hp : Z.of_nat ((Z.to_nat page - 1) * Z.to_nat limit) = (page - 1) * limit)
      by (rewrite Nat2Z.inj_mul, Nat2Z.inj_sub, !Z2Nat.id by lia; reflexivity).
    rewrite <- Hp. lia.
Qed.

(** The number of pages, for a page size of 1 or more, is the least
    number of pages of that size that hold all the rows counted, and a
    page is empty exactly when its number is beyond it. *)
Theorem getPendingCompetitions_pages :
  forall (w : World) (page limit : Z),
    1 <= page -> 1 <= limit ->
    exists k : Z,
      pages (pagination (getPendingCompetitions byCreatedAtDesc w page limit))
      = Fin (inject_Z k)
      /\ Z.of_nat (total (pagination
                            (getPendingCompetitions byCreatedAtDesc w page limit)))
         <= k * limit
      /\ (k - 1) * limit
         < Z.of_nat (total (pagination
                              (getPendingCompetitions byCreatedAtDesc w page limit)))
      /\ (data (getPendingCompetitions byCreatedAtDesc w page limit) = [] <-> k < page).
Proof.
  intros w page limit Hpage Hlimit. unfold getPendingCompetitions.
  cbn [data pagination total pages paginate].
  destruct (pageCount_bounds (count w (fun c => status c = DRAFT)) limit Hlimit)
    as (k & Hk & Hup & Hdown).
  exists k. split; [exact Hk|]. split; [exact Hup|]. split; [exact Hdown|].
  rewrite findMany_spec by assumption.
  rewrite <- length_zero_iff_nil, length_take, length_drop, length_matching.
  set (n := count w (fun c => status c = DRAFT)) in *.
  assert (Hp : Z.of_nat ((Z.to_nat page - 1) * Z.to_nat limit) = (page - 1) * limit)
    by (rewrite Nat2Z.inj_mul, Nat2Z.inj_sub, !Z2Nat.id by lia; reflexivity).
  split.
  - intros Hlen.
    assert (Hskip : Z.of_nat n <= (page - 1) * limit) by lia.
    destruct (Z.lt_ge_cases k page) as [Hlt|Hge]; [exact Hlt|]. nia.
  - intros Hlt.
    assert (Hskip : Z.of_nat n <= (page - 1) * limit) by nia. lia.
Qed.

(** The pages partition the listing: for a page size of 1 or more, the
    pages 1 to [k] one after the other are the rows in DRAFT in the order
    of the database, each of them once, as soon as [k] pages can hold the
    total. *)
Theorem getPendingCompetitions_pages_cover :
  forall (w : World) (limit : Z) (k : nat),
    1 <= limit ->
    Z.of_nat (count w (fun c => status c = DRAFT)) <= Z.of_nat k * limit ->
    flat_map (fun p => data (getPendingCompetitions byCreatedAtDesc w (Z.of_nat p) limit))
      (seq 1 k)
    = byCreatedAtDesc (filter (fun c => status c = DRAFT) (rows w)).
Proof.
  intros w limit k Hlimit Hk.
  rewrite (flat_map_ext_In _
             (fun p => take (Z.to_nat limit)
                         (drop ((p - 1) * Z.to_nat limit)
                            (byCreatedAtDesc
                               (filter (fun c => status c = DRAFT) (rows w)))))).
  - rewrite pages_concat. apply take_ge. rewrite length_matching. nia.
  - intros p Hp. apply in_seq in Hp. unfold getPendingCompetitions. cbn [data].
    rewrite findMany_spec by lia. now rewrite Nat2Z.id.
Qed.

(** The listing of one organizer holds rows of that organizer only, a
    page size at most, and its total counts the rows of that organizer. *)
Theorem getOrganizerCompetitions_page :
  forall (w : World) (organizerId : string) (page limit : Z),
    1 <= page -> 1 <= limit ->
    (forall c, c ∈ data (getOrganizerCompetitions byCreatedAtDesc w organizerId
                           page limit) ->
               organizer_id (organizer c) = organizerId
               /\ exists key, competitions w !! key = Some c)
    /\ Z.of_nat (length (data (getOrganizerCompetitions byCreatedAtDesc w organizerId
                                 page limit))) <= limit
    /\ total (pagination (getOrganizerCompetitions byCreatedAtDesc w organizerId
                            page limit))
       = length (filter (fun c => organizer_id (organizer c) = organizerId) (rows w))
    /\ (forall c key, competitions w !! key = Some c ->
          organizer_id (organizer c) = organizerId ->
          exists p, (1 <= p)%nat
                    /\ c ∈ data (getOrganizerCompetitions byCreatedAtDesc w organizerId
                                   (Z.of_nat p) limit)).
Proof.
  intros w organizerId page limit Hpage Hlimit. unfold getOrganizerCompetitions.
  cbn [data pagination total paginate].
  split; [|split; [|split; [reflexivity|]]].
  - intros c Hc. unfold findMany in Hc.
    apply subseteq_take, subseteq_drop in Hc.
    rewrite byCreatedAtDesc_Permutation in Hc.
    apply list_elem_of_filter in Hc as [Hmine Hrow].
    split; [exact Hmine|now apply rows_lookup].
  - unfold findMany. rewrite length_take. lia.
  - intros c key Hkey Hmine.
    set (P := fun c => organizer_id (organizer c) = organizerId).
    set (all := byCreatedAtDesc (filter P (rows w))).
    assert (Hin : c ∈ all).
    { unfold all. rewrite byCreatedAtDesc_Permutation.
      apply list_elem_of_filter. split; [exact Hmine|]. apply rows_lookup. eauto. }
    assert (Hcover : flat_map (fun p => take (Z.to_nat limit)
                                          (drop ((p - 1) * Z.to_nat limit) all))
                       (seq 1 (length all)) = all).
    { rewrite pages_concat. apply take_ge. nia. }
    rewrite <- Hcover in Hin. apply list_elem_of_In, in_flat_map in Hin.
    destruct Hin as (p & Hp & Hc). apply in_seq in Hp.
    exists p. split; [lia|]. rewrite findMany_spec by lia.
    rewrite Nat2Z.id. now apply list_elem_of_In.
Qed.

End Pages.

(** *** The dashboard *)

Section Dashboard.
Import CompetitionAdminService.

Lemma count_three (l : list Competition) :
  (length (filter (fun c => status c = PUBLISHED) l)
   + length (filter (fun c => status c = DRAFT) l)
   + length (filter (fun c => status c = CANCELLED) l)
   <= length l)%nat
  /\ ((length (filter (fun c => status c = PUBLISHED) l)
       + length (filter (fun c => status c = DRAFT) l)
       + length (filter (fun c => status c = CANCELLED) l)
       = length l)%nat
      <-> forall c, c ∈ l -> status c ∈ [PUBLISHED; DRAFT; CANCELLED]).
Proof.
  induction l as [|c l [IHle IHeq]].
  - split; [reflexivity|]. split; [intros _ c Hc; inversion Hc|reflexivity].
  - rewrite !filter_cons. cbn [length].
    assert (Hrest : (forall x, x ∈ c :: l -> status x ∈ [PUBLISHED; DRAFT; CANCELLED])
                    <-> status c ∈ [PUBLISHED; DRAFT; CANCELLED]
                        /\ forall x, x ∈ l -> status x ∈ [PUBLISHED; DRAFT; CANCELLED]).
    { split.
      - intros H. split; [apply H; left|intros x Hx; apply H; now right].
      - intros [Hc Hl] x Hx. apply elem_of_cons in Hx as [->|Hx]; auto. }
    rewrite Hrest.
    destruct (status c) eqn:E;
      repeat (match goal with
              | |- context [decide ?P] => destruct (decide P) as [?|?]; try congruence
              end);
      cbn [length]; (split; [lia|]).
    1-3: split;
      [intros Hsum; split; [apply list_elem_of_In; cbn; tauto|apply IHeq; lia]
      |intros [_ Hall]; apply IHeq in Hall; lia].
    split; [intros Hsum; lia|].
    intros [Hc _]. apply list_elem_of_In in Hc. cbn in Hc. intuition discriminate.
Qed.

(** The counts of the dashboard agree with each other and with the
    listing: published, draft and cancelled together never exceed the
    total, and reach it exactly when no competition has another status;
    the total is the size of the table; organizers are counted among the
    users; and the draft count is the total that the listing of pending
    competitions announces. *)
Theorem getAdminStats_consistent :
  forall (w : World) (users : list User),
    (stats_published (stats_competitions (getAdminStats w users))
     + stats_draft (stats_competitions (getAdminStats w users))
     + stats_cancelled (stats_competitions (getAdminStats w users))
     <= stats_total (stats_competitions (getAdminStats w users)))%nat
    /\ ((stats_published (stats_competitions (getAdminStats w users))
         + stats_draft (stats_competitions (getAdminStats w users))
         + stats_cancelled (stats_competitions (getAdminStats w users))
         = stats_total (stats_competitions (getAdminStats w users)))%nat
        <-> forall key c, competitions w !! key = Some c ->
                          status c ∈ [PUBLISHED; DRAFT; CANCELLED])
    /\ stats_total (stats_competitions (getAdminStats w users)) = size (competitions w)
    /\ (users_organizers (stats_users (getAdminStats w users))
        <= users_total (stats_users (getAdminStats w users)))%nat
    /\ forall order page limit,
         total (pagination (getPendingCompetitions order w page limit))
         = stats_draft (stats_competitions (getAdminStats w users)).
Proof.
  intros w users. cbn. unfold count.
  assert (Hall : filter (fun _ : Competition => True) (rows w) = rows w).
  { induction (rows w) as [|c l IH]; [reflexivity|].
    rewrite filter_cons_True by exact I. now rewrite IH. }
  rewrite Hall. destruct (count_three (rows w)) as [Hle Heq].
  split; [exact Hle|]. split; [|split; [|split; [apply length_filter|reflexivity]]].
  - rewrite Heq. split.
    + intros H key c Hkey. apply H. unfold rows. apply list_elem_of_fmap.
      exists (key, c). split; [reflexivity|now apply elem_of_map_to_list].
    + intros H c Hc. unfold rows in Hc. apply list_elem_of_fmap in Hc.
      destruct Hc as ([key c'] & -> & Hin). apply elem_of_map_to_list in Hin.
      now apply (H key).
  - unfold rows. now rewrite length_fmap, length_map_to_list.
Qed.

Lemma rows_replace (m : gmap string Competition) (key : string)
    (c c' : Competition) :
  m !! key = Some c ->
  exists rest,
    (map_to_list m).*2 ≡ₚ c :: rest
    /\ (map_to_list (<[key := c']> m)).*2 ≡ₚ c' :: rest.
Proof.
  intros Hkey. exists ((map_to_list (delete key m)).*2). split.
  - rewrite <- (map_to_list_delete m key c Hkey). reflexivity.
  - rewrite <- insert_delete_eq.
    rewrite map_to_list_insert by apply lookup_delete_eq. reflexivity.
Qed.

(** What the two decisions do to the dashboard: an approval moves one
    competition from the draft count to the published count and leaves
    the total and the cancelled count; a rejection changes no count. *)
Theorem getAdminStats_after_decision :
  forall (w w' : World) (competitionId adminId : string) (updated : Competition)
         (users : list User),
    (forall data,
       approveCompetition w competitionId adminId data = (Return updated, w') ->
       stats_total (stats_competitions (getAdminStats w' users))
       = stats_total (stats_competitions (getAdminStats w users))
       /\ S (stats_draft (stats_competitions (getAdminStats w' users)))
          = stats_draft (stats_competitions (getAdminStats w users))
       /\ stats_published (stats_competitions (getAdminStats w' users))
          = S (stats_published (stats_competitions (getAdminStats w users)))
       /\ stats_cancelled (stats_competitions (getAdminStats w' users))
          = stats_cancelled (stats_competitions (getAdminStats w users)))
    /\ (forall data,
          rejectCompetition w competitionId adminId data = (Return updated, w') ->
          stats_competitions (getAdminStats w' users)
          = stats_competitions (getAdminStats w users)).
Proof.
  intros w w' competitionId adminId updated users. split.
  - intros notes Hrun.
    destruct (approve_cases w competitionId adminId notes)
      as [[_ E]|(c & Hc & [(_ & E)|(Hdraft & line & E)])];
      rewrite E in Hrun; try discriminate Hrun.
    injection Hrun as <- <-.
    set (u := update c (Some PUBLISHED) _) in *.
    destruct (rows_replace (competitions w) competitionId c u Hc)
      as (rest & Hold & Hnew).
    cbn [getAdminStats stats_competitions stats_total stats_draft
         stats_published stats_cancelled]. unfold count, rows.
    cbn [competitions]. rewrite !Hnew, !Hold. rewrite !filter_cons.
    change (status u) with PUBLISHED.
    rewrite Hdraft. repeat case_decide; try tauto; try congruence; repeat split.
  - intros reason Hrun.
    destruct (reject_cases w competitionId adminId reason)
      as [[_ E]|(c & Hc & [(_ & E)|(Hdraft & line & E)])];
      rewrite E in Hrun; try discriminate Hrun.
    injection Hrun as <- <-.
    set (u := update c None _) in *.
    destruct (rows_replace (competitions w) competitionId c u Hc)
      as (rest & Hold & Hnew).
    cbn [getAdminStats stats_competitions]. unfold count, rows.
    cbn [competitions]. rewrite !Hnew, !Hold. rewrite !filter_cons.
    change (status u) with (status c).
    repeat case_decide; try tauto; try congruence; reflexivity.
Qed.

Variable byCreatedAtDesc : list Competition -> list Competition.
Hypothesis byCreatedAtDesc_Permutation : forall l, byCreatedAtDesc l ≡ₚ l.

(** The pending listing after a decision, for a page size of 1 or more.
    A competition that has been rejected is still on one of its pages,
    with the reason in its description, and the listing counts as many
    competitions as before.  A competition that has been approved is on
    none: the pending competitions of before are those of afterwards and
    the competition as it was, and the listing counts one less. *)
Theorem getPendingCompetitions_after_decision :
  forall (w w' : World) (competitionId adminId : string) (updated : Competition)
         (limit : Z),
    1 <= limit ->
    (forall reason,
       rejectCompetition w competitionId adminId reason = (Return updated, w') ->
       (exists p, (1 <= p)%nat
                  /\ updated ∈ data (getPendingCompetitions byCreatedAtDesc w'
                                       (Z.of_nat p) limit))
       /\ forall page,
            total (pagination (getPendingCompetitions byCreatedAtDesc w' page limit))
            = total (pagination (getPendingCompetitions byCreatedAtDesc w page limit)))
    /\ (forall notes,
          approveCompetition w competitionId adminId notes = (Return updated, w') ->
          (forall page,
             updated ∉ data (getPendingCompetitions byCreatedAtDesc w' page limit))
          /\ (exists competition,
                competitions w !! competitionId = Some competition
                /\ filter (fun c => status c = DRAFT) (rows w)
                   ≡ₚ competition :: filter (fun c => status c = DRAFT) (rows w'))
          /\ forall page,
               S (total (pagination
                           (getPendingCompetitions byCreatedAtDesc w' page limit)))
               = total (pagination
                          (getPendingCompetitions byCreatedAtDesc w page limit))).
Proof.
  intros w w' competitionId adminId updated limit Hlimit. split.
  - intros reason Hrun.
    destruct (reject_cases w competitionId adminId reason)
      as [[_ E]|(c & Hc & [(_ & E)|(Hdraft & line & E)])];
      rewrite E in Hrun; try discriminate Hrun.
    injection Hrun as <- <-.
    set (w' := {| competitions := _ |}).
    set (u := update c None _) in *.
    split.
    + set (all := byCreatedAtDesc (filter (fun c => status c = DRAFT) (rows w'))).
      assert (Hin : u ∈ all).
      { unfold all. rewrite byCreatedAtDesc_Permutation.
        apply list_elem_of_filter. split; [exact Hdraft|].
        unfold rows. apply list_elem_of_fmap. exists (competitionId, u).
        split; [reflexivity|]. apply elem_of_map_to_list. apply lookup_insert_eq. }
      assert (Hcover : flat_map (fun p => take (Z.to_nat limit)
                                            (drop ((p - 1) * Z.to_nat limit) all))
                         (seq 1 (length all)) = all).
      { rewrite pages_concat. apply take_ge. nia. }
      rewrite <- Hcover in Hin. apply list_elem_of_In, in_flat_map in Hin.
      destruct Hin as (p & Hp & Hu). apply in_seq in Hp.
      exists p. split; [lia|]. unfold getPendingCompetitions. cbn [data].
      rewrite findMany_spec by (assumption || lia).
      rewrite Nat2Z.id. now apply list_elem_of_In.
    + intros page.
      destruct (rows_replace (competitions w) competitionId c u Hc)
        as (rest & Hold & Hnew).
      cbn [getPendingCompetitions pagination paginate total]. unfold count, rows.
      cbn [competitions w']. rewrite Hnew, Hold. rewrite !filter_cons.
      change (status u) with (status c).
      repeat case_decide; try tauto; try congruence; reflexivity.
  - intros notes Hrun.
    destruct (approve_cases w competitionId adminId notes)
      as [[_ E]|(c & Hc & [(_ & E)|(Hdraft & line & E)])];
      rewrite E in Hrun; try discriminate Hrun.
    injection Hrun as <- <-.
    set (u := update c (Some PUBLISHED) _) in *.
    destruct (rows_replace (competitions w) competitionId c u Hc)
      as (rest & Hold & Hnew).
    assert (Hperm : filter (fun c => status c = DRAFT) (rows w)
                    ≡ₚ c :: filter (fun c => status c = DRAFT)
                              (rows {| competitions := <[competitionId := u]> (competitions w);
                                       invalidated := invalidated w
                                         ++ ["competition:" +:+ competitionId;
                                             "competitions:list"];
                                       logged := logged w ++ [(info, line)] |})).
    { unfold rows. cbn [competitions]. rewrite Hnew, Hold. rewrite !filter_cons.
      change (status u) with PUBLISHED.
      repeat case_decide; try tauto; try congruence; reflexivity. }
    split; [|split].
    + intros page Hin.
      unfold getPendingCompetitions, findMany in Hin. cbn [data] in Hin.
      apply subseteq_take, subseteq_drop in Hin.
      rewrite byCreatedAtDesc_Permutation in Hin.
      apply list_elem_of_filter in Hin as [Hstatus _]. discriminate Hstatus.
    + exists c. split; [exact Hc|exact Hperm].
    + intros page.
      cbn [getPendingCompetitions pagination paginate total]. unfold count.
      rewrite Hperm. reflexivity.
Qed.

End Dashboard.

(** *** The admin properties at work on a table of one competition *)

Section AdminSamples.
Import CompetitionAdminService.

Lemma approveCompetition_effect_witness :
  exists (updated : CompetitionAdminService.Competition)
         (w' : CompetitionAdminService.World),
    CompetitionAdminService.approveCompetition
      (sampleAdminWorld CompetitionAdminService.DRAFT) "c1" "admin1"
      (Some {| CompetitionAdminService.adminNotes := Some "Revisado" |})
    = (CompetitionAdminService.Return updated, w')
    /\ CompetitionAdminService.status updated = CompetitionAdminService.PUBLISHED
    /\ CompetitionAdminService.invalidated w'
       = ["competition:c1"; "competitions:list"].
Proof.
  destruct (approveCompetition_effect
              (sampleAdminWorld CompetitionAdminService.DRAFT) "c1" "admin1"
              (Some {| CompetitionAdminService.adminNotes := Some "Revisado" |})
              (sampleCompetition CompetitionAdminService.DRAFT) eq_refl eq_refl)
    as (updated & w' & Hrun & _ & Hstatus & _ & _ & _ & _ & _ & _ & Hcache).
  exists updated, w'. auto.
Defined.

Lemma approveCompetition_final_witness :
  CompetitionAdminService.rejectCompetition
    (snd (CompetitionAdminService.approveCompetition
            (sampleAdminWorld CompetitionAdminService.DRAFT) "c1" "admin1" None))
    "c1" "admin2"
    {| CompetitionAdminService.rejectionReason := "Falta el recorrido" |}
  = (CompetitionAdminService.Throw "Only DRAFT competitions can be rejected",
     snd (CompetitionAdminService.approveCompetition
            (sampleAdminWorld CompetitionAdminService.DRAFT) "c1" "admin1" None)).
Proof.
  apply (approveCompetition_final
           (sampleAdminWorld CompetitionAdminService.DRAFT) _ "c1" "admin1" None
           _ eq_refl).
Defined.

Lemma rejectCompetition_then_witness :
  exists (published : CompetitionAdminService.Competition)
         (w'' : CompetitionAdminService.World),
    CompetitionAdminService.approveCompetition
      (snd (CompetitionAdminService.rejectCompetition
              (sampleAdminWorld CompetitionAdminService.DRAFT) "c1" "admin1"
              {| CompetitionAdminService.rejectionReason := "Falta el recorrido" |}))
      "c1" "admin2" None
    = (CompetitionAdminService.Return published, w'')
    /\ CompetitionAdminService.status published = CompetitionAdminService.PUBLISHED.
Proof.
  destruct (rejectCompetition_then
              (sampleAdminWorld CompetitionAdminService.DRAFT) _ "c1" "admin1"
              {| CompetitionAdminService.rejectionReason := "Falta el recorrido" |}
              _ eq_refl) as [_ Happrove].
  destruct (Happrove "admin2") as (published & w'' & Hrun & Hstatus & _).
  exists published, w''. auto.
Defined.

Lemma approveCompetition_as_update_witness :
  exists (approved changed : CompetitionAdminService.Competition)
         (w1 w2 : CompetitionAdminService.World),
    CompetitionAdminService.approveCompetition
      (sampleAdminWorld CompetitionAdminService.DRAFT) "c1" "admin1" None
    = (CompetitionAdminService.Return approved, w1)
    /\ CompetitionAdminService.updateCompetitionStatus
         (sampleAdminWorld CompetitionAdminService.DRAFT) "c1"
         CompetitionAdminService.PUBLISHED "admin1"
       = (CompetitionAdminService.Return changed, w2)
    /\ CompetitionAdminService.id approved = CompetitionAdminService.id changed
    /\ CompetitionAdminService.status approved = CompetitionAdminService.PUBLISHED
    /\ CompetitionAdminService.status changed = CompetitionAdminService.PUBLISHED
    /\ CompetitionAdminService.description approved
       = CompetitionAdminService.description changed
    /\ CompetitionAdminService.columns approved
       = CompetitionAdminService.columns changed
    /\ CompetitionAdminService.competitions w1
       = CompetitionAdminService.competitions w2
    /\ CompetitionAdminService.invalidated w1
       = CompetitionAdminService.invalidated w2
    /\ CompetitionAdminService.logged w1 <> CompetitionAdminService.logged w2.
Proof.
  apply (approveCompetition_as_update
           (sampleAdminWorld CompetitionAdminService.DRAFT) "c1" "admin1"
           (sampleCompetition CompetitionAdminService.DRAFT) eq_refl eq_refl).
Defined.

Lemma updateCompetitionStatus_last_wins_witness :
  CompetitionAdminService.competitions
    (snd (CompetitionAdminService.updateCompetitionStatus
            (snd (CompetitionAdminService.updateCompetitionStatus
                    (sampleAdminWorld CompetitionAdminService.DRAFT) "c1"
                    CompetitionAdminService.CANCELLED "admin1"))
            "c1" CompetitionAdminService.PUBLISHED "admin2"))
  = CompetitionAdminService.competitions
      (snd (CompetitionAdminService.updateCompetitionStatus
              (sampleAdminWorld CompetitionAdminService.DRAFT) "c1"
              CompetitionAdminService.PUBLISHED "admin2")).
Proof.
  apply (updateCompetitionStatus_last_wins
           (sampleAdminWorld CompetitionAdminService.DRAFT) "c1" "admin1" "admin2"
           CompetitionAdminService.CANCELLED CompetitionAdminService.PUBLISHED
           (sampleCompetition CompetitionAdminService.DRAFT) eq_refl).
Defined.

Lemma asStored_Permutation :
  forall l : list CompetitionAdminService.Competition, (fun rows => rows) l ≡ₚ l.
Proof. reflexivity. Qed.

Lemma getPendingCompetitions_page_witness :
  CompetitionAdminService.total
    (CompetitionAdminService.pagination
       (CompetitionAdminService.getPendingCompetitions (fun rows => rows)
          (sampleAdminWorld CompetitionAdminService.DRAFT) 1 20))
  = length (filter (fun c => CompetitionAdminService.status c
                             = CompetitionAdminService.DRAFT)
              (CompetitionAdminService.rows
                 (sampleAdminWorld CompetitionAdminService.DRAFT))).
Proof.
  apply (getPendingCompetitions_page (fun rows => rows) asStored_Permutation
           (sampleAdminWorld CompetitionAdminService.DRAFT) 1 20); lia.
Defined.

Lemma getPendingCompetitions_pages_witness :
  exists k : Z,
    CompetitionAdminService.pages
      (CompetitionAdminService.pagination
         (CompetitionAdminService.getPendingCompetitions (fun rows => rows)
            (sampleAdminWorld CompetitionAdminService.DRAFT) 2 20))
    = Fin (inject_Z k)
    /\ (CompetitionAdminService.data
          (CompetitionAdminService.getPendingCompetitions (fun rows => rows)
             (sampleAdminWorld CompetitionAdminService.DRAFT) 2 20) = []
        <-> k < 2).
Proof.
  destruct (getPendingCompetitions_pages (fun rows => rows) asStored_Permutation
              (sampleAdminWorld CompetitionAdminService.DRAFT) 2 20)
    as (k & Hk & _ & _ & Hempty); [lia|lia|].
  exists k. auto.
Defined.

Lemma getPendingCompetitions_pages_cover_witness :
  flat_map (fun p => CompetitionAdminService.data
                       (CompetitionAdminService.getPendingCompetitions
                          (fun rows => rows)
                          (sampleAdminWorld CompetitionAdminService.DRAFT)
                          (Z.of_nat p) 20))
    (seq 1 1)
  = filter (fun c => CompetitionAdminService.status c = CompetitionAdminService.DRAFT)
      (CompetitionAdminService.rows (sampleAdminWorld CompetitionAdminService.DRAFT)).
Proof.
  apply (getPendingCompetitions_pages_cover (fun rows => rows) asStored_Permutation
           (sampleAdminWorld CompetitionAdminService.DRAFT) 20 1); [lia|].
  vm_compute. discriminate.
Defined.

Lemma getOrganizerCompetitions_page_witness :
  Z.of_nat (length (CompetitionAdminService.data
                      (CompetitionAdminService.getOrganizerCompetitions
                         (fun rows => rows)
                         (sampleAdminWorld CompetitionAdminService.PUBLISHED)
                         "u7" 1 20))) <= 20.
Proof.
  apply (getOrganizerCompetitions_page (fun rows => rows) asStored_Permutation
           (sampleAdminWorld CompetitionAdminService.PUBLISHED) "u7" 1 20); lia.
Defined.

Lemma getPendingCompetitions_after_decision_witness :
  exists p : nat,
    (1 <= p)%nat
    /\ fst (CompetitionAdminService.rejectCompetition
              (sampleAdminWorld CompetitionAdminService.DRAFT) "c1" "admin1"
              {| CompetitionAdminService.rejectionReason := "Falta el recorrido" |})
       = CompetitionAdminService.Return
           (CompetitionAdminService.update
              (sampleCompetition CompetitionAdminService.DRAFT) None
              (Some (CompetitionAdminService.description
                       (sampleCompetition CompetitionAdminService.DRAFT)
                     +:+ CompetitionAdminService.rejectedMark
                     +:+ "Falta el recorrido")))
    /\ CompetitionAdminService.update
         (sampleCompetition CompetitionAdminService.DRAFT) None
         (Some (CompetitionAdminService.description
                  (sampleCompetition CompetitionAdminService.DRAFT)
                +:+ CompetitionAdminService.rejectedMark
                +:+ "Falta el recorrido"))
       ∈ CompetitionAdminService.data
           (CompetitionAdminService.getPendingCompetitions (fun rows => rows)
              (snd (CompetitionAdminService.rejectCompetition
                      (sampleAdminWorld CompetitionAdminService.DRAFT) "c1" "admin1"
                      {| CompetitionAdminService.rejectionReason
                           := "Falta el recorrido" |}))
              (Z.of_nat p) 20).
Proof.
  destruct (getPendingCompetitions_after_decision (fun rows => rows)
              asStored_Permutation
              (sampleAdminWorld CompetitionAdminService.DRAFT)
              (snd (CompetitionAdminService.rejectCompetition
                      (sampleAdminWorld CompetitionAdminService.DRAFT) "c1" "admin1"
                      {| CompetitionAdminService.rejectionReason
                           := "Falta el recorrido" |}))
              "c1" "admin1"
              (CompetitionAdminService.update
                 (sampleCompetition CompetitionAdminService.DRAFT) None
                 (Some (CompetitionAdminService.description
                          (sampleCompetition CompetitionAdminService.DRAFT)
                        +:+ CompetitionAdminService.rejectedMark
                        +:+ "Falta el recorrido")))
              20 ltac:(lia)) as [Hreject _].
  destruct (Hreject {| CompetitionAdminService.rejectionReason
                         := "Falta el recorrido" |} eq_refl)
    as ((p & Hp & Hin) & _).
  exists p. split; [exact Hp|]. split; [reflexivity|exact Hin].
Defined.

End AdminSamples.
